(** * Authentication handler of the SDK: builder, key loading, token checks

    A shallow embedding of the [authentication] package: the handler
    builder and its [Build] validation, the key store refreshed on a miss,
    the claim and ACL checks and the error response.  Maps of the program
    ([sync.Map], [map[string]*regexp.Regexp], [jwt.MapClaims], [http.Header])
    are finite maps; what the program gets from the Go libraries and from
    the machine it runs on (file system, HTTP client, regular expressions,
    JSON and YAML decoding, the token parser, the clock) is collected in the
    class [GoEnv]. *)

From Stdlib Require Import ZArith Ascii String List Lia.
From stdpp Require Import base option list strings gmap fin_maps.

Local Open Scope Z_scope.
Set Warnings "-register-all".

(** ** Go values *)

(** A Go [error] is represented by its message. *)
Definition error := string.

(** The result of a call returning [(value, error)]. *)
Inductive result (A : Type) : Type :=
| Ok (a : A)
| Err (e : error).
Arguments Ok {A} a.
Arguments Err {A} e.

(** [%v] of an [error] variable, which prints [<nil>] when it is nil. *)
Definition fmt_err (e : option error) : string :=
  match e with
  | Some m => m
  | None => "<nil>"
  end.

(** [fmt.Sprintf] for the verbs the package uses ([%s], [%v], [%d], [%T]),
    with every operand already rendered as text.  A verb without operand
    prints as Go does, [%!v(MISSING)]; [%%] prints a percent sign. *)
Definition is_verb (c : ascii) : bool :=
  (Ascii.eqb c "s" || Ascii.eqb c "v" || Ascii.eqb c "d" || Ascii.eqb c "T")%bool.

Fixpoint Sprintf (format : string) (args : list string) : string :=
  match format with
  | EmptyString => EmptyString
  | String c rest =>
      if Ascii.eqb c "%" then
        match rest with
        | EmptyString => "%!(NOVERB)"
        | String v rest' =>
            if is_verb v then
              match args with
              | a :: args' => a +:+ Sprintf rest' args'
              | [] => "%!" +:+ String v "(MISSING)" +:+ Sprintf rest' []
              end
            else if Ascii.eqb v "%" then String "%" (Sprintf rest' args)
            else "%!" +:+ String v "(NOVERB)" +:+ Sprintf rest' args
        end
      else String c (Sprintf rest args)
  end.

(** [strings.EqualFold] on ASCII letters.  The package only compares with
    the constants "Bearer" and "https"; the scheme compared with "https"
    comes from [url.Parse], which accepts ASCII letters only. *)
Definition lower (c : ascii) : ascii :=
  let n := nat_of_ascii c in
  if ((65 <=? n) && (n <=? 90))%nat then ascii_of_nat (n + 32) else c.

Fixpoint EqualFold (s t : string) : bool :=
  match s, t with
  | EmptyString, EmptyString => true
  | String a s', String b t' => Ascii.eqb (lower a) (lower b) && EqualFold s' t'
  | _, _ => false
  end.

(** [strings.Split] and [strings.ReplaceAll] for a separator of one byte,
    which is how the package calls them ("/" and "_"). *)
Fixpoint Split_rev (s : string) (sep : ascii) (cur : string) : list string :=
  match s with
  | EmptyString => [String.rev cur]
  | String c s' =>
      if Ascii.eqb c sep then String.rev cur :: Split_rev s' sep EmptyString
      else Split_rev s' sep (String c cur)
  end.

Definition Split (s : string) (sep : ascii) : list string :=
  Split_rev s sep EmptyString.

Fixpoint ReplaceAll (s : string) (old new : ascii) : string :=
  match s with
  | EmptyString => EmptyString
  | String c s' => String (if Ascii.eqb c old then new else c) (ReplaceAll s' old new)
  end.

(** The dynamic values [encoding/json] decodes into an [interface{}]:
    nil, bool, float64, string, []interface{} and map[string]interface{}.
    A float64 is given by its IEEE 754 bit pattern. *)
Inductive JSONValue : Type :=
| JNull
| JBool (b : bool)
| JNumber (bits : Z)
| JString (s : string)
| JArray (items : list JSONValue)
| JObject (fields : list (string * JSONValue)).

(** [%T] of such a value. *)
Definition fmt_T (v : JSONValue) : string :=
  match v with
  | JNull => "<nil>"
  | JBool _ => "bool"
  | JNumber _ => "float64"
  | JString _ => "string"
  | JArray _ => "[]interface {}"
  | JObject _ => "map[string]interface {}"
  end.

(** ** Types of the package and of the libraries it calls *)

(** [sdk.Logger]: the only thing the package asks a logger is whether
    debug is enabled; what is logged is recorded in the trace. *)
Record sdk_Logger : Type := { DebugEnabled : bool }.

(** [http.Handler] and [x509.CertPool] are opaque references. *)
Inductive http_Handler : Type := handlerRef (id : nat).
Inductive CertPool : Type := certPoolRef (id : nat).

(** [os.FileInfo], reduced to [Mode().IsRegular()]. *)
Record FileInfo : Type := { IsRegular : bool }.

(** [url.URL], reduced to the field [Build] reads. *)
Record URL : Type := { Scheme : string }.

(** [http.Client] as [Build] configures it. *)
Record http_Client : Type := { RootCAs : option CertPool; InsecureSkipVerify : bool }.

(** An [io.Reader] is what [ioutil.ReadAll] gets out of it. *)
Record Reader : Type := { ReadAll : result string }.

(** [http.Response]: its body and the outcome of closing it. *)
Record Response : Type := { Body : Reader; Body_Close : option error }.

(** [rsa.PublicKey]. *)
Record PublicKey : Type := { N : Z; E : Z }.

(** [time.Time] in nanoseconds since the zero value of the type. *)
Definition Time := Z.

Record aclItem : Type := { Claim : string; Pattern : string }.

Record keyData : Type :=
  { Kid : string; Kty : string; Alg : string; Use : string; key_N : string; key_E : string }.

Record setData : Type := { Keys : list keyData }.

(** [jwt.Token], reduced to its header and claims. *)
Record Token : Type :=
  { tok_Header : gmap string JSONValue; tok_Claims : gmap string JSONValue }.

(** The errors of the token parser: a [*jwt.ValidationError] with its
    bit field [Errors], or any other error. *)
Inductive jwt_error : Type :=
| ValidationError (Errors : Z) (msg : error)
| OtherError (msg : error).

Definition ValidationErrorMalformed : Z := Z.shiftl 1 0.
Definition ValidationErrorUnverifiable : Z := Z.shiftl 1 1.
Definition ValidationErrorSignatureInvalid : Z := Z.shiftl 1 2.
Definition ValidationErrorExpired : Z := Z.shiftl 1 4.
Definition ValidationErrorIssuedAt : Z := Z.shiftl 1 5.
Definition ValidationErrorNotValidYet : Z := Z.shiftl 1 7.

(** [http.Request], reduced to the path, the headers and the token that
    [ContextWithToken] puts in its context. *)
Record Request : Type :=
  { URL_Path : string; Header : gmap string (list string); ctx_token : option Token }.

(** [http.Header.Get]: the first value of the key, or the empty string. *)
Definition Header_Get (h : gmap string (list string)) (key : string) : string :=
  match h !! key with
  | Some (v :: _) => v
  | _ => EmptyString
  end.

(** What the package takes from outside: the Go libraries and the machine. *)
Class GoEnv : Type := {
  Regexp : Type;
  regexp_Compile : string -> result Regexp;
  MatchString : Regexp -> string -> bool;
  (** [bearerRE.FindStringSubmatch], for the package-level regular
      expression that extracts the scheme and the credential from the
      authorization header; [nil] is the empty list. *)
  bearerRE_FindStringSubmatch : string -> list string;
  strings_ToUpper : string -> string;
  fmt_v : JSONValue -> string;
  os_Stat : string -> result FileInfo;
  os_Open : string -> result Reader;
  url_Parse : string -> result URL;
  ioutil_ReadFile : string -> result string;
  yaml_Unmarshal : string -> result (list aclItem);
  json_Unmarshal : string -> result setData;
  http_NewRequest : string -> option error;
  http_Do : http_Client -> string -> result Response;
  (** The two halves of [jwt.Parser.ParseWithClaims], before and after
      it calls the key function: decoding the token, then validating its
      claims and signature with the key; the latter gives the bit field of
      the validation error, zero when the token is valid. *)
  jwt_ParseUnverified : string -> Token + jwt_error;
  jwt_Validate : Token -> option PublicKey -> Z;
  (** The successive readings of the clock. *)
  clock : nat -> Time;
}.

(** ** The builder *)

Record HandlerBuilder : Type := {
  b_logger : option sdk_Logger;
  b_publicPaths : list string;
  b_keysFiles : list string;
  b_keysURLs : list string;
  b_keysCAs : option CertPool;
  b_keysInsecure : bool;
  b_aclFiles : list string;
  b_next : option http_Handler;
}.

Definition NewHandler : HandlerBuilder :=
  {| b_logger := None; b_publicPaths := []; b_keysFiles := []; b_keysURLs := [];
     b_keysCAs := None; b_keysInsecure := false; b_aclFiles := []; b_next := None |}.

Definition Logger (value : option sdk_Logger) (b : HandlerBuilder) : HandlerBuilder :=
  {| b_logger := value; b_publicPaths := b_publicPaths b; b_keysFiles := b_keysFiles b;
     b_keysURLs := b_keysURLs b; b_keysCAs := b_keysCAs b;
     b_keysInsecure := b_keysInsecure b; b_aclFiles := b_aclFiles b; b_next := b_next b |}.

Definition Public (value : string) (b : HandlerBuilder) : HandlerBuilder :=
  {| b_logger := b_logger b; b_publicPaths := b_publicPaths b ++ [value];
     b_keysFiles := b_keysFiles b; b_keysURLs := b_keysURLs b; b_keysCAs := b_keysCAs b;
     b_keysInsecure := b_keysInsecure b; b_aclFiles := b_aclFiles b; b_next := b_next b |}.

Definition KeysFile (value : string) (b : HandlerBuilder) : HandlerBuilder :=
  if negb (String.eqb value EmptyString) then
    {| b_logger := b_logger b; b_publicPaths := b_publicPaths b;
       b_keysFiles := b_keysFiles b ++ [value]; b_keysURLs := b_keysURLs b;
       b_keysCAs := b_keysCAs b; b_keysInsecure := b_keysInsecure b;
       b_aclFiles := b_aclFiles b; b_next := b_next b |}
  else b.

Definition KeysURL (value : string) (b : HandlerBuilder) : HandlerBuilder :=
  if negb (String.eqb value EmptyString) then
    {| b_logger := b_logger b; b_publicPaths := b_publicPaths b;
       b_keysFiles := b_keysFiles b; b_keysURLs := b_keysURLs b ++ [value];
       b_keysCAs := b_keysCAs b; b_keysInsecure := b_keysInsecure b;
       b_aclFiles := b_aclFiles b; b_next := b_next b |}
  else b.

Definition KeysCAs (value : option CertPool) (b : HandlerBuilder) : HandlerBuilder :=
  {| b_logger := b_logger b; b_publicPaths := b_publicPaths b; b_keysFiles := b_keysFiles b;
     b_keysURLs := b_keysURLs b; b_keysCAs := value;
     b_keysInsecure := b_keysInsecure b; b_aclFiles := b_aclFiles b; b_next := b_next b |}.

Definition KeysInsecure (value : bool) (b : HandlerBuilder) : HandlerBuilder :=
  {| b_logger := b_logger b; b_publicPaths := b_publicPaths b; b_keysFiles := b_keysFiles b;
     b_keysURLs := b_keysURLs b; b_keysCAs := b_keysCAs b;
     b_keysInsecure := value; b_aclFiles := b_aclFiles b; b_next := b_next b |}.

Definition ACLFile (value : string) (b : HandlerBuilder) : HandlerBuilder :=
  if negb (String.eqb value EmptyString) then
    {| b_logger := b_logger b; b_publicPaths := b_publicPaths b;
       b_keysFiles := b_keysFiles b; b_keysURLs := b_keysURLs b;
       b_keysCAs := b_keysCAs b; b_keysInsecure := b_keysInsecure b;
       b_aclFiles := b_aclFiles b ++ [value]; b_next := b_next b |}
  else b.

Definition Next (value : option http_Handler) (b : HandlerBuilder) : HandlerBuilder :=
  {| b_logger := b_logger b; b_publicPaths := b_publicPaths b; b_keysFiles := b_keysFiles b;
     b_keysURLs := b_keysURLs b; b_keysCAs := b_keysCAs b;
     b_keysInsecure := b_keysInsecure b; b_aclFiles := b_aclFiles b; b_next := value |}.

(** ** The handler and its construction *)

(** The handler.  [keys] is the [sync.Map] from key identifiers to keys;
    [keys] and [lastKeyReload] are the two fields that change after
    [Build].  The token parser is [&jwt.Parser{}] for every handler and has
    no field of its own here. *)
Record Handler `{GoEnv} : Type := {
  logger : sdk_Logger;
  publicPaths : list Regexp;
  keysFiles : list string;
  keysURLs : list string;
  keysClient : http_Client;
  keys : gmap string PublicKey;
  lastKeyReload : Time;
  aclItems : gmap string Regexp;
  next : http_Handler;
}.

Section Build.
Context `{GoEnv}.

(** The loops of [Build] assign the named result [err] and either return
    (left: the error returned) or fall through (right: the value [err] is
    left with). *)

(** Check that all the configured keys files exist. *)
Fixpoint checkKeysFiles (files : list string) (err : option error) : error + option error :=
  match files with
  | [] => inr err
  | file :: rest =>
      match os_Stat file with
      | Err e => inl (Sprintf "keys file '%s' doesn't exist: %v" [file; e])
      | Ok info =>
          if negb (IsRegular info)
          then inl (Sprintf "keys file '%s' isn't a regular file" [file])
          else checkKeysFiles rest None
      end
  end.

(** Check that all the configured keys URLs are valid HTTPS URLs.  The
    branch for a scheme other than HTTPS assigns [err] and has no
    [return]. *)
Fixpoint checkKeysURLs (urls : list string) (err : option error) : error + option error :=
  match urls with
  | [] => inr err
  | addr :: rest =>
      match url_Parse addr with
      | Err e => inl (Sprintf "keys URL '%s' isn't a valid URL: %v" [addr; e])
      | Ok parsed =>
          if negb (EqualFold (Scheme parsed) "https")
          then checkKeysURLs rest
                 (Some (Sprintf "keys URL '%s' doesn't use the HTTPS protocol: %v"
                                [addr; fmt_err None]))
          else checkKeysURLs rest None
      end
  end.

(** Compile the regular expressions of the public paths. *)
Fixpoint compilePublic (exprs : list string) (err : option error)
  : error + (list Regexp * option error) :=
  match exprs with
  | [] => inr ([], err)
  | expr :: rest =>
      match regexp_Compile expr with
      | Err e => inl e
      | Ok re =>
          match compilePublic rest None with
          | inl e => inl e
          | inr (res, err') => inr (re :: res, err')
          end
      end
  end.

Fixpoint processItems (listData : list aclItem) (items : gmap string Regexp)
  : result (gmap string Regexp) :=
  match listData with
  | [] => Ok items
  | itemData :: rest =>
      match regexp_Compile (Pattern itemData) with
      | Err e => Err e
      | Ok re => processItems rest (<[Claim itemData := re]> items)
      end
  end.

(** [loadACLFile] loads the given ACL file into the given map of items. *)
Definition loadACLFile (file : string) (items : gmap string Regexp)
  : result (gmap string Regexp) :=
  match ioutil_ReadFile file with
  | Err e => Err e
  | Ok yamlData =>
      match yaml_Unmarshal yamlData with
      | Err e => Err e
      | Ok listData => processItems listData items
      end
  end.

Fixpoint loadACLFiles (files : list string) (items : gmap string Regexp) (err : option error)
  : error + (gmap string Regexp * option error) :=
  match files with
  | [] => inr (items, err)
  | file :: rest =>
      match loadACLFile file items with
      | Err e => inl e
      | Ok items' => loadACLFiles rest items' None
      end
  end.

(** [Build] returns the pair of its named results [(handler, err)]. *)
Definition Build (b : HandlerBuilder) : option Handler * option error :=
  match b_logger b with
  | None => (None, Some "logger is mandatory")
  | Some lg =>
  match b_next b with
  | None => (None, Some "next handler is mandatory")
  | Some nxt =>
  if (length (b_keysFiles b) + length (b_keysURLs b) =? 0)%nat
  then (None, Some "at least one keys file or one keys URL must be configured")
  else
  match checkKeysFiles (b_keysFiles b) None with
  | inl e => (None, Some e)
  | inr err =>
  match checkKeysURLs (b_keysURLs b) err with
  | inl e => (None, Some e)
  | inr err =>
  let keysClient :=
    {| RootCAs := b_keysCAs b; InsecureSkipVerify := b_keysInsecure b |} in
  match compilePublic (b_publicPaths b) err with
  | inl e => (None, Some e)
  | inr (public, err) =>
  match loadACLFiles (b_aclFiles b) ∅ err with
  | inl e => (None, Some e)
  | inr (aclItems, err) =>
      (Some {| logger := lg;
               publicPaths := public;
               keysFiles := b_keysFiles b;
               keysURLs := b_keysURLs b;
               keysClient := keysClient;
               keys := ∅;
               lastKeyReload := 0;
               aclItems := aclItems;
               next := nxt |},
       err)
  end end end end end end.

End Build.

(** ** The error object of the SDK *)

(** Modelled from the spec: the error object of package [errors] and its
    builder, which belong to another package of the SDK.  The spec
    describes the builders as plain value containers with no logic; the
    fields are those [sendError] sets, each one optional as in the
    generated builders, and [Build] copies them and returns no error. *)
Record Error : Type := {
  err_id : option string;
  err_href : option string;
  err_code : option string;
  err_reason : option string;
}.

Definition NewError : Error :=
  {| err_id := None; err_href := None; err_code := None; err_reason := None |}.

Definition ID (value : string) (b : Error) : Error :=
  {| err_id := Some value; err_href := err_href b; err_code := err_code b;
     err_reason := err_reason b |}.

Definition HREF (value : string) (b : Error) : Error :=
  {| err_id := err_id b; err_href := Some value; err_code := err_code b;
     err_reason := err_reason b |}.

Definition Code (value : string) (b : Error) : Error :=
  {| err_id := err_id b; err_href := err_href b; err_code := Some value;
     err_reason := err_reason b |}.

Definition Reason (value : string) (b : Error) : Error :=
  {| err_id := err_id b; err_href := err_href b; err_code := err_code b;
     err_reason := Some value |}.

Definition Error_Build (b : Error) : option Error * option error := (Some b, None).

(** ** State and effects *)

Inductive Level : Type := LevelDebug | LevelInfo | LevelError.

(** What a run of the handler does that can be seen from outside, in the
    order in which it happens: lines sent to the logger, reads and writes
    of the key store, and what is done with the response writer and with
    the next handler. *)
Inductive Event : Type :=
| Log (level : Level) (msg : string)
| KeysLoad (kid : string)
| KeysStore (kid : string) (key : PublicKey)
| SetHeader (name value : string)
| SendError (body : option Error)
| SendPanic
| ServeNext (r : Request).

Record St `{GoEnv} : Type := {
  hnd : Handler;
  ticks : nat;
  trace : list Event;
}.

Section Monad.
Context `{GoEnv}.

Definition M (A : Type) : Type := St -> A * St.

Definition ret {A} (a : A) : M A := fun st => (a, st).

Definition bind {A B} (m : M A) (k : A -> M B) : M B :=
  fun st => let (a, st') := m st in k a st'.

Definition gets {A} (f : Handler -> A) : M A := fun st => (f (hnd st), st).

Definition emit (e : Event) : M unit :=
  fun st => (tt, {| hnd := hnd st; ticks := ticks st; trace := trace st ++ [e] |}).

Definition logf (level : Level) (format : string) (args : list string) : M unit :=
  emit (Log level (Sprintf format args)).

(** [time.Now()]: the next reading of the clock. *)
Definition time_Now : M Time :=
  fun st => (clock (ticks st),
             {| hnd := hnd st; ticks := S (ticks st); trace := trace st |}).

(** [h.keys.Load(kid)], with [ok] as [Some]. *)
Definition keys_Load (kid : string) : M (option PublicKey) :=
  fun st => (keys (hnd st) !! kid,
             {| hnd := hnd st; ticks := ticks st; trace := trace st ++ [KeysLoad kid] |}).

Definition with_keys (h : Handler) (ks : gmap string PublicKey) : Handler :=
  {| logger := logger h; publicPaths := publicPaths h; keysFiles := keysFiles h;
     keysURLs := keysURLs h; keysClient := keysClient h; keys := ks;
     lastKeyReload := lastKeyReload h; aclItems := aclItems h; next := next h |}.

Definition with_lastKeyReload (h : Handler) (t : Time) : Handler :=
  {| logger := logger h; publicPaths := publicPaths h; keysFiles := keysFiles h;
     keysURLs := keysURLs h; keysClient := keysClient h; keys := keys h;
     lastKeyReload := t; aclItems := aclItems h; next := next h |}.

(** [h.keys.Store(kid, key)]. *)
Definition keys_Store (kid : string) (key : PublicKey) : M unit :=
  fun st => (tt, {| hnd := with_keys (hnd st) (<[kid := key]> (keys (hnd st)));
                    ticks := ticks st;
                    trace := trace st ++ [KeysStore kid key] |}).

Definition set_lastKeyReload (t : Time) : M unit :=
  fun st => (tt, {| hnd := with_lastKeyReload (hnd st) t; ticks := ticks st;
                    trace := trace st |}).

(** A [for ... range] loop whose body returns nothing. *)
Fixpoint for_each {A} (l : list A) (body : A -> M unit) : M unit :=
  match l with
  | [] => ret tt
  | x :: rest => bind (body x) (fun _ => for_each rest body)
  end.

End Monad.

Notation "x <- m ;; k" := (bind m (fun x => k))
  (at level 100, m at next level, right associativity).
Notation "m ;;; k" := (bind m (fun _ => k))
  (at level 100, right associativity).

(** ** Decoding a key *)

(** [base64.RawURLEncoding.DecodeString]: the URL alphabet, no padding,
    carriage returns and line feeds skipped, any other byte outside the
    alphabet an error, and a last group of two or three characters giving
    one or two bytes. *)
Definition decodeMap (c : ascii) : option Z :=
  let n := Z.of_nat (nat_of_ascii c) in
  if (65 <=? n) && (n <=? 90) then Some (n - 65)
  else if (97 <=? n) && (n <=? 122) then Some (n - 71)
  else if (48 <=? n) && (n <=? 57) then Some (n + 4)
  else if n =? 45 then Some 62
  else if n =? 95 then Some 63
  else None.

Fixpoint sextets (s : string) : option (list Z) :=
  match s with
  | EmptyString => Some []
  | String c s' =>
      if (Ascii.eqb c "010" || Ascii.eqb c "013")%bool then sextets s'
      else match decodeMap c with
           | None => None
           | Some v => cons v <$> sextets s'
           end
  end.

Fixpoint quanta (l : list Z) : option (list Z) :=
  match l with
  | [] => Some []
  | [_] => None
  | [a; b] =>
      let val := Z.lor (Z.shiftl a 18) (Z.shiftl b 12) in
      Some [Z.land (Z.shiftr val 16) 255]
  | [a; b; c] =>
      let val := Z.lor (Z.lor (Z.shiftl a 18) (Z.shiftl b 12)) (Z.shiftl c 6) in
      Some [Z.land (Z.shiftr val 16) 255; Z.land (Z.shiftr val 8) 255]
  | a :: b :: c :: d :: rest =>
      let val := Z.lor (Z.lor (Z.lor (Z.shiftl a 18) (Z.shiftl b 12)) (Z.shiftl c 6)) d in
      app [Z.land (Z.shiftr val 16) 255; Z.land (Z.shiftr val 8) 255; Z.land val 255]
        <$> quanta rest
  end.

Definition DecodeString (s : string) : result (list Z) :=
  match sextets s with
  | None => Err "illegal base64 data"
  | Some l =>
      match quanta l with
      | None => Err "illegal base64 data"
      | Some bytes => Ok bytes
      end
  end.

(** [new(big.Int).SetBytes]: the bytes as a big-endian number. *)
Definition SetBytes (bytes : list Z) : Z :=
  fold_left (fun acc b => acc * 256 + b) bytes 0.

(** [big.Int.Int64] of a number that is not negative, then [int] on a
    64-bit platform: the low 64 bits as a signed integer. *)
Definition Int64 (x : Z) : Z :=
  let u := x mod 2 ^ 64 in
  if u <? 2 ^ 63 then u else u - 2 ^ 64.

(** [parseKey] converts the key data loaded from the JSON document to an
    actual key. *)
Definition parseKey (data : keyData) : result PublicKey :=
  if negb (String.eqb (Kty data) "RSA")
  then Err (Sprintf "key type '%s' isn't supported" [Kty data])
  else
    match DecodeString (key_N data) with
    | Err e => Err e
    | Ok nb =>
        match DecodeString (key_E data) with
        | Err e => Err e
        | Ok eb => Ok {| N := SetBytes nb; E := Int64 (SetBytes eb) |}
        end
    end.

(** ** Loading the keys *)

Section Keys.
Context `{GoEnv}.

(** The lines that the loop of [readKeys] logs for a key record when
    debug is enabled. *)
Definition debugKey (keyData : keyData) : M unit :=
  debug <- gets (fun h => DebugEnabled (logger h)) ;;
  if debug then
    logf LevelDebug "Value of 'kid' is '%s'" [Kid keyData] ;;;
    logf LevelDebug "Value of 'kty' is '%s'" [Kty keyData] ;;;
    logf LevelDebug "Value of 'alg' is '%s'" [Alg keyData] ;;;
    logf LevelDebug "Value of 'e' is '%s'" [key_E keyData] ;;;
    logf LevelDebug "Value of 'n' is '%s'" [key_N keyData]
  else ret tt.

(** The body of the loop of [readKeys] for one key record.  The test
    before the message about 'n' reads [keyData.E] again, as the source
    does. *)
Definition readKey (keyData : keyData) : M unit :=
  debugKey keyData ;;;
  if String.eqb (Kid keyData) EmptyString then
    logf LevelError "Can't read key because 'kid' is empty" []
  else if String.eqb (Kty keyData) EmptyString then
    logf LevelError "Can't read key '%s' because 'kty' is empty" [Kid keyData]
  else if String.eqb (Alg keyData) EmptyString then
    logf LevelError "Can't read key '%s' because 'alg' is empty" [Kid keyData]
  else if String.eqb (key_E keyData) EmptyString then
    logf LevelError "Can't read key '%s' because 'e' is empty" [Kid keyData]
  else if String.eqb (key_E keyData) EmptyString then
    logf LevelError "Can't read key '%s' because 'n' is empty" [Kid keyData]
  else
    match parseKey keyData with
    | Err _ =>
        logf LevelError "Key '%s' will be ignored because it can't be parsed" [Kid keyData]
    | Ok key =>
        keys_Store (Kid keyData) key ;;;
        logf LevelInfo "Loaded key '%s'" [Kid keyData]
    end.

(** [readKeys] reads the keys from the key set available in the reader. *)
Definition readKeys (reader : Reader) : M (option error) :=
  match ReadAll reader with
  | Err e => ret (Some e)
  | Ok jsonData =>
      match json_Unmarshal jsonData with
      | Err e => ret (Some e)
      | Ok setData =>
          for_each (Keys setData) readKey ;;;
          ret None
      end
  end.

Definition loadKeysFile (file : string) : M (option error) :=
  match os_Open file with
  | Err e => ret (Some e)
  | Ok reader => readKeys reader
  end.

(** The deferred function of [loadKeysURL] closes the body after
    [readKeys] has returned. *)
Definition loadKeysURL (addr : string) : M (option error) :=
  match http_NewRequest addr with
  | Some e => ret (Some e)
  | None =>
      client <- gets keysClient ;;
      match http_Do client addr with
      | Err e => ret (Some e)
      | Ok response =>
          res <- readKeys (Body response) ;;
          match Body_Close response with
          | Some e =>
              logf LevelError "Can't close response body for request to '%s': %v" [addr; e]
          | None => ret tt
          end ;;;
          ret res
      end
  end.

Definition loadKeys : M (option error) :=
  files <- gets keysFiles ;;
  for_each files (fun keysFile =>
    logf LevelInfo "Loading keys from file '%s'" [keysFile] ;;;
    err <- loadKeysFile keysFile ;;
    match err with
    | Some e => logf LevelError "Can't load keys from file '%s': %v" [keysFile; e]
    | None => ret tt
    end) ;;;
  urls <- gets keysURLs ;;
  for_each urls (fun keysURL =>
    logf LevelInfo "Loading keys from URL '%s'" [keysURL] ;;;
    err <- loadKeysURL keysURL ;;
    match err with
    | Some e => logf LevelError "Can't load keys from URL '%s': %v" [keysURL; e]
    | None => ret tt
    end) ;;;
  ret None.

(** [time.Time.Sub]: the difference as a [time.Duration], which stops at
    the least and greatest 64-bit values. *)
Definition time_Sub (t u : Time) : Z :=
  Z.max (- 2 ^ 63) (Z.min (2 ^ 63 - 1) (t - u)).

Definition time_Since (t : Time) : M Z :=
  now <- time_Now ;;
  ret (time_Sub now t).

Definition Minute : Z := 60 * 1000000000.

(** [selectKey] selects the key that should be used to verify the token;
    it returns the pair of its named results [(key, err)]. *)
Definition selectKey (token : Token) : M (option PublicKey * option error) :=
  match tok_Header token !! "kid" with
  | None => ret (None, Some "token doesn't have a 'kid' field in the header")
  | Some value =>
      match value with
      | JString kid =>
          key <- keys_Load kid ;;
          match key with
          | Some _ => ret (key, None)
          | None =>
              last <- gets lastKeyReload ;;
              since <- time_Since last ;;
              if since >? 1 * Minute then
                err <- loadKeys ;;
                match err with
                | Some e => ret (None, Some e)
                | None =>
                    now <- time_Now ;;
                    set_lastKeyReload now ;;;
                    key <- keys_Load kid ;;
                    match key with
                    | Some _ => ret (key, None)
                    | None =>
                        ret (None,
                             Some (Sprintf "there is no key for key identifier '%s'" [kid]))
                    end
                end
              else
                ret (None, Some (Sprintf "there is no key for key identifier '%s'" [kid]))
          end
      | _ =>
          ret (None,
               Some (Sprintf "token has a 'kid' field, but it is a %T instead of a string"
                             [fmt_T value]))
      end
  end.

End Keys.

(** ** Checking a request *)

Section Serve.
Context `{GoEnv}.

(** The format of the [WWW-Authenticate] header: the text
    [Bearer realm="%s"], with its two double quotes (byte 34). *)
Definition realm_format : string :=
  "Bearer realm=" +:+ String "034" "%s" +:+ String "034" EmptyString.

(** [sendError] sends an error response to the client, with a message
    composed from the format and its operands. *)
Definition sendError (r : Request) (format : string) (args : list string) : M unit :=
  let segments := Split (URL_Path r) "/" in
  let realm := EmptyString in
  let builder := NewError in
  let builder := ID (Sprintf "%d" ["401"]) builder in
  let '(builder, realm) :=
    if (4 <=? length segments)%nat then
      let prefix := nth 1 segments EmptyString in
      let service := nth 2 segments EmptyString in
      let version := nth 3 segments EmptyString in
      let builder :=
        HREF (Sprintf "/%s/%s/%s/errors/%d" [prefix; service; version; "401"]) builder in
      let builder :=
        Code (Sprintf "%s-%d" [strings_ToUpper (ReplaceAll service "_" "-"); "401"])
             builder in
      (builder, Sprintf "%s/%s" [service; version])
    else (builder, realm) in
  let builder := Reason (Sprintf format args) builder in
  let '(body, err) := Error_Build builder in
  match err with
  | Some e =>
      logf LevelError "Can't build error response: %v" [e] ;;;
      emit SendPanic
  | None => ret tt
  end ;;;
  emit (SetHeader "WWW-Authenticate" (Sprintf realm_format [realm])) ;;;
  emit (SendError body).

(** [checkClaim] checks that the given claim exists. *)
Definition checkClaim (r : Request) (claims : gmap string JSONValue) (name : string)
  : M (option JSONValue) :=
  match claims !! name with
  | None =>
      sendError r "Bearer token doesn't contain required claim '%s'" [name] ;;;
      ret None
  | Some value => ret (Some value)
  end.

(** [checkStringClaim] checks that the given claim exists and that the
    value is a string. *)
Definition checkStringClaim (r : Request) (claims : gmap string JSONValue) (name : string)
  : M (option string) :=
  value <- checkClaim r claims name ;;
  match value with
  | None => ret None
  | Some (JString result) => ret (Some result)
  | Some value =>
      sendError r "Bearer token claim '%s' contains incorrect text value '%v'"
                [name; fmt_v value] ;;;
      ret None
  end.

(** [int64(seconds)] for a float64 given by its bits, truncating towards
    zero; where the number does not fit, the least 64-bit integer, as the
    conversion instruction of amd64 gives. *)
Definition int64_of_float64 (bits : Z) : Z :=
  let negative := Z.testbit bits 63 in
  let e := Z.land (Z.shiftr bits 52) 2047 in
  let m := Z.land bits (2 ^ 52 - 1) in
  if e =? 2047 then - 2 ^ 63
  else
    let mant := if e =? 0 then m else m + 2 ^ 52 in
    let ex := (if e =? 0 then 1 else e) - 1075 in
    let mag := if 0 <=? ex then Z.shiftl mant ex else Z.shiftr mant (- ex) in
    let v := if negative then - mag else mag in
    if (- 2 ^ 63 <=? v) && (v <? 2 ^ 63) then v else - 2 ^ 63.

(** [time.Unix(sec, 0)] in nanoseconds since the zero time. *)
Definition time_Unix (sec : Z) : Time := (sec + 62135596800) * 1000000000.

(** [checkTimeClaim] checks that the given claim exists and that the
    value is a time. *)
Definition checkTimeClaim (r : Request) (claims : gmap string JSONValue) (name : string)
  : M (option Time) :=
  value <- checkClaim r claims name ;;
  match value with
  | None => ret None
  | Some (JNumber seconds) => ret (Some (time_Unix (int64_of_float64 seconds)))
  | Some value =>
      sendError r "Bearer token claim '%s' contains incorrect time value '%v'"
                [name; fmt_v value] ;;;
      ret None
  end.

(** [checkClaims] checks that the required claims are present and that
    they have valid values. *)
Definition checkClaims (r : Request) (claims : gmap string JSONValue) : M bool :=
  value <- checkStringClaim r claims "typ" ;;
  match value with
  | None => ret false
  | Some value =>
      if negb (EqualFold value "Bearer") then
        sendError r "Bearer token type '%s' isn't supported" [value] ;;;
        ret false
      else
        iat <- checkTimeClaim r claims "iat" ;;
        match iat with
        | None => ret false
        | Some _ =>
            exp <- checkTimeClaim r claims "exp" ;;
            match exp with
            | None => ret false
            | Some _ => ret true
            end
        end
  end.

(** The loop of [checkACL] over the items of the map, in the order in
    which the map gives them. *)
Fixpoint matchACL (items : list (string * Regexp)) (claims : gmap string JSONValue) : bool :=
  match items with
  | [] => false
  | (claim, pattern) :: rest =>
      match claims !! claim with
      | Some (JString text) =>
          if MatchString pattern text then true else matchACL rest claims
      | _ => matchACL rest claims
      end
  end.

(** [checkACL] checks if the claims match at least one of the items of
    the access control list. *)
Definition checkACL (r : Request) (claims : gmap string JSONValue) : M bool :=
  items <- gets aclItems ;;
  if (size items =? 0)%nat then ret true
  else if matchACL (map_to_list items) claims then ret true
  else
    sendError r "Access denied" [] ;;;
    ret false.

End Serve.

Section Handle.
Context `{GoEnv}.

(** [jwt.Parser.ParseWithClaims] of the library: it decodes the token,
    calls the key function once on the decoded token, turns an error of
    the key function into a validation error with the flag
    [ValidationErrorUnverifiable], and otherwise validates the claims and
    the signature with the key. *)
Definition ParseWithClaims (bearer : string)
    (keyFunc : Token -> M (option PublicKey * option error))
  : M (option Token * option jwt_error) :=
  match jwt_ParseUnverified bearer with
  | inr err => ret (None, Some err)
  | inl token =>
      res <- keyFunc token ;;
      match snd res with
      | Some e => ret (Some token, Some (ValidationError ValidationErrorUnverifiable e))
      | None =>
          let flags := jwt_Validate token (fst res) in
          if flags =? 0 then ret (Some token, None)
          else ret (Some token, Some (ValidationError flags "token is not valid"))
      end
  end.

Definition has_flag (errors flag : Z) : bool := negb (Z.land errors flag =? 0).

(** The message [checkToken] sends for an error of the parser. *)
Definition tokenErrorReason (err : jwt_error) : string :=
  match err with
  | ValidationError errors _ =>
      if has_flag errors ValidationErrorMalformed then "Bearer token is malformed"
      else if has_flag errors ValidationErrorUnverifiable then "Bearer token can't be verified"
      else if has_flag errors ValidationErrorSignatureInvalid
           then "Signature of bearer token isn't valid"
      else if has_flag errors ValidationErrorExpired then "Bearer token is expired"
      else if has_flag errors ValidationErrorIssuedAt
           then "Bearer token was issued in the future"
      else if has_flag errors ValidationErrorNotValidYet then "Bearer token isn't valid yet"
      else "Bearer token isn't valid"
  | OtherError _ => "Bearer token is malformed"
  end.

(** [checkToken] checks if the token is valid: it returns the parsed
    token, the claims and [ok]. *)
Definition checkToken (r : Request) (bearer : string)
  : M (option Token * gmap string JSONValue * bool) :=
  res <- ParseWithClaims bearer selectKey ;;
  let token := fst res in
  let claims := from_option tok_Claims ∅ token in
  match snd res with
  | Some err =>
      sendError r (tokenErrorReason err) [] ;;;
      ret (token, claims, false)
  | None => ret (token, claims, true)
  end.

(** [ContextWithToken] followed by [r.WithContext]. *)
Definition WithToken (r : Request) (token : option Token) : Request :=
  {| URL_Path := URL_Path r; Header := Header r; ctx_token := token |}.

(** [ServeHTTP] is the implementation of the HTTP handler interface. *)
Definition ServeHTTP (r : Request) : M unit :=
  public <- gets publicPaths ;;
  if existsb (fun expr => MatchString expr (URL_Path r)) public then
    emit (ServeNext r)
  else
    let header := Header_Get (Header r) "Authorization" in
    if String.eqb header EmptyString then
      sendError r "Request doesn't contain the 'Authorization' header" []
    else
      let matches := bearerRE_FindStringSubmatch header in
      if negb (length matches =? 3)%nat then
        sendError r "Authorization header '%s' is malformed" [header]
      else
        let typ := nth 1 matches EmptyString in
        let bearer := nth 2 matches EmptyString in
        if negb (EqualFold typ "Bearer") then
          sendError r "Authentication type '%s' isn't supported" [typ]
        else
          res <- checkToken r bearer ;;
          let '(token, claims, ok) := res in
          if negb ok then ret tt
          else
            ok <- checkClaims r claims ;;
            if negb ok then ret tt
            else
              ok <- checkACL r claims ;;
              if negb ok then ret tt
              else emit (ServeNext (WithToken r token)).

End Handle.

(** ** A concrete environment

    One machine on which the statements below are run: a keys file and an
    ACL file on disk, a keys URL that answers, and simple stand-ins for the
    libraries. *)
Module Fixture.

(** Patterns of the form [^text] match the strings that start with
    [text]; any other pattern matches the strings equal to it; a pattern
    that starts with an opening parenthesis does not compile. *)
Definition compile (expr : string) : result string :=
  match expr with
  | String "(" _ => Err "missing closing )"
  | _ => Ok expr
  end.

Definition matches (re s : string) : bool :=
  match re with
  | String "^" lit => String.prefix lit s
  | _ => String.eqb re s
  end.

(** Upper case of ASCII text. *)
Definition upper (c : ascii) : ascii :=
  let n := nat_of_ascii c in
  if ((97 <=? n) && (n <=? 122))%nat then ascii_of_nat (n - 32) else c.

Fixpoint ToUpper (s : string) : string :=
  match s with
  | EmptyString => EmptyString
  | String c s' => String (upper c) (ToUpper s')
  end.

Definition is_alnum (c : ascii) : bool :=
  let n := nat_of_ascii c in
  ((48 <=? n) && (n <=? 57) || (65 <=? n) && (n <=? 90) || (97 <=? n) && (n <=? 122))%nat.

Definition is_space (c : ascii) : bool :=
  let n := nat_of_ascii c in
  ((n =? 32) || (n =? 9) || (n =? 10) || (n =? 12) || (n =? 13))%nat.

Fixpoint skip_spaces (s : string) : string :=
  match s with
  | String c s' => if is_space c then skip_spaces s' else s
  | EmptyString => s
  end.

Fixpoint no_newline (s : string) : bool :=
  match s with
  | String c s' => negb (Ascii.eqb c "010") && no_newline s'
  | EmptyString => true
  end.

(** Submatches of a header made of letters and digits, white space and a
    credential on one line. *)
Fixpoint submatch (header s scheme : string) : list string :=
  match s with
  | EmptyString => []
  | String c s' =>
      if is_alnum c then submatch header s' (String c scheme)
      else if is_space c && negb (String.eqb scheme EmptyString) then
        let credential := skip_spaces s' in
        if no_newline credential
        then [header; String.rev scheme; credential]
        else []
      else []
  end.

Fixpoint scheme_of (s acc : string) : string :=
  match s with
  | EmptyString => EmptyString
  | String c s' =>
      if Ascii.eqb c ":" then String.rev acc
      else if is_alnum c then scheme_of s' (String (lower c) acc)
      else EmptyString
  end.

Definition parse_url (addr : string) : result URL :=
  match addr with
  | String ":" _ => Err "missing protocol scheme"
  | _ => Ok {| Scheme := scheme_of addr EmptyString |}
  end.

Definition key1 : keyData :=
  {| Kid := "k1"; Kty := "RSA"; Alg := "RS256"; Use := "sig";
     key_N := "AQAB"; key_E := "AQAB" |}.

(** A record with every field but the modulus. *)
Definition key_no_n : keyData :=
  {| Kid := "k2"; Kty := "RSA"; Alg := "RS256"; Use := "sig";
     key_N := EmptyString; key_E := "AQAB" |}.

Definition token1 : Token :=
  {| tok_Header := {[ "kid" := JString "k1" ]};
     tok_Claims := {[ "typ" := JString "Bearer" ]} |}.

#[export] Instance env : GoEnv := {|
  Regexp := string;
  regexp_Compile := compile;
  MatchString := matches;
  bearerRE_FindStringSubmatch := fun header => submatch header header EmptyString;
  strings_ToUpper := ToUpper;
  fmt_v := fmt_T;
  os_Stat := fun file =>
    if String.eqb file "/etc/keys.json" then Ok {| IsRegular := true |}
    else if String.eqb file "/etc" then Ok {| IsRegular := false |}
    else Err "no such file or directory";
  os_Open := fun file =>
    if String.eqb file "/etc/keys.json" then Ok {| ReadAll := Ok "keys" |}
    else Err "no such file or directory";
  url_Parse := parse_url;
  ioutil_ReadFile := fun file =>
    if String.eqb file "/etc/acl.yml" then Ok "acl"
    else Err "no such file or directory";
  yaml_Unmarshal := fun data =>
    if String.eqb data "acl"
    then Ok [ {| Claim := "email"; Pattern := "^a@example.com" |} ]
    else Err "yaml: not a list";
  json_Unmarshal := fun data =>
    if String.eqb data "keys" then Ok {| Keys := [key_no_n; key1] |}
    else Err "unexpected end of JSON input";
  http_NewRequest := fun _ => None;
  http_Do := fun _ addr =>
    if String.eqb addr "https://sso.example.com/certs"
    then Ok {| Body := {| ReadAll := Ok "keys" |}; Body_Close := None |}
    else Err "connection refused";
  jwt_ParseUnverified := fun bearer =>
    if String.eqb bearer "token1" then inl token1
    else inr (ValidationError ValidationErrorMalformed "token contains an invalid number of segments");
  jwt_Validate := fun _ key => if key is Some _ then 0 else ValidationErrorSignatureInvalid;
  clock := fun n => 63800000000000000000 + Z.of_nat n;
|}.

Definition lg : sdk_Logger := {| DebugEnabled := false |}.

Definition handler : Handler :=
  {| logger := lg;
     publicPaths := ["^/public"];
     keysFiles := ["/missing.json"; "/etc/keys.json"];
     keysURLs := ["https://down.example.com/certs"];
     keysClient := {| RootCAs := None; InsecureSkipVerify := false |};
     keys := ∅;
     lastKeyReload := 0;
     aclItems := {[ "email" := "^a@example.com" ]};
     next := handlerRef 0 |}.

Definition st0 : St := {| hnd := handler; ticks := 0; trace := [] |}.

Definition request (path : string) (authorization : list string) : Request :=
  {| URL_Path := path;
     Header := {[ "Authorization" := authorization ]};
     ctx_token := None |}.

(** A builder with a keys URL that is not HTTPS:
    [NewHandler().Logger(lg).Next(next).Public("^/public").KeysURL("http://example.com/keys")]. *)
Definition insecure_builder : HandlerBuilder :=
  KeysURL "http://example.com/keys"
    (Public "^/public" (Next (Some (handlerRef 0)) (Logger (Some lg) NewHandler))).

End Fixture.


(** ** Vocabulary of the statements *)

(** The state after a run that only added the events [evs]: same handler,
    same clock. *)
Definition appended `{GoEnv} (st : St) (evs : list Event) : St :=
  {| hnd := hnd st; ticks := ticks st; trace := trace st ++ evs |}.

(** The state after a run that stored keys and added the events [evs]:
    the key store is [ks], the rest of the handler and the clock are the
    same. *)
Definition stepped `{GoEnv} (st : St) (ks : gmap string PublicKey) (evs : list Event) : St :=
  {| hnd := with_keys (hnd st) ks; ticks := ticks st; trace := trace st ++ evs |}.

(** The events of loading keys: lines of the log and keys stored. *)
Definition loader_event (e : Event) : Prop :=
  match e with
  | Log _ _ | KeysStore _ _ => True
  | _ => False
  end.

(** The events of resolving a key: those of loading keys, and reads of
    the key store. *)
Definition key_event (e : Event) : Prop :=
  match e with
  | Log _ _ | KeysStore _ _ | KeysLoad _ => True
  | _ => False
  end.

(** A text between double quotes. *)
Definition quoted (s : string) : string :=
  String "034" (s +:+ String "034" EmptyString).

(** The header [WWW-Authenticate] and the body of the error response for
    a request to [path]: the identifier is the string 401; when the path
    split at "/" has at least four segments, the link and the code are made
    of the segments after the first one and the realm is
    [service/version]; with fewer segments there is no link, no code and
    the realm is empty. *)
Definition error_response `{GoEnv} (path reason hdr : string) (body : Error) : Prop :=
  err_id body = Some "401"
  /\ err_reason body = Some reason
  /\ (forall s0 prefix service version rest,
        Split path "/" = s0 :: prefix :: service :: version :: rest ->
        err_href body
          = Some ("/" +:+ prefix +:+ "/" +:+ service +:+ "/" +:+ version +:+ "/errors/401")
        /\ err_code body = Some (strings_ToUpper (ReplaceAll service "_" "-") +:+ "-401")
        /\ hdr = "Bearer realm=" +:+ quoted (service +:+ "/" +:+ version))
  /\ ((length (Split path "/") < 4)%nat ->
        err_href body = None /\ err_code body = None
        /\ hdr = "Bearer realm=" +:+ quoted EmptyString).

(** From [st] to [st'] the only thing done is to send one error response,
    with identifier 401 and the given reason: nothing is passed to the next
    handler, and the handler and the clock are as they were. *)
Definition sends_401 `{GoEnv} (reason : string) (st st' : St) : Prop :=
  exists hdr body,
    st' = appended st [SetHeader "WWW-Authenticate" hdr; SendError (Some body)]
    /\ err_id body = Some "401"
    /\ err_reason body = Some reason.

(** The dynamic type of a value. *)
Definition is_string (v : JSONValue) : bool :=
  match v with JString _ => true | _ => false end.

Definition is_number (v : JSONValue) : bool :=
  match v with JNumber _ => true | _ => false end.

(** The claim [typ] is a string equal to "Bearer" up to letter case. *)
Definition typ_ok (claims : gmap string JSONValue) : Prop :=
  exists typ, claims !! "typ" = Some (JString typ) /\ EqualFold typ "Bearer" = true.

(** The claim [name] is a JSON number. *)
Definition time_ok (claims : gmap string JSONValue) (name : string) : Prop :=
  exists seconds, claims !! name = Some (JNumber seconds).

(** A keys file that [os.Stat] does not find, or that is not a regular
    file. *)
Definition bad_keys_file `{GoEnv} (file : string) : Prop :=
  forall info, os_Stat file = Ok info -> IsRegular info = false.

(** The ACL items of a file: what [ioutil.ReadFile] and [yaml.Unmarshal]
    give for it. *)
Definition ACL_items `{GoEnv} (file : string) (listData : list aclItem) : Prop :=
  exists yamlData,
    ioutil_ReadFile file = Ok yamlData /\ yaml_Unmarshal yamlData = Ok listData.

(** An ACL file that cannot be read or decoded, or that has a pattern that
    does not compile. *)
Definition bad_ACL_file `{GoEnv} (file : string) : Prop :=
  (exists e, ioutil_ReadFile file = Err e)
  \/ (exists yamlData e,
        ioutil_ReadFile file = Ok yamlData /\ yaml_Unmarshal yamlData = Err e)
  \/ (exists listData it e,
        ACL_items file listData /\ it ∈ listData /\ regexp_Compile (Pattern it) = Err e).

(** The key that the loop of [readKeys] stores for a record, if any: the
    record passes the tests on its fields and [parseKey] accepts it. *)
Definition accept (kd : keyData) : option PublicKey :=
  if String.eqb (Kid kd) EmptyString then None
  else if String.eqb (Kty kd) EmptyString then None
  else if String.eqb (Alg kd) EmptyString then None
  else if String.eqb (key_E kd) EmptyString then None
  else match parseKey kd with
       | Ok key => Some key
       | Err _ => None
       end.

(** The key store after the loop of [readKeys] has handled a record. *)
Definition store_record (ks : gmap string PublicKey) (kd : keyData)
  : gmap string PublicKey :=
  match accept kd with
  | Some key => <[Kid kd := key]> ks
  | None => ks
  end.

(** The key records that [readKeys] finds in a reader, that [loadKeysFile]
    finds in a file and that [loadKeysURL] finds at a URL: none when the
    source cannot be opened, read or decoded. *)
Definition reader_records `{GoEnv} (reader : Reader) : list keyData :=
  match ReadAll reader with
  | Ok jsonData =>
      match json_Unmarshal jsonData with
      | Ok setData => Keys setData
      | Err _ => []
      end
  | Err _ => []
  end.

Definition file_records `{GoEnv} (file : string) : list keyData :=
  match os_Open file with
  | Ok reader => reader_records reader
  | Err _ => []
  end.

Definition URL_records `{GoEnv} (client : http_Client) (addr : string) : list keyData :=
  match http_NewRequest addr with
  | Some _ => []
  | None =>
      match http_Do client addr with
      | Ok response => reader_records (Body response)
      | Err _ => []
      end
  end.

(** The records of all the sources of a handler, in the order in which
    [loadKeys] goes through them: the files, then the URLs. *)
Definition source_records `{GoEnv} (h : Handler) : list keyData :=
  concat (map file_records (keysFiles h))
  ++ concat (map (URL_records (keysClient h)) (keysURLs h)).

(** The error of [selectKey] for a key identifier without key. *)
Definition no_key (kid : string) : option error :=
  Some ("there is no key for key identifier '" +:+ kid +:+ "'").

(** The key store after [loadKeys]. *)
Definition loaded_keys `{GoEnv} (h : Handler) : gmap string PublicKey :=
  fold_left store_record (source_records h) (keys h).

(** The handler [h'] has the configuration of [h], and at least its keys:
    only the key store and the time of the last reload may differ. *)
Definition same_config `{GoEnv} (h h' : Handler) : Prop :=
  logger h' = logger h /\ publicPaths h' = publicPaths h
  /\ keysFiles h' = keysFiles h /\ keysURLs h' = keysURLs h
  /\ keysClient h' = keysClient h /\ aclItems h' = aclItems h /\ next h' = next h
  /\ forall kid, is_Some (keys h !! kid) -> is_Some (keys h' !! kid).

(** The state [st'] comes after [st]: same configuration, no key lost, a
    clock that has not gone back, a trace that continues the trace. *)
Definition follows `{GoEnv} (st st' : St) : Prop :=
  same_config (hnd st) (hnd st')
  /\ (ticks st <= ticks st')%nat
  /\ exists evs, trace st' = trace st ++ evs.

(** A request that reaches the check of the token with the credential
    [bearer]: its path is not public and its [Authorization] header gives
    the three submatches, with the scheme "Bearer" in any letter case. *)
Definition bearer_request `{GoEnv} (h : Handler) (r : Request) (bearer : string) : Prop :=
  (forall expr, expr ∈ publicPaths h -> MatchString expr (URL_Path r) = false)
  /\ Header_Get (Header r) "Authorization" <> EmptyString
  /\ exists m0 typ,
       bearerRE_FindStringSubmatch (Header_Get (Header r) "Authorization")
       = [m0; typ; bearer]
       /\ EqualFold typ "Bearer" = true.

(** The ACL of the handler grants access to the claims: it is empty, or it
    has an entry whose pattern matches the string value of its claim. *)
Definition ACL_grants `{GoEnv} (h : Handler) (claims : gmap string JSONValue) : Prop :=
  aclItems h = ∅
  \/ exists claim pattern text,
       aclItems h !! claim = Some pattern
       /\ claims !! claim = Some (JString text)
       /\ MatchString pattern text = true.

(** ** A generated builder: [RegistryBuilder] of package [accountsmgmt/v1]

    A pointer attribute is an optional value.  The type [Registry] of the
    object is declared in another file of the package; its fields are those
    that [Build] assigns. *)
Module Registry.

Record RegistryBuilder : Type := {
  b_id : option string;
  b_href : option string;
  b_link : bool;
  b_name : option string;
  b_url : option string;
  b_teamName : option string;
  b_orgName : option string;
  b_type_ : option string;
  b_cloudAlias : option bool;
}.

Record Registry : Type := {
  id : option string;
  href : option string;
  link : bool;
  name : option string;
  url : option string;
  teamName : option string;
  orgName : option string;
  type_ : option string;
  cloudAlias : option bool;
}.

Definition NewRegistry : RegistryBuilder :=
  {| b_id := None; b_href := None; b_link := false; b_name := None; b_url := None;
     b_teamName := None; b_orgName := None; b_type_ := None; b_cloudAlias := None |}.

Definition ID (value : string) (b : RegistryBuilder) : RegistryBuilder :=
  {| b_id := Some value; b_href := b_href b; b_link := b_link b; b_name := b_name b;
     b_url := b_url b; b_teamName := b_teamName b; b_orgName := b_orgName b;
     b_type_ := b_type_ b; b_cloudAlias := b_cloudAlias b |}.

Definition HREF (value : string) (b : RegistryBuilder) : RegistryBuilder :=
  {| b_id := b_id b; b_href := Some value; b_link := b_link b; b_name := b_name b;
     b_url := b_url b; b_teamName := b_teamName b; b_orgName := b_orgName b;
     b_type_ := b_type_ b; b_cloudAlias := b_cloudAlias b |}.

Definition Link (value : bool) (b : RegistryBuilder) : RegistryBuilder :=
  {| b_id := b_id b; b_href := b_href b; b_link := value; b_name := b_name b;
     b_url := b_url b; b_teamName := b_teamName b; b_orgName := b_orgName b;
     b_type_ := b_type_ b; b_cloudAlias := b_cloudAlias b |}.

Definition Name (value : string) (b : RegistryBuilder) : RegistryBuilder :=
  {| b_id := b_id b; b_href := b_href b; b_link := b_link b; b_name := Some value;
     b_url := b_url b; b_teamName := b_teamName b; b_orgName := b_orgName b;
     b_type_ := b_type_ b; b_cloudAlias := b_cloudAlias b |}.

Definition URL (value : string) (b : RegistryBuilder) : RegistryBuilder :=
  {| b_id := b_id b; b_href := b_href b; b_link := b_link b; b_name := b_name b;
     b_url := Some value; b_teamName := b_teamName b; b_orgName := b_orgName b;
     b_type_ := b_type_ b; b_cloudAlias := b_cloudAlias b |}.

Definition TeamName (value : string) (b : RegistryBuilder) : RegistryBuilder :=
  {| b_id := b_id b; b_href := b_href b; b_link := b_link b; b_name := b_name b;
     b_url := b_url b; b_teamName := Some value; b_orgName := b_orgName b;
     b_type_ := b_type_ b; b_cloudAlias := b_cloudAlias b |}.

Definition OrgName (value : string) (b : RegistryBuilder) : RegistryBuilder :=
  {| b_id := b_id b; b_href := b_href b; b_link := b_link b; b_name := b_name b;
     b_url := b_url b; b_teamName := b_teamName b; b_orgName := Some value;
     b_type_ := b_type_ b; b_cloudAlias := b_cloudAlias b |}.

(** The setter [Type] of the source ([Type] is a reserved word here). *)
Definition Type_ (value : string) (b : RegistryBuilder) : RegistryBuilder :=
  {| b_id := b_id b; b_href := b_href b; b_link := b_link b; b_name := b_name b;
     b_url := b_url b; b_teamName := b_teamName b; b_orgName := b_orgName b;
     b_type_ := Some value; b_cloudAlias := b_cloudAlias b |}.

Definition CloudAlias (value : bool) (b : RegistryBuilder) : RegistryBuilder :=
  {| b_id := b_id b; b_href := b_href b; b_link := b_link b; b_name := b_name b;
     b_url := b_url b; b_teamName := b_teamName b; b_orgName := b_orgName b;
     b_type_ := b_type_ b; b_cloudAlias := Some value |}.

(** [new(Registry)]. *)
Definition new : Registry :=
  {| id := None; href := None; link := false; name := None; url := None;
     teamName := None; orgName := None; type_ := None; cloudAlias := None |}.

(** [Build]: [id], [href] and [link] are copied; the other attributes are
    assigned when they are not nil in the builder. *)
Definition Build (b : RegistryBuilder) : option Registry * option error :=
  let object := new in
  let object :=
    {| id := b_id b; href := b_href b; link := b_link b; name := name object;
       url := url object; teamName := teamName object; orgName := orgName object;
       type_ := type_ object; cloudAlias := cloudAlias object |} in
  let object :=
    match b_name b with
    | Some _ =>
        {| id := id object; href := href object; link := link object; name := b_name b;
           url := url object; teamName := teamName object; orgName := orgName object;
           type_ := type_ object; cloudAlias := cloudAlias object |}
    | None => object
    end in
  let object :=
    match b_url b with
    | Some _ =>
        {| id := id object; href := href object; link := link object; name := name object;
           url := b_url b; teamName := teamName object; orgName := orgName object;
           type_ := type_ object; cloudAlias := cloudAlias object |}
    | None => object
    end in
  let object :=
    match b_teamName b with
    | Some _ =>
        {| id := id object; href := href object; link := link object; name := name object;
           url := url object; teamName := b_teamName b; orgName := orgName object;
           type_ := type_ object; cloudAlias := cloudAlias object |}
    | None => object
    end in
  let object :=
    match b_orgName b with
    | Some _ =>
        {| id := id object; href := href object; link := link object; name := name object;
           url := url object; teamName := teamName object; orgName := b_orgName b;
           type_ := type_ object; cloudAlias := cloudAlias object |}
    | None => object
    end in
  let object :=
    match b_type_ b with
    | Some _ =>
        {| id := id object; href := href object; link := link object; name := name object;
           url := url object; teamName := teamName object; orgName := orgName object;
           type_ := b_type_ b; cloudAlias := cloudAlias object |}
    | None => object
    end in
  let object :=
    match b_cloudAlias b with
    | Some _ =>
        {| id := id object; href := href object; link := link object; name := name object;
           url := url object; teamName := teamName object; orgName := orgName object;
           type_ := type_ object; cloudAlias := b_cloudAlias b |}
    | None => object
    end in
  (Some object, None).

(** A call of one of the setters, and a sequence of calls on a builder. *)
Inductive Call : Type :=
| CallID (value : string)
| CallHREF (value : string)
| CallLink (value : bool)
| CallName (value : string)
| CallURL (value : string)
| CallTeamName (value : string)
| CallOrgName (value : string)
| CallType (value : string)
| CallCloudAlias (value : bool).

Definition call (b : RegistryBuilder) (c : Call) : RegistryBuilder :=
  match c with
  | CallID v => ID v b
  | CallHREF v => HREF v b
  | CallLink v => Link v b
  | CallName v => Name v b
  | CallURL v => URL v b
  | CallTeamName v => TeamName v b
  | CallOrgName v => OrgName v b
  | CallType v => Type_ v b
  | CallCloudAlias v => CloudAlias v b
  end.

(** The value of the last call, in a sequence of calls, of the setter that
    [pick] selects. *)
Definition last_value {A} (pick : Call -> option A) (calls : list Call) : option A :=
  last (omap pick calls).

End Registry.

(** ** A second concrete environment: the service at work

    The machine of [Fixture] some time later: the handler has loaded the
    key "k1", the token parser knows four tokens, the validation refuses
    the token whose claim [exp] is zero, and the body of the response of
    one of the keys URLs cannot be closed. *)
Module Service.

(** The claims of the tokens: issued at 1600000000 seconds, with the
    expiry and the address given. *)
Definition claims_of (exp : Z) (email : string) : gmap string JSONValue :=
  {[ "typ" := JString "bearer"; "iat" := JNumber 4744497694393761792;
     "exp" := JNumber exp; "email" := JString email ]}.

(** A token for the key "k1" that expires one hour after it was issued,
    granted by the ACL. *)
Definition token_granted : Token :=
  {| tok_Header := {[ "kid" := JString "k1" ]};
     tok_Claims := claims_of 4744497709493256192 "a@example.com" |}.

(** A token for the key "k1" that no entry of the ACL matches. *)
Definition token_stranger : Token :=
  {| tok_Header := {[ "kid" := JString "k1" ]};
     tok_Claims := claims_of 4744497709493256192 "b@example.org" |}.

(** A token for the key "k1" whose claim [exp] is zero. *)
Definition token_old : Token :=
  {| tok_Header := {[ "kid" := JString "k1" ]};
     tok_Claims := claims_of 0 "a@example.com" |}.

(** Two tokens for keys that no source publishes. *)
Definition token_unknown : Token :=
  {| tok_Header := {[ "kid" := JString "k9" ]};
     tok_Claims := claims_of 4744497709493256192 "a@example.com" |}.

Definition token_unknown' : Token :=
  {| tok_Header := {[ "kid" := JString "k8" ]};
     tok_Claims := claims_of 4744497709493256192 "a@example.com" |}.

Definition env : GoEnv := {|
  Regexp := string;
  regexp_Compile := Fixture.compile;
  MatchString := Fixture.matches;
  bearerRE_FindStringSubmatch := fun header => Fixture.submatch header header EmptyString;
  strings_ToUpper := Fixture.ToUpper;
  fmt_v := fmt_T;
  os_Stat := fun file =>
    if String.eqb file "/etc/keys.json" then Ok {| IsRegular := true |}
    else if String.eqb file "/etc" then Ok {| IsRegular := false |}
    else Err "no such file or directory";
  os_Open := fun file =>
    if String.eqb file "/etc/keys.json" then Ok {| ReadAll := Ok "keys" |}
    else Err "no such file or directory";
  url_Parse := Fixture.parse_url;
  ioutil_ReadFile := fun file =>
    if String.eqb file "/etc/acl.yml" then Ok "acl"
    else if String.eqb file "/etc/acl-bad.yml" then Ok "acl-bad"
    else Err "no such file or directory";
  yaml_Unmarshal := fun data =>
    if String.eqb data "acl"
    then Ok [ {| Claim := "email"; Pattern := "^b@example.com" |};
              {| Claim := "sub"; Pattern := "^f:" |};
              {| Claim := "email"; Pattern := "^a@example.com" |} ]
    else if String.eqb data "acl-bad"
    then Ok [ {| Claim := "email"; Pattern := "(a@example.com" |} ]
    else Err "yaml: not a list";
  json_Unmarshal := fun data =>
    if String.eqb data "keys" then Ok {| Keys := [Fixture.key_no_n; Fixture.key1] |}
    else Err "unexpected end of JSON input";
  http_NewRequest := fun _ => None;
  http_Do := fun _ addr =>
    if String.eqb addr "https://sso.example.com/certs"
    then Ok {| Body := {| ReadAll := Ok "keys" |}; Body_Close := Some "connection reset" |}
    else Err "connection refused";
  jwt_ParseUnverified := fun bearer =>
    if String.eqb bearer "granted" then inl token_granted
    else if String.eqb bearer "stranger" then inl token_stranger
    else if String.eqb bearer "old" then inl token_old
    else if String.eqb bearer "unknown" then inl token_unknown
    else inr (ValidationError ValidationErrorMalformed
                "token contains an invalid number of segments");
  jwt_Validate := fun token key =>
    match key with
    | None => ValidationErrorSignatureInvalid
    | Some _ =>
        match tok_Claims token !! "exp" with
        | Some (JNumber 0) => Z.lor ValidationErrorExpired ValidationErrorIssuedAt
        | _ => 0
        end
    end;
  clock := fun n => 63800000000000000000 + Z.of_nat n;
|}.

#[local] Existing Instance env.

(** The handler after the key "k1" has been loaded. *)
Definition handler : Handler :=
  {| logger := Fixture.lg;
     publicPaths := ["^/public"];
     keysFiles := ["/etc/keys.json"];
     keysURLs := ["https://sso.example.com/certs"];
     keysClient := {| RootCAs := None; InsecureSkipVerify := false |};
     keys := {[ "k1" := {| N := 65537; E := 65537 |} ]};
     lastKeyReload := 63800000000000000000;
     aclItems := {[ "email" := "^a@example.com" ]};
     next := handlerRef 0 |}.

Definition st : St := {| hnd := handler; ticks := 7; trace := [] |}.

(** The same handler before any key is loaded, as [Build] returns it. *)
Definition new_handler : Handler :=
  {| logger := Fixture.lg;
     publicPaths := ["^/public"];
     keysFiles := ["/etc/keys.json"];
     keysURLs := ["https://sso.example.com/certs"];
     keysClient := {| RootCAs := None; InsecureSkipVerify := false |};
     keys := ∅;
     lastKeyReload := 0;
     aclItems := {[ "email" := "^a@example.com"; "sub" := "^f:" ]};
     next := handlerRef 0 |}.

Definition new_st : St := {| hnd := new_handler; ticks := 0; trace := [] |}.

(** The builder of the service:
    [NewHandler().Logger(lg).Next(next).Public("^/public").KeysFile("/etc/keys.json").
     KeysURL("https://sso.example.com/certs").ACLFile("/etc/acl.yml")]. *)
Definition builder : HandlerBuilder :=
  ACLFile "/etc/acl.yml"
    (KeysURL "https://sso.example.com/certs"
       (KeysFile "/etc/keys.json"
          (Public "^/public"
             (Next (Some (handlerRef 0)) (Logger (Some Fixture.lg) NewHandler))))).

(** The builder of the service without ACL file. *)
Definition open_builder : HandlerBuilder :=
  KeysURL "https://sso.example.com/certs"
    (KeysFile "/etc/keys.json"
       (Public "^/public"
          (Next (Some (handlerRef 0)) (Logger (Some Fixture.lg) NewHandler)))).

Definition open_handler : Handler :=
  {| logger := Fixture.lg;
     publicPaths := ["^/public"];
     keysFiles := ["/etc/keys.json"];
     keysURLs := ["https://sso.example.com/certs"];
     keysClient := {| RootCAs := None; InsecureSkipVerify := false |};
     keys := ∅;
     lastKeyReload := 0;
     aclItems := ∅;
     next := handlerRef 0 |}.

Definition open_st : St := {| hnd := open_handler; ticks := 0; trace := [] |}.

(** A request for the clusters of the service with a bearer token. *)
Definition request (bearer : string) : Request :=
  Fixture.request "/api/clusters_mgmt/v1/clusters" ["Bearer " +:+ bearer].

End Service.

(** Closes the goals that say that the events of a list are events of
    loading keys. *)
Ltac loader_events :=
  repeat first [assumption | exact Logic.I | apply Forall_app_2 | constructor].

(** * Properties *)

Section Properties.
Context `{GoEnv}.

Lemma append_empty_r (s : string) : s +:+ EmptyString = s.
Proof.
  induction s as [|c s IH]; [reflexivity|].
  change (String c (s +:+ EmptyString) = String c s). by rewrite IH.
Qed.

Lemma appended_nil st : appended st [] = st.
Proof. destruct st; unfold appended; cbn. by rewrite app_nil_r. Qed.

Lemma appended_app st evs evs' :
  appended (appended st evs) evs' = appended st (evs ++ evs').
Proof. unfold appended; cbn. by rewrite app_assoc. Qed.

Lemma emit_appended e st : emit e st = (tt, appended st [e]).
Proof. reflexivity. Qed.

Lemma logf_appended level format args st :
  logf level format args st = (tt, appended st [Log level (Sprintf format args)]).
Proof. reflexivity. Qed.

Lemma sendError_shape (r : Request) (format : string) (args : list string) (st : St) :
  exists hdr body,
    sendError r format args st
      = (tt, appended st [SetHeader "WWW-Authenticate" hdr; SendError (Some body)])
    /\ error_response (URL_Path r) (Sprintf format args) hdr body.
Proof.
  unfold sendError, error_response.
  destruct (Split (URL_Path r) "/") as [|s0 [|prefix [|service [|version rest]]]] eqn:Hsplit.
  all: cbn -[Sprintf]; unfold bind, ret, emit, appended; cbn -[Sprintf].
  all: rewrite <- app_assoc; cbn -[Sprintf].
  all: eexists _, _; split; [reflexivity|].
  all: split; [reflexivity|]; split; [reflexivity|]; split.
  all: try (intros ? ? ? ? ? [=]; fail).
  all: try (intros _; repeat split; reflexivity).
  all: try (intros; cbn in *; lia).
  intros ? ? ? ? ? [= <- <- <- <- <-].
  cbn; rewrite !append_empty_r. repeat split; reflexivity.
Qed.

Lemma sendError_sends_401 (r : Request) (format : string) (args : list string) (st : St) :
  fst (sendError r format args st) = tt
  /\ sends_401 (Sprintf format args) st (snd (sendError r format args st)).
Proof.
  split; [by destruct (fst _)|].
  unfold sendError, sends_401.
  destruct (4 <=? length (Split (URL_Path r) "/"))%nat.
  all: cbn -[Sprintf]; unfold bind, ret, emit, appended; cbn -[Sprintf].
  all: rewrite <- app_assoc; cbn -[Sprintf].
  all: eexists _, _; split; [reflexivity|]; split; reflexivity.
Qed.

Lemma sends_401_no_next reason st st' :
  sends_401 reason st st' ->
  hnd st' = hnd st /\ ticks st' = ticks st
  /\ exists evs, trace st' = trace st ++ evs /\ forall r', ServeNext r' ∉ evs.
Proof.
  intros (hdr & body & -> & _ & _). cbn. repeat split.
  eexists; split; [reflexivity|].
  intros r' Hin. repeat (apply elem_of_cons in Hin as [Hin|Hin]; [discriminate|]).
  by apply elem_of_nil in Hin.
Qed.

Lemma existsb_public_true (public : list Regexp) (path : string) :
  existsb (fun expr => MatchString expr path) public = true
  <-> exists expr, expr ∈ public /\ MatchString expr path = true.
Proof.
  rewrite existsb_exists. split; intros (x & Hx & Hm); exists x; split; auto;
    by apply list_elem_of_In.
Qed.

Lemma existsb_public_false (public : list Regexp) (path : string) :
  (forall expr, expr ∈ public -> MatchString expr path = false) ->
  existsb (fun expr => MatchString expr path) public = false.
Proof.
  intros Hall. destruct (existsb _ public) eqn:Hex; [|reflexivity].
  apply existsb_public_true in Hex as (x & Hx & Hm). rewrite (Hall x Hx) in Hm. discriminate.
Qed.

(** C7. When the path of the request matches one of the public patterns,
    the only thing [ServeHTTP] does is to call the next handler with the
    request as it came: nothing is read from the headers, the key store and
    the clock are not touched, no token is attached and no response is
    sent, whatever the headers of the request are. *)
Theorem ServeHTTP_public_path (r : Request) (st : St) :
  (exists expr, expr ∈ publicPaths (hnd st) /\ MatchString expr (URL_Path r) = true) ->
  ServeHTTP r st = (tt, appended st [ServeNext r]).
Proof.
  intros Hpub. apply existsb_public_true in Hpub.
  unfold ServeHTTP, bind, gets. by rewrite Hpub.
Qed.

(** C6. For a request whose path is not public: when [Header.Get] finds
    no [Authorization] header (it gives the empty string), the handler
    only sends the 401 response saying that the request does not contain
    the header; when the header is there and the regular expression for
    scheme, white space and credential does not give its three
    submatches, the 401 response says that the header is malformed; when
    the scheme is not "Bearer" in any letter case, the 401 response says
    that the authentication type is not supported.  In the three cases
    the next handler is not called. *)
Theorem ServeHTTP_rejects_bad_header (r : Request) (st : St) :
  (forall expr, expr ∈ publicPaths (hnd st) -> MatchString expr (URL_Path r) = false) ->
  let header := Header_Get (Header r) "Authorization" in
  let st' := snd (ServeHTTP r st) in
  (header = EmptyString ->
     sends_401 "Request doesn't contain the 'Authorization' header" st st')
  /\ (header <> EmptyString ->
      length (bearerRE_FindStringSubmatch header) <> 3%nat ->
      sends_401 ("Authorization header '" +:+ header +:+ "' is malformed") st st')
  /\ (forall m0 typ bearer,
        header <> EmptyString ->
        bearerRE_FindStringSubmatch header = [m0; typ; bearer] ->
        EqualFold typ "Bearer" = false ->
        sends_401 ("Authentication type '" +:+ typ +:+ "' isn't supported") st st').
Proof.
  intros Hpriv header st'.
  apply existsb_public_false in Hpriv.
  subst st'. unfold ServeHTTP, bind, gets. rewrite Hpriv. fold header.
  repeat split.
  - intros ->. cbn [String.eqb].
    apply (sendError_sends_401 r "Request doesn't contain the 'Authorization' header" []).
  - intros Hne Hlen.
    apply String.eqb_neq in Hne. rewrite Hne.
    apply Nat.eqb_neq in Hlen. rewrite Hlen. cbn [negb].
    pose proof (sendError_sends_401 r "Authorization header '%s' is malformed" [header] st)
      as [_ Hs].
    exact Hs.
  - intros m0 typ bearer Hne Hm Hfold.
    apply String.eqb_neq in Hne. rewrite Hne, Hm. cbn [length Nat.eqb negb nth].
    rewrite Hfold. cbn [negb].
    pose proof (sendError_sends_401 r "Authentication type '%s' isn't supported" [typ] st)
      as [_ Hs].
    exact Hs.
Qed.

Lemma matchACL_true (items : list (string * Regexp)) (claims : gmap string JSONValue) :
  matchACL items claims = true
  <-> exists claim pattern text,
        (claim, pattern) ∈ items
        /\ claims !! claim = Some (JString text)
        /\ MatchString pattern text = true.
Proof.
  induction items as [|[claim pattern] rest IH]; cbn [matchACL].
  - split; [discriminate|]. intros (? & ? & ? & Hin & _). by apply elem_of_nil in Hin.
  - assert (Hrest : matchACL rest claims = true ->
                    exists c p t, (c, p) ∈ (claim, pattern) :: rest
                                  /\ claims !! c = Some (JString t)
                                  /\ MatchString p t = true).
    { intros (c & p & t & Hin & Hc & Hm)%IH. exists c, p, t. split; [by right|done]. }
    split.
    + destruct (claims !! claim) as [[| | |text| |]|] eqn:Hclaim; try exact Hrest.
      destruct (MatchString pattern text) eqn:Hm; [|exact Hrest].
      intros _. exists claim, pattern, text. split; [by left|done].
    + intros (c & p & t & Hin & Hc & Hm).
      apply elem_of_cons in Hin as [[= -> ->]|Hin].
      * by rewrite Hc, Hm.
      * assert (matchACL rest claims = true) as -> by (apply IH; eauto 6).
        destruct (claims !! claim) as [[| | |text| |]|]; try reflexivity.
        by destruct (MatchString pattern text).
Qed.

(** C4. With an empty ACL, [checkACL] returns true and does nothing.  With
    an ACL that is not empty, it returns true exactly when the ACL has an
    entry whose claim is in the claim set with a string value that the
    pattern of the entry matches, and then does nothing; otherwise it
    returns false after sending the 401 response with the fixed reason
    "Access denied". *)
Theorem checkACL_spec (r : Request) (claims : gmap string JSONValue) (st : St) :
  (aclItems (hnd st) = ∅ -> checkACL r claims st = (true, st))
  /\ (aclItems (hnd st) <> ∅ ->
      (fst (checkACL r claims st) = true
       <-> exists claim pattern text,
             aclItems (hnd st) !! claim = Some pattern
             /\ claims !! claim = Some (JString text)
             /\ MatchString pattern text = true)
      /\ (fst (checkACL r claims st) = true -> snd (checkACL r claims st) = st)
      /\ (fst (checkACL r claims st) = false ->
          sends_401 "Access denied" st (snd (checkACL r claims st)))).
Proof.
  unfold checkACL, bind, gets, ret. split.
  - intros ->. by rewrite map_size_empty.
  - intros Hne.
    assert ((size (aclItems (hnd st)) =? 0)%nat = false) as ->.
    { apply Nat.eqb_neq. by rewrite map_size_empty_iff. }
    assert (Hiff : matchACL (map_to_list (aclItems (hnd st))) claims = true
                   <-> exists claim pattern text,
                         aclItems (hnd st) !! claim = Some pattern
                         /\ claims !! claim = Some (JString text)
                         /\ MatchString pattern text = true).
    { rewrite matchACL_true.
      split; intros (c & p & t & Hin & Hrest); exists c, p, t; split; try done;
        by apply elem_of_map_to_list. }
    destruct (matchACL (map_to_list (aclItems (hnd st))) claims) eqn:Hm.
    + cbn. split; [|done]. split; [intros _; by apply Hiff | done].
    + pose proof (sendError_sends_401 r "Access denied" [] st) as [_ Hs].
      destruct (sendError r "Access denied" [] st) as [[] st1] eqn:Hsend.
      cbn in Hs |- *. split; [|done].
      split; [discriminate|]. intros Hex. apply Hiff in Hex. discriminate.
Qed.

(** The three claim checks compose [checkClaim] with a test of the
    dynamic type; these equations give each of them in one step. *)
Lemma checkStringClaim_eq (r : Request) (claims : gmap string JSONValue) (name : string) st :
  checkStringClaim r claims name st
  = match claims !! name with
    | None =>
        (None, snd (sendError r "Bearer token doesn't contain required claim '%s'" [name] st))
    | Some (JString result) => (Some result, st)
    | Some value =>
        (None, snd (sendError r "Bearer token claim '%s' contains incorrect text value '%v'"
                              [name; fmt_v value] st))
    end.
Proof.
  unfold checkStringClaim, checkClaim, bind, ret.
  destruct (claims !! name) as [[| | | | |]|]; try reflexivity.
  all: by destruct (sendError _ _ _ _).
Qed.

Lemma checkTimeClaim_eq (r : Request) (claims : gmap string JSONValue) (name : string) st :
  checkTimeClaim r claims name st
  = match claims !! name with
    | None =>
        (None, snd (sendError r "Bearer token doesn't contain required claim '%s'" [name] st))
    | Some (JNumber seconds) => (Some (time_Unix (int64_of_float64 seconds)), st)
    | Some value =>
        (None, snd (sendError r "Bearer token claim '%s' contains incorrect time value '%v'"
                              [name; fmt_v value] st))
    end.
Proof.
  unfold checkTimeClaim, checkClaim, bind, ret.
  destruct (claims !! name) as [[| | | | |]|]; try reflexivity.
  all: by destruct (sendError _ _ _ _).
Qed.

Lemma checkClaims_eq (r : Request) (claims : gmap string JSONValue) (st : St) :
  checkClaims r claims st
  = match claims !! "typ" with
    | None =>
        (false, snd (sendError r "Bearer token doesn't contain required claim '%s'" ["typ"] st))
    | Some (JString typ) =>
        if EqualFold typ "Bearer" then
          match claims !! "iat" with
          | None =>
              (false,
               snd (sendError r "Bearer token doesn't contain required claim '%s'" ["iat"] st))
          | Some (JNumber _) =>
              match claims !! "exp" with
              | None =>
                  (false,
                   snd (sendError r "Bearer token doesn't contain required claim '%s'"
                                  ["exp"] st))
              | Some (JNumber _) => (true, st)
              | Some v =>
                  (false,
                   snd (sendError r "Bearer token claim '%s' contains incorrect time value '%v'"
                                  ["exp"; fmt_v v] st))
              end
          | Some v =>
              (false,
               snd (sendError r "Bearer token claim '%s' contains incorrect time value '%v'"
                              ["iat"; fmt_v v] st))
          end
        else (false, snd (sendError r "Bearer token type '%s' isn't supported" [typ] st))
    | Some v =>
        (false,
         snd (sendError r "Bearer token claim '%s' contains incorrect text value '%v'"
                        ["typ"; fmt_v v] st))
    end.
Proof.
  unfold checkClaims, bind, ret. rewrite checkStringClaim_eq.
  destruct (claims !! "typ") as [[| | |typ| |]|]; try reflexivity.
  destruct (EqualFold typ "Bearer"); cbn [negb].
  2: by destruct (sendError _ _ _ _).
  rewrite checkTimeClaim_eq.
  destruct (claims !! "iat") as [[| |iat| | |]|]; try reflexivity.
  rewrite checkTimeClaim_eq.
  destruct (claims !! "exp") as [[| |exp| | |]|]; reflexivity.
Qed.

Lemma sendError_fails (r : Request) (format : string) (args : list string) (st : St) :
  fst (false, snd (sendError r format args st)) = false
  /\ sends_401 (Sprintf format args) st (snd (false, snd (sendError r format args st))).
Proof. split; [reflexivity | exact (proj2 (sendError_sends_401 r format args st))]. Qed.

(** C5. [checkClaims] returns true exactly when the claim set has [typ]
    as a string equal to "Bearer" up to letter case and [iat] and [exp] as
    JSON numbers, and then it sends nothing.  Otherwise it returns false
    after sending one 401 response, for the first of [typ], [iat], [exp]
    that is absent or of the wrong type, with a message that names this
    claim; the claims after it are not checked, so no second response is
    sent for them. *)
Theorem checkClaims_spec (r : Request) (claims : gmap string JSONValue) (st : St) :
  let res := checkClaims r claims st in
  (fst res = true <-> typ_ok claims /\ time_ok claims "iat" /\ time_ok claims "exp")
  /\ (fst res = true -> snd res = st)
  /\ (claims !! "typ" = None ->
      fst res = false
      /\ sends_401 "Bearer token doesn't contain required claim 'typ'" st (snd res))
  /\ (forall v, claims !! "typ" = Some v -> is_string v = false ->
      fst res = false
      /\ sends_401 ("Bearer token claim 'typ' contains incorrect text value '"
                    +:+ fmt_v v +:+ "'") st (snd res))
  /\ (forall typ, claims !! "typ" = Some (JString typ) -> EqualFold typ "Bearer" = false ->
      fst res = false
      /\ sends_401 ("Bearer token type '" +:+ typ +:+ "' isn't supported") st (snd res))
  /\ (typ_ok claims -> claims !! "iat" = None ->
      fst res = false
      /\ sends_401 "Bearer token doesn't contain required claim 'iat'" st (snd res))
  /\ (forall v, typ_ok claims -> claims !! "iat" = Some v -> is_number v = false ->
      fst res = false
      /\ sends_401 ("Bearer token claim 'iat' contains incorrect time value '"
                    +:+ fmt_v v +:+ "'") st (snd res))
  /\ (typ_ok claims -> time_ok claims "iat" -> claims !! "exp" = None ->
      fst res = false
      /\ sends_401 "Bearer token doesn't contain required claim 'exp'" st (snd res))
  /\ (forall v, typ_ok claims -> time_ok claims "iat" ->
      claims !! "exp" = Some v -> is_number v = false ->
      fst res = false
      /\ sends_401 ("Bearer token claim 'exp' contains incorrect time value '"
                    +:+ fmt_v v +:+ "'") st (snd res)).
Proof.
  intros res. subst res. rewrite checkClaims_eq. unfold typ_ok, time_ok.
  split; [|split; [|split; [|split; [|split; [|split; [|split; [|split]]]]]]].
  - destruct (claims !! "typ") as [[| | |typ| |]|];
      try (split; [discriminate | intros [(? & [=] & _) _]]).
    destruct (EqualFold typ "Bearer") eqn:Hfold.
    2: { split; [discriminate | intros [(? & [= <-] & Hf) _]; congruence]. }
    destruct (claims !! "iat") as [[| |iat| | |]|];
      try (split; [discriminate | intros (_ & (? & [=]) & _)]).
    destruct (claims !! "exp") as [[| |exp| | |]|];
      try (split; [discriminate | intros (_ & _ & (? & [=]))]).
    split; [intros _; eauto 8 | reflexivity].
  - destruct (claims !! "typ") as [[| | |typ| |]|]; try discriminate.
    destruct (EqualFold typ "Bearer"); try discriminate.
    destruct (claims !! "iat") as [[| |iat| | |]|]; try discriminate.
    destruct (claims !! "exp") as [[| |exp| | |]|]; try discriminate.
    reflexivity.
  - intros ->. exact (sendError_fails _ _ _ _).
  - intros v -> Hv. destruct v; try discriminate; exact (sendError_fails _ _ _ _).
  - intros typ -> ->. exact (sendError_fails _ _ _ _).
  - intros (typ & -> & ->) ->. exact (sendError_fails _ _ _ _).
  - intros v (typ & -> & ->) -> Hv. destruct v; try discriminate; exact (sendError_fails _ _ _ _).
  - intros (typ & -> & ->) (iat & ->) ->. exact (sendError_fails _ _ _ _).
  - intros v (typ & -> & ->) (iat & ->) -> Hv. destruct v; try discriminate; exact (sendError_fails _ _ _ _).
Qed.

(** *** Loading keys only stores keys and adds events *)

Lemma with_keys_id (h : Handler) : with_keys h (keys h) = h.
Proof. by destruct h. Qed.

Lemma stepped_id st : stepped st (keys (hnd st)) [] = st.
Proof. destruct st as [h t tr]. unfold stepped; cbn. by rewrite with_keys_id, app_nil_r. Qed.

Lemma stepped_stepped st ks evs ks' evs' :
  stepped (stepped st ks evs) ks' evs' = stepped st ks' (evs ++ evs').
Proof. unfold stepped; cbn. by rewrite app_assoc. Qed.

Lemma appended_stepped st evs : appended st evs = stepped st (keys (hnd st)) evs.
Proof. unfold appended, stepped. by rewrite with_keys_id. Qed.

Lemma keys_Store_stepped kid key st :
  keys_Store kid key st
  = (tt, stepped st (<[kid := key]> (keys (hnd st))) [KeysStore kid key]).
Proof. reflexivity. Qed.

Lemma debugKey_appended (kd : keyData) st :
  exists evs, debugKey kd st = (tt, appended st evs) /\ Forall loader_event evs.
Proof.
  unfold debugKey, bind, gets, ret.
  destruct (DebugEnabled (logger (hnd st))).
  - rewrite !logf_appended, !appended_app.
    eexists. split; [reflexivity|]. loader_events.
  - exists []. rewrite appended_nil. split; [reflexivity|]. loader_events.
Qed.

Lemma readKey_stepped (kd : keyData) st :
  exists ks evs, readKey kd st = (tt, stepped st ks evs) /\ Forall loader_event evs.
Proof.
  unfold readKey, bind, ret.
  destruct (debugKey_appended kd st) as (evs0 & -> & Hevs0). rewrite appended_stepped.
  repeat match goal with
         | |- context [if ?b then _ else _] => destruct b
         end;
    try (rewrite logf_appended, appended_stepped, stepped_stepped;
         eexists _, _; split; [reflexivity|]; loader_events; fail).
  destruct (parseKey kd) as [key|e].
  - rewrite keys_Store_stepped, logf_appended, appended_stepped, !stepped_stepped.
    eexists _, _; split; [reflexivity|]; loader_events.
  - rewrite logf_appended, appended_stepped, stepped_stepped.
    eexists _, _; split; [reflexivity|]; loader_events.
Qed.

(** A loop whose body only stores keys and adds events does the same as a
    whole, and what every run of the body is known to log ([Q]) is logged
    by the loop.  [I] is what the body needs of the handler. *)
Lemma for_each_stepped {A} (l : list A) (body : A -> M unit)
    (I : Handler -> Prop) (Q : A -> list Event -> Prop) :
  (forall h ks, I h -> I (with_keys h ks)) ->
  (forall x st, I (hnd st) ->
     exists ks evs, body x st = (tt, stepped st ks evs)
                    /\ Forall loader_event evs /\ Q x evs) ->
  forall st, I (hnd st) ->
    exists ks evs,
      for_each l body st = (tt, stepped st ks evs)
      /\ Forall loader_event evs
      /\ forall x, x ∈ l -> exists evs1, Q x evs1 /\ evs1 ⊆ evs.
Proof.
  intros HI Hbody. induction l as [|x l IH]; intros st Hst.
  - exists (keys (hnd st)), []. cbn. unfold ret. rewrite stepped_id.
    split; [reflexivity|]. split; [constructor|].
    intros x Hx. by apply elem_of_nil in Hx.
  - cbn [for_each]. unfold bind.
    destruct (Hbody x st Hst) as (ks1 & evs1 & -> & Hev1 & HQ).
    destruct (IH (stepped st ks1 evs1)) as (ks2 & evs2 & -> & Hev2 & Hall).
    { cbn. by apply HI. }
    rewrite stepped_stepped. exists ks2, (evs1 ++ evs2). split; [reflexivity|].
    split; [loader_events|].
    intros y [->|Hy]%elem_of_cons.
    + exists evs1. split; [exact HQ|]. intros e He. apply elem_of_app. by left.
    + destruct (Hall y Hy) as (evs' & HQ' & Hsub). exists evs'. split; [exact HQ'|].
      intros e He. apply elem_of_app. right. by apply Hsub.
Qed.

Lemma readKeys_stepped (reader : Reader) st :
  exists ks evs,
    readKeys reader st = (fst (readKeys reader st), stepped st ks evs)
    /\ Forall loader_event evs.
Proof.
  unfold readKeys. destruct (ReadAll reader) as [jsonData|e].
  2: { exists (keys (hnd st)), []. unfold ret. rewrite stepped_id.
       split; [reflexivity|constructor]. }
  destruct (json_Unmarshal jsonData) as [setData|e].
  2: { exists (keys (hnd st)), []. unfold ret. rewrite stepped_id.
       split; [reflexivity|constructor]. }
  unfold bind, ret.
  destruct (for_each_stepped (Keys setData) readKey (fun _ => True) (fun _ _ => True))
    with (st := st) as (ks & evs & -> & Hevs & _);
    [exact (fun _ _ _ => Logic.I) | | exact Logic.I | ].
  - intros kd st1 _. destruct (readKey_stepped kd st1) as (ks & evs & -> & Hevs).
    eexists _, _. split; [reflexivity|]. split; [exact Hevs|exact Logic.I].
  - eexists _, _. split; [reflexivity|exact Hevs].
Qed.

(** Whether reading a key set fails does not depend on the state: it is
    decided by the reader and the JSON decoder. *)
Lemma readKeys_fst (reader : Reader) st st0 :
  fst (readKeys reader st) = fst (readKeys reader st0).
Proof.
  unfold readKeys. destruct (ReadAll reader) as [jsonData|e]; [|reflexivity].
  destruct (json_Unmarshal jsonData) as [setData|e]; [|reflexivity].
  unfold bind, ret. by do 2 destruct (for_each _ _ _).
Qed.

Lemma loadKeysFile_stepped (file : string) st :
  exists ks evs,
    loadKeysFile file st = (fst (loadKeysFile file st), stepped st ks evs)
    /\ Forall loader_event evs.
Proof.
  unfold loadKeysFile. destruct (os_Open file) as [reader|e].
  - apply readKeys_stepped.
  - exists (keys (hnd st)), []. unfold ret. rewrite stepped_id.
    split; [reflexivity|constructor].
Qed.

Lemma loadKeysFile_fst (file : string) st st0 :
  fst (loadKeysFile file st) = fst (loadKeysFile file st0).
Proof.
  unfold loadKeysFile. destruct (os_Open file) as [reader|e]; [|reflexivity].
  apply readKeys_fst.
Qed.

Lemma loadKeysURL_stepped (addr : string) st :
  exists ks evs,
    loadKeysURL addr st = (fst (loadKeysURL addr st), stepped st ks evs)
    /\ Forall loader_event evs.
Proof.
  unfold loadKeysURL. destruct (http_NewRequest addr) as [e|].
  { exists (keys (hnd st)), []. unfold ret. rewrite stepped_id.
    split; [reflexivity|constructor]. }
  unfold bind, gets, ret.
  destruct (http_Do (keysClient (hnd st)) addr) as [response|e].
  2: { exists (keys (hnd st)), []. rewrite stepped_id.
       split; [reflexivity|constructor]. }
  destruct (readKeys_stepped (Body response) st) as (ks & evs & -> & Hevs).
  destruct (Body_Close response) as [e|].
  - rewrite logf_appended, appended_stepped, stepped_stepped. cbn [fst].
    eexists _, _. split; [reflexivity|]. loader_events.
  - cbn [fst]. eexists _, _. split; [reflexivity|exact Hevs].
Qed.

Lemma loadKeysURL_fst (addr : string) st st0 :
  keysClient (hnd st0) = keysClient (hnd st) ->
  fst (loadKeysURL addr st) = fst (loadKeysURL addr st0).
Proof.
  intros Hclient. unfold loadKeysURL.
  destruct (http_NewRequest addr) as [e|]; [reflexivity|].
  unfold bind, gets, ret. rewrite Hclient.
  destruct (http_Do (keysClient (hnd st)) addr) as [response|e]; [|reflexivity].
  pose proof (readKeys_fst (Body response) st st0) as Hfst.
  destruct (readKeys (Body response) st) as [res st1], (readKeys (Body response) st0) as [res0 st2].
  cbn in Hfst. subst res0.
  destruct (Body_Close response); [by do 2 destruct (logf _ _ _ _)|reflexivity].
Qed.

Lemma loadKeys_stepped st :
  exists ks evs,
    loadKeys st = (None, stepped st ks evs)
    /\ Forall loader_event evs
    /\ (forall file, file ∈ keysFiles (hnd st) ->
          Log LevelInfo (Sprintf "Loading keys from file '%s'" [file]) ∈ evs
          /\ forall e, fst (loadKeysFile file st) = Some e ->
               Log LevelError (Sprintf "Can't load keys from file '%s': %v" [file; e]) ∈ evs)
    /\ (forall url, url ∈ keysURLs (hnd st) ->
          Log LevelInfo (Sprintf "Loading keys from URL '%s'" [url]) ∈ evs
          /\ forall e, fst (loadKeysURL url st) = Some e ->
               Log LevelError (Sprintf "Can't load keys from URL '%s': %v" [url; e]) ∈ evs).
Proof.
  unfold loadKeys, bind, gets, ret.
  (* the loop over the files *)
  match goal with |- context [for_each (keysFiles (hnd st)) ?body st] =>
  destruct (for_each_stepped (keysFiles (hnd st)) body (fun _ => True)
               (fun file evs =>
                  Log LevelInfo (Sprintf "Loading keys from file '%s'" [file]) ∈ evs
                  /\ forall e, fst (loadKeysFile file st) = Some e ->
                       Log LevelError
                         (Sprintf "Can't load keys from file '%s': %v" [file; e]) ∈ evs))
    with (st := st) as (ks1 & evs1 & -> & Hevs1 & Hfiles);
    [exact (fun _ _ _ => Logic.I)| |exact Logic.I|]
  end.
  { intros file st1 _. unfold bind. rewrite logf_appended, appended_stepped.
    destruct (loadKeysFile_stepped file
                (stepped st1 (keys (hnd st1))
                   [Log LevelInfo (Sprintf "Loading keys from file '%s'" [file])]))
      as (ks & evs & -> & Hevs).
    rewrite (loadKeysFile_fst file _ st). rewrite stepped_stepped.
    destruct (fst (loadKeysFile file st)) as [e|].
    - rewrite logf_appended, appended_stepped, stepped_stepped.
      eexists _, _. split; [reflexivity|]. split; [loader_events|]. split.
      + apply elem_of_app. left. apply elem_of_app. left. apply list_elem_of_here.
      + intros ? [= <-]. apply elem_of_app. right. apply list_elem_of_here.
    - eexists _, _. split; [reflexivity|]. split; [loader_events|].
      split; [|discriminate].
      apply elem_of_app. left. apply list_elem_of_here. }
  (* the loop over the URLs *)
  cbn [hnd stepped keysURLs with_keys].
  match goal with |- context [for_each (keysURLs (hnd st)) ?body _] =>
  destruct (for_each_stepped (keysURLs (hnd st)) body
               (fun h => keysClient h = keysClient (hnd st))
               (fun url evs =>
                  Log LevelInfo (Sprintf "Loading keys from URL '%s'" [url]) ∈ evs
                  /\ forall e, fst (loadKeysURL url st) = Some e ->
                       Log LevelError
                         (Sprintf "Can't load keys from URL '%s': %v" [url; e]) ∈ evs))
    with (st := stepped st ks1 evs1) as (ks2 & evs2 & -> & Hevs2 & Hurls)
  end.
  { intros h ks Hh. exact Hh. }
  { intros url st1 Hclient. unfold bind. rewrite logf_appended, appended_stepped.
    destruct (loadKeysURL_stepped url
                (stepped st1 (keys (hnd st1))
                   [Log LevelInfo (Sprintf "Loading keys from URL '%s'" [url])]))
      as (ks & evs & -> & Hevs).
    rewrite (loadKeysURL_fst url _ st).
    2: { cbn [hnd stepped keysClient with_keys]. congruence. }
    rewrite stepped_stepped.
    destruct (fst (loadKeysURL url st)) as [e|].
    - rewrite logf_appended, appended_stepped, stepped_stepped.
      eexists _, _. split; [reflexivity|]. split; [loader_events|]. split.
      + apply elem_of_app. left. apply elem_of_app. left. apply list_elem_of_here.
      + intros ? [= <-]. apply elem_of_app. right. apply list_elem_of_here.
    - eexists _, _. split; [reflexivity|]. split; [loader_events|].
      split; [|discriminate].
      apply elem_of_app. left. apply list_elem_of_here. }
  { reflexivity. }
  rewrite stepped_stepped. eexists _, _. split; [reflexivity|].
  split; [loader_events|]. split.
  - intros file Hfile. destruct (Hfiles file Hfile) as (evs' & [Hinfo Herr] & Hsub).
    split; [|intros e He]; apply elem_of_app; left; apply Hsub;
      [exact Hinfo | exact (Herr e He)].
  - intros url Hurl. destruct (Hurls url Hurl) as (evs' & [Hinfo Herr] & Hsub).
    split; [|intros e He]; apply elem_of_app; right; apply Hsub;
      [exact Hinfo | exact (Herr e He)].
Qed.

Lemma fmt_load_error_file (file e : string) :
  Sprintf "Can't load keys from file '%s': %v" [file; e]
  = "Can't load keys from file '" +:+ file +:+ "': " +:+ e.
Proof. cbn. rewrite append_empty_r. reflexivity. Qed.

Lemma fmt_load_error_URL (url e : string) :
  Sprintf "Can't load keys from URL '%s': %v" [url; e]
  = "Can't load keys from URL '" +:+ url +:+ "': " +:+ e.
Proof. cbn. rewrite append_empty_r. reflexivity. Qed.

(** C8. [loadKeys] returns a nil error whatever the files and URLs of the
    handler give.  It only stores keys and adds events, and among the
    events there is, for every configured file and every configured URL,
    the line that says that keys are loaded from it, and, when loading
    from this source fails, the line that logs the error: a source that
    fails is logged and the sources after it are still tried. *)
Theorem loadKeys_never_fails (st : St) :
  exists ks evs,
    loadKeys st = (None, stepped st ks evs)
    /\ Forall loader_event evs
    /\ (forall file, file ∈ keysFiles (hnd st) ->
          Log LevelInfo ("Loading keys from file '" +:+ file +:+ "'") ∈ evs
          /\ forall e, fst (loadKeysFile file st) = Some e ->
               Log LevelError ("Can't load keys from file '" +:+ file +:+ "': " +:+ e) ∈ evs)
    /\ (forall url, url ∈ keysURLs (hnd st) ->
          Log LevelInfo ("Loading keys from URL '" +:+ url +:+ "'") ∈ evs
          /\ forall e, fst (loadKeysURL url st) = Some e ->
               Log LevelError ("Can't load keys from URL '" +:+ url +:+ "': " +:+ e) ∈ evs).
Proof.
  destruct (loadKeys_stepped st) as (ks & evs & Heq & Hevs & Hfiles & Hurls).
  exists ks, evs. split; [exact Heq|]. split; [exact Hevs|]. split.
  - intros file Hfile. destruct (Hfiles file Hfile) as [Hinfo Herr].
    split; [exact Hinfo|]. intros e He. specialize (Herr e He).
    rewrite fmt_load_error_file in Herr. exact Herr.
  - intros url Hurl. destruct (Hurls url Hurl) as [Hinfo Herr].
    split; [exact Hinfo|]. intros e He. specialize (Herr e He).
    rewrite fmt_load_error_URL in Herr. exact Herr.
Qed.

(** C3. When the header of the token has no "kid", or one that is not a
    string, [selectKey] fails and does nothing: no lookup, no reload.  For
    a string [kid] it first looks the key up in the key store.  On a hit it
    returns the key.  On a miss it reads the clock; when the last reload is
    not more than one minute old it fails with the error that names the
    key identifier, without reloading; when it is more than one minute old
    it runs [loadKeys] (whose events are log lines and stored keys only),
    records the next reading of the clock as the time of the last reload,
    looks the key up once more, and returns it or fails with the error that
    names the key identifier. *)
Theorem selectKey_spec (token : Token) (st : St) :
  ((forall kid, tok_Header token !! "kid" <> Some (JString kid)) ->
     exists e, selectKey token st = ((None, Some e), st))
  /\ (forall kid, tok_Header token !! "kid" = Some (JString kid) ->
      let missing := Some ("there is no key for key identifier '" +:+ kid +:+ "'") in
      let since := time_Sub (clock (ticks st)) (lastKeyReload (hnd st)) in
      let st1 := {| hnd := hnd st; ticks := S (ticks st);
                    trace := trace st ++ [KeysLoad kid] |} in
      (forall key, keys (hnd st) !! kid = Some key ->
         selectKey token st = ((Some key, None), appended st [KeysLoad kid]))
      /\ (keys (hnd st) !! kid = None -> since <= 1 * Minute ->
          selectKey token st = ((None, missing), st1))
      /\ (keys (hnd st) !! kid = None -> since > 1 * Minute ->
          exists ks evs,
            loadKeys st1 = (None, stepped st1 ks evs)
            /\ Forall loader_event evs
            /\ selectKey token st
               = ((ks !! kid, match ks !! kid with Some _ => None | None => missing end),
                  {| hnd := with_lastKeyReload (with_keys (hnd st) ks) (clock (S (ticks st)));
                     ticks := S (S (ticks st));
                     trace := trace st ++ [KeysLoad kid] ++ evs ++ [KeysLoad kid] |}))).
Proof.
  split.
  - intros Hkid. unfold selectKey.
    destruct (tok_Header token !! "kid") as [[| | |kid| |]|]; unfold ret; eauto.
    by destruct (Hkid kid).
  - intros kid Hkid missing since st1. unfold selectKey. rewrite Hkid.
    cbv [bind keys_Load gets time_Since time_Now ret set_lastKeyReload].
    cbn [hnd ticks trace].
    split; [|split].
    + intros key ->. reflexivity.
    + intros -> Hsince. cbn [hnd ticks trace]. fold since.
      destruct (since >? 1 * Minute) eqn:Hgt; [|reflexivity].
      apply Z.gtb_lt in Hgt. lia.
    + intros -> Hsince. cbn [hnd ticks trace]. fold since. fold st1.
      assert ((since >? 1 * Minute) = true) as -> by (apply Z.gtb_lt; lia).
      destruct (loadKeys_stepped st1) as (ks & evs & Hload & Hevs & _).
      exists ks, evs. split; [exact Hload|]. split; [exact Hevs|].
      rewrite Hload. cbn [hnd ticks trace stepped st1 keys with_keys with_lastKeyReload].
      rewrite <- !app_assoc.
      destruct (ks !! kid) as [key|] eqn:Hks; reflexivity.
Qed.

(** *** Key records *)

Example DecodeString_AQAB : DecodeString "AQAB" = Ok [1; 0; 1].
Proof. reflexivity. Qed.

Example DecodeString_empty : DecodeString EmptyString = Ok [].
Proof. reflexivity. Qed.

Example DecodeString_padded : DecodeString "AQAB==" = Err "illegal base64 data".
Proof. reflexivity. Qed.

Example Split_path :
  Split "/api/clusters_mgmt/v1/clusters" "/"
  = [EmptyString; "api"; "clusters_mgmt"; "v1"; "clusters"].
Proof. reflexivity. Qed.

(** A record without identifier, key type, algorithm or exponent, or with
    a key type other than RSA, is skipped: a line is logged and the key
    store is as it was. *)
Lemma readKey_missing_field_skipped (kd : keyData) st :
  Kid kd = EmptyString \/ Kty kd = EmptyString \/ Alg kd = EmptyString
  \/ key_E kd = EmptyString \/ Kty kd <> "RSA" ->
  exists evs, readKey kd st = (tt, appended st evs) /\ Forall loader_event evs.
Proof.
  intros Hmissing. unfold readKey, bind, ret.
  destruct (debugKey_appended kd st) as (evs0 & -> & Hevs0).
  destruct (String.eqb (Kid kd) EmptyString) eqn:Hkid;
    [|destruct (String.eqb (Kty kd) EmptyString) eqn:Hkty;
      [|destruct (String.eqb (Alg kd) EmptyString) eqn:Halg;
        [|destruct (String.eqb (key_E kd) EmptyString) eqn:He]]].
  1-4: rewrite logf_appended, appended_app; eexists; split; [reflexivity|loader_events].
  apply String.eqb_neq in Hkid, Hkty, Halg, He.
  destruct Hmissing as [?|[?|[?|[?|Hrsa]]]]; try contradiction.
  unfold parseKey. apply String.eqb_neq in Hrsa. rewrite Hrsa. cbn [negb].
  rewrite logf_appended, appended_app; eexists; split; [reflexivity|loader_events].
Qed.

Lemma readKey_empty_n (kd : keyData) st :
  exists ks evs,
    readKey kd st = (tt, stepped st ks evs)
    /\ Forall loader_event evs
    /\ (Kid kd <> EmptyString -> Kty kd = "RSA" -> Alg kd <> EmptyString ->
        key_E kd <> EmptyString -> key_N kd = EmptyString ->
        forall eb, DecodeString (key_E kd) = Ok eb ->
          KeysStore (Kid kd) {| N := 0; E := Int64 (SetBytes eb) |} ∈ evs
          /\ ks = <[Kid kd := {| N := 0; E := Int64 (SetBytes eb) |}]> (keys (hnd st))).
Proof.
  unfold readKey, bind, ret.
  destruct (debugKey_appended kd st) as (evs0 & -> & Hevs0). rewrite appended_stepped.
  destruct (String.eqb (Kid kd) EmptyString) eqn:Hkid;
    [|destruct (String.eqb (Kty kd) EmptyString) eqn:Hkty;
      [|destruct (String.eqb (Alg kd) EmptyString) eqn:Halg;
        [|destruct (String.eqb (key_E kd) EmptyString) eqn:He]]].
  1-4: rewrite logf_appended, appended_stepped, stepped_stepped;
       eexists _, _; split; [reflexivity|]; split; [loader_events|].
  - intros Hne. apply String.eqb_eq in Hkid. contradiction.
  - intros _ Hrsa. apply String.eqb_eq in Hkty. rewrite Hkty in Hrsa. discriminate.
  - intros _ _ Hne. apply String.eqb_eq in Halg. contradiction.
  - intros _ _ _ Hne. apply String.eqb_eq in He. contradiction.
  - destruct (parseKey kd) as [key|e] eqn:Hparse.
    + rewrite keys_Store_stepped, logf_appended, appended_stepped, !stepped_stepped.
      eexists _, _; split; [reflexivity|]; split; [loader_events|].
      intros _ Hrsa _ _ Hn eb Heb.
      unfold parseKey in Hparse. rewrite Hrsa, Hn, Heb in Hparse.
      injection Hparse as <-. cbn [hnd stepped keys with_keys]. split; [|reflexivity].
      apply elem_of_app. right. apply list_elem_of_here.
    + rewrite logf_appended, appended_stepped, stepped_stepped.
      eexists _, _; split; [reflexivity|]; split; [loader_events|].
      intros _ Hrsa _ _ Hn eb Heb.
      unfold parseKey in Hparse. rewrite Hrsa, Hn, Heb in Hparse. discriminate.
Qed.

(** C2 (what the code does with a record that has no 'n'). A record of
    the document with identifier, algorithm and exponent, key type RSA and
    an empty modulus is not skipped by [readKeys]: the test that should
    reject it reads the exponent a second time, the empty modulus decodes
    to no bytes, and the key with modulus zero is stored under the
    identifier of the record. *)
Theorem readKeys_stores_key_without_n
    (reader : Reader) (jsonData : string) (set : setData) (kd : keyData) (eb : list Z)
    (st : St) :
  ReadAll reader = Ok jsonData ->
  json_Unmarshal jsonData = Ok set ->
  kd ∈ Keys set ->
  Kid kd <> EmptyString -> Kty kd = "RSA" -> Alg kd <> EmptyString ->
  key_E kd <> EmptyString -> key_N kd = EmptyString ->
  DecodeString (key_E kd) = Ok eb ->
  exists ks evs,
    readKeys reader st = (None, stepped st ks evs)
    /\ KeysStore (Kid kd) {| N := 0; E := Int64 (SetBytes eb) |} ∈ evs.
Proof.
  intros Hread Hjson Hin Hkid Hrsa Halg He Hn Heb.
  unfold readKeys. rewrite Hread, Hjson. unfold bind, ret.
  destruct (for_each_stepped (Keys set) readKey (fun _ => True)
              (fun x evs =>
                 Kid x <> EmptyString -> Kty x = "RSA" -> Alg x <> EmptyString ->
                 key_E x <> EmptyString -> key_N x = EmptyString ->
                 forall eb, DecodeString (key_E x) = Ok eb ->
                   KeysStore (Kid x) {| N := 0; E := Int64 (SetBytes eb) |} ∈ evs))
    with (st := st) as (ks & evs & -> & _ & Hall);
    [exact (fun _ _ _ => Logic.I) | | exact Logic.I | ].
  - intros x st1 _. destruct (readKey_empty_n x st1) as (ks & evs & -> & Hevs & HQ).
    eexists _, _. split; [reflexivity|]. split; [exact Hevs|].
    intros H1 H2 H3 H4 H5 eb' H6. exact (proj1 (HQ H1 H2 H3 H4 H5 eb' H6)).
  - exists ks, evs. split; [reflexivity|].
    destruct (Hall kd Hin) as (evs1 & HQ & Hsub).
    apply Hsub. exact (HQ Hkid Hrsa Halg He Hn eb Heb).
Qed.

(** *** The builder *)

(** The loop of [Build] over the keys URLs returns only for a URL that
    does not parse: whatever the schemes are, it falls through. *)
Lemma checkKeysURLs_falls_through (urls : list string) (err : option error) :
  (forall addr, addr ∈ urls -> exists parsed, url_Parse addr = Ok parsed) ->
  exists err', checkKeysURLs urls err = inr err'.
Proof.
  revert err. induction urls as [|addr rest IH]; intros err Hparse; cbn [checkKeysURLs].
  - eauto.
  - destruct (Hparse addr) as [parsed ->]; [apply list_elem_of_here|].
    destruct (negb (EqualFold (Scheme parsed) "https")); apply IH;
      intros a Ha; apply Hparse; by apply list_elem_of_further.
Qed.

(** C1 (what the code does with a keys URL that is not HTTPS). For a
    builder with a logger, a next handler, one public path that compiles,
    no keys file, no ACL file and one keys URL that parses with a scheme
    other than HTTPS, [Build] returns a handler that uses this URL, and a
    nil error: the error assigned for the scheme is not returned, and the
    compilation of the public path overwrites it. *)
Theorem Build_accepts_non_HTTPS_keys_URL
    (b : HandlerBuilder) (lg : sdk_Logger) (nxt : http_Handler)
    (addr expr : string) (parsed : URL) (re : Regexp) :
  b_logger b = Some lg -> b_next b = Some nxt ->
  b_keysFiles b = [] -> b_keysURLs b = [addr] ->
  b_publicPaths b = [expr] -> b_aclFiles b = [] ->
  url_Parse addr = Ok parsed ->
  EqualFold (Scheme parsed) "https" = false ->
  regexp_Compile expr = Ok re ->
  Build b
  = (Some {| logger := lg; publicPaths := [re]; keysFiles := []; keysURLs := [addr];
             keysClient := {| RootCAs := b_keysCAs b;
                              InsecureSkipVerify := b_keysInsecure b |};
             keys := ∅; lastKeyReload := 0; aclItems := ∅; next := nxt |},
     None).
Proof.
  intros Hlg Hnxt Hfiles Hurls Hpublic Hacl Hparse Hscheme Hcompile.
  unfold Build. rewrite Hlg, Hnxt, Hfiles, Hurls, Hpublic, Hacl.
  cbn [length Nat.add Nat.eqb checkKeysFiles checkKeysURLs].
  rewrite Hparse, Hscheme. cbn [negb compilePublic]. rewrite Hcompile.
  reflexivity.
Qed.

(** C10. [KeysFile], [KeysURL] and [ACLFile] called with the empty string
    return the builder as it was; and a builder with a logger and a next
    handler but no keys file and no keys URL is still refused by [Build]
    for its missing keys source after such calls. *)
Theorem empty_value_ignored (b : HandlerBuilder) :
  KeysFile EmptyString b = b
  /\ KeysURL EmptyString b = b
  /\ ACLFile EmptyString b = b
  /\ (b_logger b <> None -> b_next b <> None ->
      b_keysFiles b = [] -> b_keysURLs b = [] ->
      Build (ACLFile EmptyString (KeysURL EmptyString (KeysFile EmptyString b)))
      = (None, Some "at least one keys file or one keys URL must be configured")).
Proof.
  repeat split. intros Hlg Hnxt Hfiles Hurls.
  change (ACLFile EmptyString (KeysURL EmptyString (KeysFile EmptyString b))) with b.
  unfold Build.
  destruct (b_logger b); [|contradiction].
  destruct (b_next b); [|contradiction].
  rewrite Hfiles, Hurls. reflexivity.
Qed.

(** *** Every run of the handler forwards or rejects *)

Lemma loader_key_event (e : Event) : loader_event e -> key_event e.
Proof. by destruct e. Qed.

Lemma st_eta (st : St) : st = {| hnd := hnd st; ticks := ticks st; trace := trace st ++ [] |}.
Proof. destruct st; cbn. by rewrite app_nil_r. Qed.

(** [selectKey] changes the handler and the clock and adds events of
    resolving a key. *)
Lemma selectKey_events (token : Token) (st : St) :
  exists h' t' evs,
    snd (selectKey token st) = {| hnd := h'; ticks := t'; trace := trace st ++ evs |}
    /\ Forall key_event evs.
Proof.
  unfold selectKey.
  destruct (tok_Header token !! "kid") as [[| | |kid| |]|];
    try (exists (hnd st), (ticks st), []; split; [apply st_eta | constructor]).
  cbv [bind keys_Load gets time_Since time_Now ret set_lastKeyReload].
  cbn [hnd ticks trace].
  destruct (keys (hnd st) !! kid) as [key|].
  { eexists _, _, _. split; [reflexivity|]. repeat constructor. }
  cbn [hnd ticks trace].
  destruct (_ >? _).
  2: { eexists _, _, _. split; [reflexivity|]. repeat constructor. }
  match goal with |- context [loadKeys ?st1] =>
    destruct (loadKeys_stepped st1) as (ks & evs & -> & Hevs & _)
  end.
  cbn [hnd ticks trace stepped keys with_keys with_lastKeyReload].
  rewrite <- !app_assoc.
  assert (Forall key_event ([KeysLoad kid] ++ evs ++ [KeysLoad kid])).
  { apply Forall_app_2; [repeat constructor|].
    apply Forall_app_2; [|repeat constructor].
    eapply Forall_impl; [exact Hevs | exact loader_key_event]. }
  destruct (ks !! kid); eexists _, _, _; (split; [reflexivity|assumption]).
Qed.

Lemma run_snd {A} (m : M unit) (a : A) (st : St) :
  (let (_, st') := m st in (a, st')) = (a, snd (m st)).
Proof. by destruct (m st). Qed.

(** [checkToken] resolves the key and then either accepts the token or
    sends an error response. *)
Lemma checkToken_outcome (r : Request) (bearer : string) (st : St) :
  exists h' t' evs,
    Forall key_event evs
    /\ let st1 := {| hnd := h'; ticks := t'; trace := trace st ++ evs |} in
       ((exists token claims, checkToken r bearer st = ((token, claims, true), st1))
        \/ (exists token claims reason,
              checkToken r bearer st
              = ((token, claims, false), snd (sendError r reason [] st1)))).
Proof.
  unfold checkToken, ParseWithClaims, bind, ret.
  destruct (jwt_ParseUnverified bearer) as [token|err].
  - destruct (selectKey_events token st) as (h' & t' & evs & Hst & Hevs).
    exists h', t', evs. split; [exact Hevs|]. cbn zeta.
    destruct (selectKey token st) as [[key kerr] st1]. cbn [snd] in Hst. subst st1.
    cbn [fst snd]. destruct kerr as [e|].
    + right. cbn [fst snd]. rewrite run_snd. eexists _, _, _. reflexivity.
    + destruct (_ =? 0); cbn [fst snd].
      * left. eauto.
      * right. rewrite run_snd. eexists _, _, _. reflexivity.
  - exists (hnd st), (ticks st), []. split; [constructor|]. cbn zeta.
    rewrite <- st_eta. right. cbn [fst snd]. rewrite run_snd. eexists _, _, _. reflexivity.
Qed.

Lemma sendError_trace (r : Request) (format : string) (args : list string) (st : St) :
  exists hdr body,
    trace (snd (sendError r format args st))
      = trace st ++ [SetHeader "WWW-Authenticate" hdr; SendError (Some body)]
    /\ error_response (URL_Path r) (Sprintf format args) hdr body.
Proof.
  destruct (sendError_shape r format args st) as (hdr & body & -> & Hshape).
  exists hdr, body. split; [reflexivity | exact Hshape].
Qed.

Lemma checkClaims_outcome (r : Request) (claims : gmap string JSONValue) (st : St) :
  checkClaims r claims st = (true, st)
  \/ exists format args,
       checkClaims r claims st = (false, snd (sendError r format args st)).
Proof.
  rewrite checkClaims_eq.
  destruct (claims !! "typ") as [[| | |typ| |]|]; try (right; eexists _, _; reflexivity).
  destruct (EqualFold typ "Bearer"); try (right; eexists _, _; reflexivity).
  destruct (claims !! "iat") as [[| |iat| | |]|]; try (right; eexists _, _; reflexivity).
  destruct (claims !! "exp") as [[| |exp| | |]|]; try (right; eexists _, _; reflexivity).
  left. reflexivity.
Qed.

Lemma checkACL_outcome (r : Request) (claims : gmap string JSONValue) (st : St) :
  checkACL r claims st = (true, st)
  \/ checkACL r claims st = (false, snd (sendError r "Access denied" [] st)).
Proof.
  unfold checkACL, bind, gets, ret.
  destruct (_ =? 0)%nat; [by left|].
  destruct (matchACL _ _); [by left|].
  right. apply run_snd.
Qed.

Lemma reject_trace (r : Request) (format : string) (args : list string)
    (st : St) (h' : Handler) (t' : nat) (evs : list Event) :
  exists reason hdr body,
    trace (snd (sendError r format args
                  {| hnd := h'; ticks := t'; trace := trace st ++ evs |}))
    = trace st ++ evs ++ [SetHeader "WWW-Authenticate" hdr; SendError (Some body)]
    /\ error_response (URL_Path r) reason hdr body.
Proof.
  destruct (sendError_trace r format args
              {| hnd := h'; ticks := t'; trace := trace st ++ evs |})
    as (hdr & body & Htrace & Hshape).
  eexists _, hdr, body. rewrite Htrace. cbn [trace]. rewrite <- app_assoc.
  split; [reflexivity | exact Hshape].
Qed.

(** C9. Every error response of the handler has the header
    [WWW-Authenticate] and a body whose identifier is the string 401.
    When the path split at "/" has at least four segments, the body has
    the link [/prefix/service/version/errors/401] and the code made of the
    service in upper case, with dashes for underscores, followed by
    [-401], and the realm is [service/version]; with fewer segments the
    body has no link and no code and the realm is empty.  This holds for
    what [sendError] sends, and so for every run of [ServeHTTP] that does
    not end with the call of the next handler: after the events of
    resolving the key, such a run ends with this header and this body. *)
Theorem error_response_shape (r : Request) (st : St) :
  (forall format args,
     exists hdr body,
       sendError r format args st
         = (tt, appended st [SetHeader "WWW-Authenticate" hdr; SendError (Some body)])
       /\ error_response (URL_Path r) (Sprintf format args) hdr body)
  /\ exists evs,
       Forall key_event evs
       /\ ((exists r', trace (snd (ServeHTTP r st)) = trace st ++ evs ++ [ServeNext r'])
           \/ (exists reason hdr body,
                 trace (snd (ServeHTTP r st))
                 = trace st ++ evs ++ [SetHeader "WWW-Authenticate" hdr; SendError (Some body)]
                 /\ error_response (URL_Path r) reason hdr body)).
Proof.
  split; [intros format args; apply sendError_shape|].
  unfold ServeHTTP, bind, gets, ret.
  destruct (existsb _ _).
  { exists []. split; [constructor|]. left. exists r. reflexivity. }
  destruct (String.eqb _ EmptyString).
  { exists []. split; [constructor|]. right.
    destruct (sendError_trace r "Request doesn't contain the 'Authorization' header" [] st)
      as (hdr & body & Htrace & Hshape).
    eexists _, hdr, body. split; [exact Htrace | exact Hshape]. }
  destruct (negb (_ =? 3)%nat).
  { exists []. split; [constructor|]. right.
    destruct (sendError_trace r "Authorization header '%s' is malformed"
                [Header_Get (Header r) "Authorization"] st)
      as (hdr & body & Htrace & Hshape).
    eexists _, hdr, body. split; [exact Htrace | exact Hshape]. }
  destruct (negb (EqualFold _ "Bearer")).
  { exists []. split; [constructor|]. right.
    match goal with |- context [sendError r ?f ?a st] =>
      destruct (sendError_trace r f a st) as (hdr & body & Htrace & Hshape)
    end.
    eexists _, hdr, body. split; [exact Htrace | exact Hshape]. }
  match goal with |- context [checkToken r ?bearer st] =>
    destruct (checkToken_outcome r bearer st) as (h' & t' & evs & Hevs & Houtcome)
  end.
  exists evs. split; [exact Hevs|]. cbn zeta in Houtcome.
  destruct Houtcome as [(token & claims & ->)|(token & claims & reason & ->)].
  2: { right. cbn [negb fst snd]. apply reject_trace. }
  cbn [negb].
  match goal with |- context [checkClaims r claims ?st1] =>
    destruct (checkClaims_outcome r claims st1) as [->|(format & args & ->)]
  end.
  2: { right. cbn [negb fst snd]. apply reject_trace. }
  cbn [negb].
  match goal with |- context [checkACL r claims ?st1] =>
    destruct (checkACL_outcome r claims st1) as [->| ->]
  end.
  2: { right. cbn [negb fst snd]. apply reject_trace. }
  cbn [negb]. left. eexists. cbn [emit snd trace]. rewrite <- app_assoc. reflexivity.
Qed.

(** *** What [Build] refuses and what it builds *)

Lemma checkKeysFiles_bad (files : list string) (err : option error) :
  (exists file, file ∈ files
     /\ forall info, os_Stat file = Ok info -> IsRegular info = false) ->
  exists e, checkKeysFiles files err = inl e.
Proof.
  revert err. induction files as [|f rest IH]; intros err (file & Hin & Hbad).
  - by apply elem_of_nil in Hin.
  - cbn [checkKeysFiles]. destruct (os_Stat f) as [info|e] eqn:Hstat; [|eauto].
    destruct (IsRegular info) eqn:Hreg; cbn [negb]; [|eauto].
    apply IH. apply elem_of_cons in Hin as [->|Hin].
    + rewrite (Hbad info Hstat) in Hreg. discriminate.
    + eauto.
Qed.

Lemma checkKeysFiles_ok (files : list string) (err err' : option error) :
  checkKeysFiles files err = inr err' ->
  Forall (fun file => exists info, os_Stat file = Ok info /\ IsRegular info = true) files
  /\ (err' = None \/ (files = [] /\ err' = err)).
Proof.
  revert err. induction files as [|f rest IH]; intros err; cbn [checkKeysFiles].
  - intros [= <-]. split; [constructor | right; split; reflexivity].
  - destruct (os_Stat f) as [info|e] eqn:Hstat; [|discriminate].
    destruct (IsRegular info) eqn:Hreg; cbn [negb]; [|discriminate].
    intros Hrest. destruct (IH None Hrest) as [Hall Herr]. split.
    + constructor; [eauto|exact Hall].
    + left. destruct Herr as [->|[_ ->]]; reflexivity.
Qed.

Lemma checkKeysURLs_unparsable (urls : list string) (err : option error) :
  (exists addr e, addr ∈ urls /\ url_Parse addr = Err e) ->
  exists e, checkKeysURLs urls err = inl e.
Proof.
  revert err. induction urls as [|a rest IH]; intros err (addr & e & Hin & Hbad).
  - by apply elem_of_nil in Hin.
  - cbn [checkKeysURLs]. destruct (url_Parse a) as [parsed|e'] eqn:Hparse; [|eauto].
    assert (Hrest : exists addr e, addr ∈ rest /\ url_Parse addr = Err e).
    { apply elem_of_cons in Hin as [->|Hin]; [congruence | eauto]. }
    destruct (negb _); apply IH; exact Hrest.
Qed.

Lemma checkKeysURLs_ok (urls : list string) (err err' : option error) :
  checkKeysURLs urls err = inr err' ->
  Forall (fun addr => exists parsed, url_Parse addr = Ok parsed) urls.
Proof.
  revert err. induction urls as [|a rest IH]; intros err; cbn [checkKeysURLs].
  - intros _. constructor.
  - destruct (url_Parse a) as [parsed|e] eqn:Hparse; [|discriminate].
    intros Hrest. constructor; [eauto|].
    destruct (negb _); eapply IH; exact Hrest.
Qed.

Lemma checkKeysURLs_https (urls : list string) :
  Forall (fun addr => exists parsed,
            url_Parse addr = Ok parsed /\ EqualFold (Scheme parsed) "https" = true) urls ->
  checkKeysURLs urls None = inr None.
Proof.
  induction 1 as [|a rest (parsed & Hparse & Hscheme) _ IH]; cbn [checkKeysURLs].
  - reflexivity.
  - rewrite Hparse, Hscheme. exact IH.
Qed.

Lemma compilePublic_bad (exprs : list string) (err : option error) :
  (exists expr e, expr ∈ exprs /\ regexp_Compile expr = Err e) ->
  exists e, compilePublic exprs err = inl e.
Proof.
  revert err. induction exprs as [|x rest IH]; intros err (expr & e & Hin & Hbad).
  - by apply elem_of_nil in Hin.
  - cbn [compilePublic]. destruct (regexp_Compile x) as [re|e'] eqn:Hcompile; [|eauto].
    destruct (IH None) as [e1 ->]; [|eauto].
    apply elem_of_cons in Hin as [->|Hin]; [congruence | eauto].
Qed.

Lemma compilePublic_ok (exprs : list string) (err err' : option error) (res : list Regexp) :
  compilePublic exprs err = inr (res, err') ->
  Forall2 (fun expr re => regexp_Compile expr = Ok re) exprs res
  /\ (err' = None \/ err' = err).
Proof.
  revert err res. induction exprs as [|x rest IH]; intros err res; cbn [compilePublic].
  - intros [= <- <-]. split; [constructor | by right].
  - destruct (regexp_Compile x) as [re|e] eqn:Hcompile; [|discriminate].
    destruct (compilePublic rest None) as [e|[res' err1]] eqn:Hrest; [discriminate|].
    intros [= <- <-]. destruct (IH None res' Hrest) as [Hall Herr]. split.
    + by constructor.
    + left. by destruct Herr.
Qed.

Lemma compilePublic_all (exprs : list string) :
  Forall (fun expr => exists re, regexp_Compile expr = Ok re) exprs ->
  exists res, compilePublic exprs None = inr (res, None).
Proof.
  induction 1 as [|x rest [re Hcompile] _ [res IH]]; cbn [compilePublic].
  - eauto.
  - rewrite Hcompile, IH. eauto.
Qed.

Lemma processItems_bad (l : list aclItem) (items : gmap string Regexp) :
  (exists it e, it ∈ l /\ regexp_Compile (Pattern it) = Err e) ->
  exists e, processItems l items = Err e.
Proof.
  revert items. induction l as [|x rest IH]; intros items (it & e & Hin & Hbad).
  - by apply elem_of_nil in Hin.
  - cbn [processItems]. destruct (regexp_Compile (Pattern x)) as [re|e'] eqn:Hc; [|eauto].
    apply IH. apply elem_of_cons in Hin as [->|Hin]; [congruence | eauto].
Qed.

Lemma processItems_other (l : list aclItem) (items items' : gmap string Regexp) (c : string) :
  processItems l items = Ok items' ->
  Forall (fun it => Claim it <> c) l ->
  items' !! c = items !! c.
Proof.
  revert items. induction l as [|x rest IH]; intros items; cbn [processItems].
  - by intros [= <-].
  - destruct (regexp_Compile (Pattern x)) as [re|e]; [|discriminate].
    intros Hrest Hall. apply Forall_cons in Hall as [Hx Hall].
    rewrite (IH _ Hrest Hall). by apply lookup_insert_ne.
Qed.

Lemma processItems_last (l1 l2 : list aclItem) (it : aclItem)
    (items items' : gmap string Regexp) :
  processItems (l1 ++ it :: l2) items = Ok items' ->
  Forall (fun it' => Claim it' <> Claim it) l2 ->
  exists re, regexp_Compile (Pattern it) = Ok re /\ items' !! Claim it = Some re.
Proof.
  revert items. induction l1 as [|x rest IH]; intros items; cbn [app processItems].
  - destruct (regexp_Compile (Pattern it)) as [re|e]; [|discriminate].
    intros Hrest Hall. exists re. split; [reflexivity|].
    rewrite (processItems_other _ _ _ _ Hrest Hall). apply lookup_insert_eq.
  - destruct (regexp_Compile (Pattern x)) as [re|e]; [|discriminate]. apply IH.
Qed.

Lemma processItems_source (l : list aclItem) (items items' : gmap string Regexp)
    (c : string) (re : Regexp) :
  processItems l items = Ok items' ->
  items' !! c = Some re ->
  items !! c = Some re
  \/ exists it, it ∈ l /\ Claim it = c /\ regexp_Compile (Pattern it) = Ok re.
Proof.
  revert items. induction l as [|x rest IH]; intros items; cbn [processItems].
  - intros [= <-]. by left.
  - destruct (regexp_Compile (Pattern x)) as [rx|e] eqn:Hc; [|discriminate].
    intros Hrest Hlook. destruct (IH _ Hrest Hlook) as [Hin|(it & Hin & Hcl & Hre)].
    + destruct (decide (Claim x = c)) as [Heq|Hne].
      * rewrite Heq, lookup_insert_eq in Hin. injection Hin as <-.
        right. exists x. split; [apply list_elem_of_here | by split].
      * rewrite lookup_insert_ne in Hin by exact Hne. by left.
    + right. exists it. split; [by apply list_elem_of_further | by split].
Qed.

Lemma loadACLFile_ok (file : string) (items items' : gmap string Regexp) :
  loadACLFile file items = Ok items' ->
  exists listData, ACL_items file listData /\ processItems listData items = Ok items'.
Proof.
  unfold loadACLFile, ACL_items.
  destruct (ioutil_ReadFile file) as [yamlData|e]; [|discriminate].
  destruct (yaml_Unmarshal yamlData) as [listData|e] eqn:Hyaml; [|discriminate].
  intros Hitems. exists listData. split; [|exact Hitems]. exists yamlData. by rewrite Hyaml.
Qed.

Lemma loadACLFile_items (file : string) (listData : list aclItem)
    (items : gmap string Regexp) :
  ACL_items file listData -> loadACLFile file items = processItems listData items.
Proof. intros (yamlData & Hread & Hyaml). unfold loadACLFile. by rewrite Hread, Hyaml. Qed.

Lemma loadACLFile_bad (file : string) (items : gmap string Regexp) :
  bad_ACL_file file -> exists e, loadACLFile file items = Err e.
Proof.
  intros [[e Hread]|[(yamlData & e & Hread & Hyaml)|(listData & it & e & Hitems & Hin & Hbad)]].
  - unfold loadACLFile. rewrite Hread. eauto.
  - unfold loadACLFile. rewrite Hread, Hyaml. eauto.
  - rewrite (loadACLFile_items _ _ _ Hitems). apply processItems_bad. eauto.
Qed.

Lemma loadACLFiles_bad (files : list string) (items : gmap string Regexp)
    (err : option error) :
  (exists file, file ∈ files /\ bad_ACL_file file) ->
  exists e, loadACLFiles files items err = inl e.
Proof.
  revert items err. induction files as [|f rest IH]; intros items err (file & Hin & Hbad).
  - by apply elem_of_nil in Hin.
  - cbn [loadACLFiles]. destruct (loadACLFile f items) as [items'|e] eqn:Hload; [|eauto].
    apply IH. apply elem_of_cons in Hin as [->|Hin]; [|eauto].
    destruct (loadACLFile_bad f items Hbad) as [e He]. congruence.
Qed.

Lemma loadACLFiles_ok (files : list string) (items items' : gmap string Regexp)
    (err err' : option error) :
  loadACLFiles files items err = inr (items', err') ->
  Forall (fun file => exists listData, ACL_items file listData) files
  /\ (err' = None \/ err' = err).
Proof.
  revert items err. induction files as [|f rest IH]; intros items err; cbn [loadACLFiles].
  - intros [= <- <-]. split; [constructor | by right].
  - destruct (loadACLFile f items) as [items1|e] eqn:Hload; [|discriminate].
    intros Hrest. destruct (IH _ _ Hrest) as [Hall Herr].
    destruct (loadACLFile_ok _ _ _ Hload) as (listData & Hitems & _). split.
    + constructor; [eauto | exact Hall].
    + left. by destruct Herr.
Qed.

Lemma loadACLFiles_other (files : list string) (items items' : gmap string Regexp)
    (err err' : option error) (c : string) :
  loadACLFiles files items err = inr (items', err') ->
  (forall file listData, file ∈ files -> ACL_items file listData ->
     Forall (fun it => Claim it <> c) listData) ->
  items' !! c = items !! c.
Proof.
  revert items err. induction files as [|f rest IH]; intros items err; cbn [loadACLFiles].
  - by intros [= <- <-].
  - destruct (loadACLFile f items) as [items1|e] eqn:Hload; [|discriminate].
    intros Hrest Hother. destruct (loadACLFile_ok _ _ _ Hload) as (listData & Hitems & Hproc).
    rewrite (IH _ _ Hrest).
    + eapply processItems_other; [exact Hproc|].
      apply (Hother f); [apply list_elem_of_here | exact Hitems].
    + intros file l Hin. apply Hother. by apply list_elem_of_further.
Qed.

Lemma ACL_items_unique (file : string) (l l' : list aclItem) :
  ACL_items file l -> ACL_items file l' -> l = l'.
Proof. intros (d & Hr & Hy) (d' & Hr' & Hy'). congruence. Qed.

Lemma loadACLFiles_last (fs1 fs2 : list string) (f : string) (l1 l2 : list aclItem)
    (it : aclItem) (items items' : gmap string Regexp) (err err' : option error) :
  loadACLFiles (fs1 ++ f :: fs2) items err = inr (items', err') ->
  ACL_items f (l1 ++ it :: l2) ->
  Forall (fun it' => Claim it' <> Claim it) l2 ->
  (forall file listData, file ∈ fs2 -> ACL_items file listData ->
     Forall (fun it' => Claim it' <> Claim it) listData) ->
  exists re, regexp_Compile (Pattern it) = Ok re /\ items' !! Claim it = Some re.
Proof.
  revert items err. induction fs1 as [|x rest IH]; intros items err; cbn [app loadACLFiles].
  - destruct (loadACLFile f items) as [items1|e] eqn:Hload; [|discriminate].
    intros Hrest Hitems Hl2 Hfs2.
    rewrite (loadACLFile_items _ _ _ Hitems) in Hload.
    destruct (processItems_last _ _ _ _ _ Hload Hl2) as (re & Hre & Hlook).
    exists re. split; [exact Hre|].
    rewrite (loadACLFiles_other _ _ _ _ _ _ Hrest Hfs2). exact Hlook.
  - destruct (loadACLFile x items) as [items1|e]; [|discriminate]. apply IH.
Qed.

Lemma loadACLFiles_source (files : list string) (items items' : gmap string Regexp)
    (err err' : option error) (c : string) (re : Regexp) :
  loadACLFiles files items err = inr (items', err') ->
  items' !! c = Some re ->
  items !! c = Some re
  \/ exists file listData it,
       file ∈ files /\ ACL_items file listData /\ it ∈ listData
       /\ Claim it = c /\ regexp_Compile (Pattern it) = Ok re.
Proof.
  revert items err. induction files as [|f rest IH]; intros items err; cbn [loadACLFiles].
  - intros [= <- <-]. by left.
  - destruct (loadACLFile f items) as [items1|e] eqn:Hload; [|discriminate].
    intros Hrest Hlook. destruct (loadACLFile_ok _ _ _ Hload) as (listData & Hitems & Hproc).
    destruct (IH _ _ Hrest Hlook) as [Hin|(file & l & it & Hin & Hl & Hit & Hc & Hre)].
    + destruct (processItems_source _ _ _ _ _ Hproc Hin) as [?|(it & Hit & Hc & Hre)];
        [by left|].
      right. exists f, listData, it. split; [apply list_elem_of_here|]. by repeat split.
    + right. exists file, l, it. split; [by apply list_elem_of_further|]. by repeat split.
Qed.

Lemma Build_fails_or_builds (b : HandlerBuilder) :
  (exists e, Build b = (None, Some e)) \/ (exists h err, Build b = (Some h, err)).
Proof.
  unfold Build.
  destruct (b_logger b); [|eauto]. destruct (b_next b); [|eauto].
  destruct (_ =? 0)%nat; [eauto|].
  destruct (checkKeysFiles _ _); [eauto|].
  destruct (checkKeysURLs _ _); [eauto|].
  destruct (compilePublic _ _) as [|[]]; [eauto|].
  destruct (loadACLFiles _ _ _) as [|[]]; eauto.
Qed.

Lemma Build_inv (b : HandlerBuilder) (h : Handler) (err : option error) :
  Build b = (Some h, err) ->
  exists lg nxt err1 err2 public err3 acl,
    b_logger b = Some lg /\ b_next b = Some nxt
    /\ (length (b_keysFiles b) + length (b_keysURLs b) <> 0)%nat
    /\ checkKeysFiles (b_keysFiles b) None = inr err1
    /\ checkKeysURLs (b_keysURLs b) err1 = inr err2
    /\ compilePublic (b_publicPaths b) err2 = inr (public, err3)
    /\ loadACLFiles (b_aclFiles b) ∅ err3 = inr (acl, err)
    /\ h = {| logger := lg; publicPaths := public; keysFiles := b_keysFiles b;
              keysURLs := b_keysURLs b;
              keysClient := {| RootCAs := b_keysCAs b;
                               InsecureSkipVerify := b_keysInsecure b |};
              keys := ∅; lastKeyReload := 0; aclItems := acl; next := nxt |}.
Proof.
  unfold Build.
  destruct (b_logger b) as [lg|]; [|discriminate].
  destruct (b_next b) as [nxt|]; [|discriminate].
  destruct (_ =? 0)%nat eqn:Hcount; [discriminate|]. apply Nat.eqb_neq in Hcount.
  destruct (checkKeysFiles _ _) as [|err1] eqn:Hfiles; [discriminate|].
  destruct (checkKeysURLs _ _) as [|err2] eqn:Hurls; [discriminate|].
  destruct (compilePublic _ _) as [|[public err3]] eqn:Hpublic; [discriminate|].
  destruct (loadACLFiles _ _ _) as [|[acl err4]] eqn:Hacl; [discriminate|].
  intros [= <- <-]. exists lg, nxt, err1, err2, public, err3, acl.
  repeat split; assumption.
Qed.

Lemma Build_no_handler (b : HandlerBuilder) :
  (forall h err, Build b <> (Some h, err)) ->
  fst (Build b) = None /\ is_Some (snd (Build b)).
Proof.
  intros Hno. destruct (Build_fails_or_builds b) as [[e ->]|(h & err & Heq)].
  - split; [reflexivity | by eexists].
  - by destruct (Hno h err).
Qed.

(** X1. [Build] returns no handler, and an error, when one of the keys
    files is not found by [os.Stat] or is not a regular file, whatever the
    rest of the configuration is. *)
Theorem Build_refuses_bad_keys_file (b : HandlerBuilder) :
  (exists file, file ∈ b_keysFiles b /\ bad_keys_file file) ->
  fst (Build b) = None /\ is_Some (snd (Build b)).
Proof.
  intros Hbad. apply Build_no_handler. intros h err Heq.
  destruct (Build_inv _ _ _ Heq) as (? & ? & ? & ? & ? & ? & ? & _ & _ & _ & Hfiles & _).
  destruct (checkKeysFiles_bad (b_keysFiles b) None Hbad) as [e He]. congruence.
Qed.

(** X2. [Build] returns no handler, and an error, when one of the keys
    URLs is rejected by [url.Parse]. *)
Theorem Build_refuses_unparsable_keys_URL (b : HandlerBuilder) :
  (exists addr e, addr ∈ b_keysURLs b /\ url_Parse addr = Err e) ->
  fst (Build b) = None /\ is_Some (snd (Build b)).
Proof.
  intros Hbad. apply Build_no_handler. intros h err Heq.
  destruct (Build_inv _ _ _ Heq)
    as (? & ? & err1 & ? & ? & ? & ? & _ & _ & _ & _ & Hurls & _).
  destruct (checkKeysURLs_unparsable (b_keysURLs b) err1 Hbad) as [e He]. congruence.
Qed.

(** X3. [Build] returns no handler, and an error, when one of the public
    path patterns does not compile. *)
Theorem Build_refuses_bad_public_path (b : HandlerBuilder) :
  (exists expr e, expr ∈ b_publicPaths b /\ regexp_Compile expr = Err e) ->
  fst (Build b) = None /\ is_Some (snd (Build b)).
Proof.
  intros Hbad. apply Build_no_handler. intros h err Heq.
  destruct (Build_inv _ _ _ Heq)
    as (? & ? & ? & err2 & ? & ? & ? & _ & _ & _ & _ & _ & Hpublic & _).
  destruct (compilePublic_bad (b_publicPaths b) err2 Hbad) as [e He]. congruence.
Qed.

(** X4. [Build] returns no handler, and an error, when one of the ACL
    files cannot be read, cannot be decoded, or has a pattern that does
    not compile. *)
Theorem Build_refuses_bad_ACL_file (b : HandlerBuilder) :
  (exists file, file ∈ b_aclFiles b /\ bad_ACL_file file) ->
  fst (Build b) = None /\ is_Some (snd (Build b)).
Proof.
  intros Hbad. apply Build_no_handler. intros h err Heq.
  destruct (Build_inv _ _ _ Heq)
    as (? & ? & ? & ? & ? & err3 & ? & _ & _ & _ & _ & _ & _ & Hacl & _).
  destruct (loadACLFiles_bad (b_aclFiles b) ∅ err3 Hbad) as [e He]. congruence.
Qed.

(** X5. A handler that [Build] returns has the logger and the next handler
    of the builder, its keys files and keys URLs, of which there is at
    least one; every keys file is a regular file and every keys URL is
    accepted by [url.Parse]; the public paths are the patterns of the
    builder compiled in the same order; every ACL file has been read; the
    key store is empty and no reload has been recorded. *)
Theorem Build_handler (b : HandlerBuilder) (h : Handler) (err : option error) :
  Build b = (Some h, err) ->
  b_logger b = Some (logger h)
  /\ b_next b = Some (next h)
  /\ keysFiles h = b_keysFiles b
  /\ keysURLs h = b_keysURLs b
  /\ (keysFiles h <> [] \/ keysURLs h <> [])
  /\ Forall (fun file => exists info, os_Stat file = Ok info /\ IsRegular info = true)
       (keysFiles h)
  /\ Forall (fun addr => exists parsed, url_Parse addr = Ok parsed) (keysURLs h)
  /\ Forall2 (fun expr re => regexp_Compile expr = Ok re) (b_publicPaths b) (publicPaths h)
  /\ Forall (fun file => exists listData, ACL_items file listData) (b_aclFiles b)
  /\ keysClient h = {| RootCAs := b_keysCAs b; InsecureSkipVerify := b_keysInsecure b |}
  /\ keys h = ∅
  /\ lastKeyReload h = 0.
Proof.
  intros Heq.
  destruct (Build_inv _ _ _ Heq)
    as (lg & nxt & err1 & err2 & public & err3 & acl
        & Hlg & Hnxt & Hcount & Hfiles & Hurls & Hpublic & Hacl & ->).
  cbn [logger next keysFiles keysURLs publicPaths keysClient keys lastKeyReload].
  repeat split; try assumption.
  - destruct (b_keysFiles b); [|by left]. destruct (b_keysURLs b); [|by right].
    by destruct Hcount.
  - exact (proj1 (checkKeysFiles_ok _ _ _ Hfiles)).
  - exact (checkKeysURLs_ok _ _ _ Hurls).
  - exact (proj1 (compilePublic_ok _ _ _ _ Hpublic)).
  - exact (proj1 (loadACLFiles_ok _ _ _ _ _ Hacl)).
Qed.

Lemma processItems_all (l : list aclItem) (items : gmap string Regexp) :
  Forall (fun it => exists re, regexp_Compile (Pattern it) = Ok re) l ->
  exists items', processItems l items = Ok items'.
Proof.
  intros Hall. revert items.
  induction Hall as [|x rest [re Hc] _ IH]; intros items; cbn [processItems].
  - eauto.
  - rewrite Hc. apply IH.
Qed.

Lemma loadACLFiles_all (files : list string) (items : gmap string Regexp) :
  Forall (fun file => exists listData,
            ACL_items file listData
            /\ Forall (fun it => exists re, regexp_Compile (Pattern it) = Ok re) listData)
    files ->
  exists items', loadACLFiles files items None = inr (items', None).
Proof.
  intros Hall. revert items.
  induction Hall as [|f rest (l & Hitems & Hl) _ IH]; intros items; cbn [loadACLFiles].
  - eauto.
  - rewrite (loadACLFile_items _ _ _ Hitems).
    destruct (processItems_all l items Hl) as [items1 ->]. apply IH.
Qed.

Lemma checkKeysFiles_all (files : list string) :
  Forall (fun file => exists info, os_Stat file = Ok info /\ IsRegular info = true) files ->
  checkKeysFiles files None = inr None.
Proof.
  induction 1 as [|f rest (info & Hstat & Hreg) _ IH]; cbn [checkKeysFiles].
  - reflexivity.
  - by rewrite Hstat, Hreg.
Qed.

(** X6. [Build] returns a handler and a nil error for every builder with a
    logger, a next handler, at least one keys file or keys URL, keys files
    that are regular files, keys URLs that parse with the scheme HTTPS in
    any letter case, public paths that compile and ACL files that can be
    read and decoded and whose patterns compile. *)
Theorem Build_succeeds (b : HandlerBuilder) :
  b_logger b <> None -> b_next b <> None ->
  (b_keysFiles b <> [] \/ b_keysURLs b <> []) ->
  Forall (fun file => exists info, os_Stat file = Ok info /\ IsRegular info = true)
    (b_keysFiles b) ->
  Forall (fun addr => exists parsed,
            url_Parse addr = Ok parsed /\ EqualFold (Scheme parsed) "https" = true)
    (b_keysURLs b) ->
  Forall (fun expr => exists re, regexp_Compile expr = Ok re) (b_publicPaths b) ->
  Forall (fun file => exists listData,
            ACL_items file listData
            /\ Forall (fun it => exists re, regexp_Compile (Pattern it) = Ok re) listData)
    (b_aclFiles b) ->
  exists h, Build b = (Some h, None).
Proof.
  intros Hlg Hnxt Hsource Hfiles Hurls Hpublic Hacl. unfold Build.
  destruct (b_logger b) as [lg|]; [|contradiction].
  destruct (b_next b) as [nxt|]; [|contradiction].
  assert ((length (b_keysFiles b) + length (b_keysURLs b) =? 0)%nat = false) as ->.
  { apply Nat.eqb_neq. destruct Hsource as [Hne|Hne].
    - destruct (b_keysFiles b); [contradiction | cbn; lia].
    - destruct (b_keysURLs b); [contradiction | cbn; lia]. }
  rewrite (checkKeysFiles_all _ Hfiles), (checkKeysURLs_https _ Hurls).
  destruct (compilePublic_all _ Hpublic) as [public ->].
  destruct (loadACLFiles_all _ ∅ Hacl) as [acl ->].
  eauto.
Qed.

(** X7. The ACL of a handler that [Build] returns comes from the ACL
    files: every entry is the compiled pattern of an item of some file for
    the claim of the entry; and an item that is the last one for its claim
    (no later item of its file and no item of a later file names the same
    claim) gives the entry for this claim, so later items override earlier
    ones. *)
Theorem Build_ACL (b : HandlerBuilder) (h : Handler) (err : option error) :
  Build b = (Some h, err) ->
  (forall c re, aclItems h !! c = Some re ->
     exists file listData it,
       file ∈ b_aclFiles b /\ ACL_items file listData /\ it ∈ listData
       /\ Claim it = c /\ regexp_Compile (Pattern it) = Ok re)
  /\ (forall fs1 f fs2 l1 it l2,
        b_aclFiles b = fs1 ++ f :: fs2 ->
        ACL_items f (l1 ++ it :: l2) ->
        Forall (fun it' => Claim it' <> Claim it) l2 ->
        (forall file listData, file ∈ fs2 -> ACL_items file listData ->
           Forall (fun it' => Claim it' <> Claim it) listData) ->
        exists re, regexp_Compile (Pattern it) = Ok re /\ aclItems h !! Claim it = Some re).
Proof.
  intros Heq.
  destruct (Build_inv _ _ _ Heq)
    as (lg & nxt & err1 & err2 & public & err3 & acl & _ & _ & _ & _ & _ & _ & Hacl & ->).
  cbn [aclItems]. split.
  - intros c re Hlook.
    destruct (loadACLFiles_source _ _ _ _ _ _ _ Hacl Hlook) as [Hempty|Hsource];
      [|exact Hsource].
    rewrite lookup_empty in Hempty. discriminate.
  - intros fs1 f fs2 l1 it l2 Hfiles Hitems Hl2 Hfs2. rewrite Hfiles in Hacl.
    exact (loadACLFiles_last _ _ _ _ _ _ _ _ _ _ Hacl Hitems Hl2 Hfs2).
Qed.

(** X8. A handler built without ACL file has an empty ACL, and [checkACL]
    then grants access to every claim set without sending anything. *)
Theorem Build_without_ACL_grants (b : HandlerBuilder) (h : Handler) (err : option error)
    (r : Request) (claims : gmap string JSONValue) (st : St) :
  Build b = (Some h, err) ->
  b_aclFiles b = [] ->
  hnd st = h ->
  aclItems h = ∅ /\ checkACL r claims st = (true, st).
Proof.
  intros Heq Hacl Hst.
  destruct (Build_inv _ _ _ Heq)
    as (lg & nxt & err1 & err2 & public & err3 & acl & _ & _ & _ & _ & _ & _ & Hload & ->).
  rewrite Hacl in Hload. cbn [loadACLFiles] in Hload. injection Hload as <- _.
  split; [reflexivity|].
  unfold checkACL, bind, gets, ret. rewrite Hst. cbn [aclItems].
  by rewrite map_size_empty.
Qed.

Lemma fold_KeysFile (values : list string) (b : HandlerBuilder) :
  fold_left (fun b v => KeysFile v b) values b
  = {| b_logger := b_logger b; b_publicPaths := b_publicPaths b;
       b_keysFiles := b_keysFiles b ++ filter (fun v => v <> EmptyString) values;
       b_keysURLs := b_keysURLs b; b_keysCAs := b_keysCAs b;
       b_keysInsecure := b_keysInsecure b; b_aclFiles := b_aclFiles b;
       b_next := b_next b |}.
Proof.
  revert b. induction values as [|v rest IH]; intros b; cbn [fold_left].
  - rewrite filter_nil, app_nil_r. by destruct b.
  - rewrite IH. unfold KeysFile. destruct (String.eqb_spec v EmptyString) as [->|Hne].
    + cbn [negb]. by rewrite filter_cons_False by (intros Hv; by apply Hv).
    + cbn [negb b_logger b_publicPaths b_keysFiles b_keysURLs b_keysCAs b_keysInsecure
           b_aclFiles b_next].
      by rewrite filter_cons_True, <- app_assoc by exact Hne.
Qed.

Lemma fold_KeysURL (values : list string) (b : HandlerBuilder) :
  fold_left (fun b v => KeysURL v b) values b
  = {| b_logger := b_logger b; b_publicPaths := b_publicPaths b;
       b_keysFiles := b_keysFiles b;
       b_keysURLs := b_keysURLs b ++ filter (fun v => v <> EmptyString) values;
       b_keysCAs := b_keysCAs b;
       b_keysInsecure := b_keysInsecure b; b_aclFiles := b_aclFiles b;
       b_next := b_next b |}.
Proof.
  revert b. induction values as [|v rest IH]; intros b; cbn [fold_left].
  - rewrite filter_nil, app_nil_r. by destruct b.
  - rewrite IH. unfold KeysURL. destruct (String.eqb_spec v EmptyString) as [->|Hne].
    + cbn [negb]. by rewrite filter_cons_False by (intros Hv; by apply Hv).
    + cbn [negb b_logger b_publicPaths b_keysFiles b_keysURLs b_keysCAs b_keysInsecure
           b_aclFiles b_next].
      by rewrite filter_cons_True, <- app_assoc by exact Hne.
Qed.

Lemma fold_ACLFile (values : list string) (b : HandlerBuilder) :
  fold_left (fun b v => ACLFile v b) values b
  = {| b_logger := b_logger b; b_publicPaths := b_publicPaths b;
       b_keysFiles := b_keysFiles b; b_keysURLs := b_keysURLs b;
       b_keysCAs := b_keysCAs b; b_keysInsecure := b_keysInsecure b;
       b_aclFiles := b_aclFiles b ++ filter (fun v => v <> EmptyString) values;
       b_next := b_next b |}.
Proof.
  revert b. induction values as [|v rest IH]; intros b; cbn [fold_left].
  - rewrite filter_nil, app_nil_r. by destruct b.
  - rewrite IH. unfold ACLFile. destruct (String.eqb_spec v EmptyString) as [->|Hne].
    + cbn [negb]. by rewrite filter_cons_False by (intros Hv; by apply Hv).
    + cbn [negb b_logger b_publicPaths b_keysFiles b_keysURLs b_keysCAs b_keysInsecure
           b_aclFiles b_next].
      by rewrite filter_cons_True, <- app_assoc by exact Hne.
Qed.

Lemma fold_Public (values : list string) (b : HandlerBuilder) :
  fold_left (fun b v => Public v b) values b
  = {| b_logger := b_logger b; b_publicPaths := b_publicPaths b ++ values;
       b_keysFiles := b_keysFiles b; b_keysURLs := b_keysURLs b;
       b_keysCAs := b_keysCAs b; b_keysInsecure := b_keysInsecure b;
       b_aclFiles := b_aclFiles b; b_next := b_next b |}.
Proof.
  revert b. induction values as [|v rest IH]; intros b; cbn [fold_left].
  - rewrite app_nil_r. by destruct b.
  - rewrite IH. unfold Public.
    cbn [b_logger b_publicPaths b_keysFiles b_keysURLs b_keysCAs b_keysInsecure
         b_aclFiles b_next].
    by rewrite <- app_assoc.
Qed.

(** X9. Calling [KeysFile] (or [KeysURL], or [ACLFile]) once for each
    value of a list appends to the keys files (keys URLs, ACL files) of the
    builder the values that are not empty, in the order of the calls, and
    changes nothing else; [Public] appends every value, the empty string
    included. *)
Theorem builder_lists_accumulate (values : list string) (b : HandlerBuilder) :
  let b1 := fold_left (fun b v => KeysFile v b) values b in
  let b2 := fold_left (fun b v => KeysURL v b) values b in
  let b3 := fold_left (fun b v => ACLFile v b) values b in
  let b4 := fold_left (fun b v => Public v b) values b in
  b_keysFiles b1 = b_keysFiles b ++ filter (fun v => v <> EmptyString) values
  /\ b1 = fold_left (fun b v => KeysFile v b) (filter (fun v => v <> EmptyString) values) b
  /\ b_keysURLs b2 = b_keysURLs b ++ filter (fun v => v <> EmptyString) values
  /\ b_aclFiles b3 = b_aclFiles b ++ filter (fun v => v <> EmptyString) values
  /\ b_publicPaths b4 = b_publicPaths b ++ values
  /\ (b_keysURLs b1 = b_keysURLs b /\ b_aclFiles b1 = b_aclFiles b
      /\ b_publicPaths b1 = b_publicPaths b)
  /\ (b_keysFiles b2 = b_keysFiles b /\ b_aclFiles b2 = b_aclFiles b
      /\ b_publicPaths b2 = b_publicPaths b)
  /\ (b_keysFiles b3 = b_keysFiles b /\ b_keysURLs b3 = b_keysURLs b
      /\ b_publicPaths b3 = b_publicPaths b)
  /\ (b_keysFiles b4 = b_keysFiles b /\ b_keysURLs b4 = b_keysURLs b
      /\ b_aclFiles b4 = b_aclFiles b).
Proof.
  cbn zeta. rewrite !fold_KeysFile, fold_KeysURL, fold_ACLFile, fold_Public.
  cbn [b_keysFiles b_keysURLs b_aclFiles b_publicPaths].
  rewrite list_filter_filter.
  repeat split. f_equal. f_equal. apply list_filter_iff. tauto.
Qed.

(** *** What loading keys does to the key store *)

Lemma readKey_store (kd : keyData) st :
  exists evs,
    readKey kd st = (tt, stepped st (store_record (keys (hnd st)) kd) evs)
    /\ Forall loader_event evs.
Proof.
  unfold readKey, bind, ret, store_record, accept.
  destruct (debugKey_appended kd st) as (evs0 & -> & Hevs0). rewrite appended_stepped.
  destruct (String.eqb (Kid kd) EmptyString);
    [|destruct (String.eqb (Kty kd) EmptyString);
      [|destruct (String.eqb (Alg kd) EmptyString);
        [|destruct (String.eqb (key_E kd) EmptyString)]]].
  1-4: rewrite logf_appended, appended_stepped, stepped_stepped;
       eexists; split; [reflexivity|]; loader_events.
  destruct (parseKey kd) as [key|e].
  - rewrite keys_Store_stepped, logf_appended, appended_stepped, !stepped_stepped.
    eexists; split; [reflexivity|]; loader_events.
  - rewrite logf_appended, appended_stepped, stepped_stepped.
    eexists; split; [reflexivity|]; loader_events.
Qed.

(** A loop whose body stores the records [recs x] stores, as a whole, the
    records of all its rounds. *)
Lemma for_each_store {A} (l : list A) (body : A -> M unit) (recs : A -> list keyData)
    (I : Handler -> Prop) :
  (forall h ks, I h -> I (with_keys h ks)) ->
  (forall x st, I (hnd st) ->
     exists evs,
       body x st = (tt, stepped st (fold_left store_record (recs x) (keys (hnd st))) evs)
       /\ Forall loader_event evs) ->
  forall st, I (hnd st) ->
    exists evs,
      for_each l body st
      = (tt, stepped st (fold_left store_record (concat (map recs l)) (keys (hnd st))) evs)
      /\ Forall loader_event evs.
Proof.
  intros HI Hbody. induction l as [|x l IH]; intros st Hst.
  - exists []. cbn. unfold ret. rewrite stepped_id. split; [reflexivity|constructor].
  - cbn [for_each map concat]. unfold bind. rewrite fold_left_app.
    destruct (Hbody x st Hst) as (evs1 & -> & Hev1).
    destruct (IH (stepped st (fold_left store_record (recs x) (keys (hnd st))) evs1))
      as (evs2 & -> & Hev2).
    { cbn. by apply HI. }
    rewrite stepped_stepped. exists (evs1 ++ evs2). split; [reflexivity|loader_events].
Qed.

Lemma concat_map_singleton {A} (l : list A) : concat (map (fun x => [x]) l) = l.
Proof. induction l as [|x l IH]; [reflexivity|]. simpl. f_equal. exact IH. Qed.

Lemma readKeys_store (reader : Reader) st :
  exists evs,
    snd (readKeys reader st)
    = stepped st (fold_left store_record (reader_records reader) (keys (hnd st))) evs
    /\ Forall loader_event evs.
Proof.
  unfold readKeys, reader_records. destruct (ReadAll reader) as [jsonData|e].
  2: { exists []. unfold ret. cbn. rewrite stepped_id. split; [reflexivity|constructor]. }
  destruct (json_Unmarshal jsonData) as [setData|e].
  2: { exists []. unfold ret. cbn. rewrite stepped_id. split; [reflexivity|constructor]. }
  unfold bind, ret.
  destruct (for_each_store (Keys setData) readKey (fun kd => [kd]) (fun _ => True))
    with (st := st) as (evs & Heq & Hevs);
    [exact (fun _ _ _ => Logic.I) | | exact Logic.I | ].
  - intros kd st1 _. apply readKey_store.
  - rewrite Heq. cbn [snd]. exists evs. split; [|exact Hevs].
    by rewrite concat_map_singleton.
Qed.

Lemma loadKeysFile_store (file : string) st :
  exists evs,
    snd (loadKeysFile file st)
    = stepped st (fold_left store_record (file_records file) (keys (hnd st))) evs
    /\ Forall loader_event evs.
Proof.
  unfold loadKeysFile, file_records. destruct (os_Open file) as [reader|e].
  - apply readKeys_store.
  - exists []. unfold ret. cbn. rewrite stepped_id. split; [reflexivity|constructor].
Qed.

Lemma loadKeysURL_store (addr : string) st :
  exists evs,
    snd (loadKeysURL addr st)
    = stepped st (fold_left store_record (URL_records (keysClient (hnd st)) addr)
                    (keys (hnd st))) evs
    /\ Forall loader_event evs.
Proof.
  unfold loadKeysURL, URL_records. destruct (http_NewRequest addr) as [e|].
  { exists []. unfold ret. cbn. rewrite stepped_id. split; [reflexivity|constructor]. }
  unfold bind, gets, ret.
  destruct (http_Do (keysClient (hnd st)) addr) as [response|e].
  2: { exists []. cbn. rewrite stepped_id. split; [reflexivity|constructor]. }
  destruct (readKeys_store (Body response) st) as (evs & Heq & Hevs).
  destruct (readKeys (Body response) st) as [res st1]. cbn [snd] in Heq. subst st1.
  destruct (Body_Close response) as [e|].
  - rewrite logf_appended, appended_stepped, stepped_stepped. cbn [snd].
    eexists. split; [reflexivity|]. loader_events.
  - cbn [snd]. eexists. split; [reflexivity|exact Hevs].
Qed.

Lemma loadKeys_store st :
  exists evs,
    loadKeys st
    = (None, stepped st (fold_left store_record (source_records (hnd st)) (keys (hnd st))) evs)
    /\ Forall loader_event evs.
Proof.
  unfold loadKeys, source_records, bind, gets, ret.
  match goal with |- context [for_each (keysFiles (hnd st)) ?body st] =>
  destruct (for_each_store (keysFiles (hnd st)) body file_records (fun _ => True))
    with (st := st) as (evs1 & -> & Hevs1);
    [exact (fun _ _ _ => Logic.I)| |exact Logic.I|]
  end.
  { intros file st1 _. unfold bind. rewrite logf_appended, appended_stepped.
    match goal with |- context [loadKeysFile file ?st2] =>
      destruct (loadKeysFile_store file st2) as (evs & Heq & Hevs);
      destruct (loadKeysFile file st2) as [res st3]
    end.
    cbn [snd] in Heq. subst st3. rewrite stepped_stepped.
    cbn [hnd stepped keys with_keys].
    destruct res as [e|].
    - rewrite logf_appended, appended_stepped, stepped_stepped.
      eexists. split; [reflexivity|]. loader_events.
    - eexists. split; [reflexivity|]. loader_events. }
  cbn [hnd stepped keysURLs with_keys].
  match goal with |- context [for_each (keysURLs (hnd st)) ?body ?st1] =>
  destruct (for_each_store (keysURLs (hnd st)) body (URL_records (keysClient (hnd st)))
              (fun h => keysClient h = keysClient (hnd st)))
    with (st := st1) as (evs2 & -> & Hevs2)
  end.
  { intros h ks Hh. exact Hh. }
  { intros url st1 Hclient. unfold bind. rewrite logf_appended, appended_stepped.
    match goal with |- context [loadKeysURL url ?st2] =>
      destruct (loadKeysURL_store url st2) as (evs & Heq & Hevs);
      destruct (loadKeysURL url st2) as [res st3]
    end.
    cbn [snd] in Heq. subst st3. rewrite stepped_stepped.
    cbn [hnd stepped keys with_keys keysClient]. rewrite Hclient.
    destruct res as [e|].
    - rewrite logf_appended, appended_stepped, stepped_stepped.
      eexists. split; [reflexivity|]. loader_events.
    - eexists. split; [reflexivity|]. loader_events. }
  { reflexivity. }
  rewrite stepped_stepped. cbn [hnd stepped keys with_keys]. rewrite fold_left_app.
  eexists. split; [reflexivity|]. loader_events.
Qed.

Lemma parseKey_Ok (kd : keyData) (key : PublicKey) :
  parseKey kd = Ok key
  <-> Kty kd = "RSA"
      /\ exists nb eb,
           DecodeString (key_N kd) = Ok nb /\ DecodeString (key_E kd) = Ok eb
           /\ key = {| N := SetBytes nb; E := Int64 (SetBytes eb) |}.
Proof.
  unfold parseKey. destruct (String.eqb_spec (Kty kd) "RSA") as [Hrsa|Hrsa]; cbn [negb].
  - destruct (DecodeString (key_N kd)) as [nb|e].
    + destruct (DecodeString (key_E kd)) as [eb|e].
      * split.
        -- intros [= <-]. split; [exact Hrsa|]. exists nb, eb. by repeat split.
        -- intros (_ & nb' & eb' & [= <-] & [= <-] & ->). reflexivity.
      * split; [discriminate|]. intros (_ & nb' & eb' & _ & [=] & _).
    + split; [discriminate|]. intros (_ & nb' & eb' & [=] & _).
  - split; [discriminate|]. intros [Heq _]. contradiction.
Qed.

Lemma accept_Some (kd : keyData) (key : PublicKey) :
  accept kd = Some key
  <-> Kid kd <> EmptyString /\ Alg kd <> EmptyString /\ key_E kd <> EmptyString
      /\ parseKey kd = Ok key.
Proof.
  unfold accept.
  destruct (String.eqb_spec (Kid kd) EmptyString) as [Hkid|Hkid].
  { split; [discriminate|]. intros (Hne & _). contradiction. }
  destruct (String.eqb_spec (Kty kd) EmptyString) as [Hkty|Hkty].
  { split; [discriminate|]. intros (_ & _ & _ & Hparse).
    apply parseKey_Ok in Hparse as [Hrsa _]. rewrite Hrsa in Hkty. discriminate. }
  destruct (String.eqb_spec (Alg kd) EmptyString) as [Halg|Halg].
  { split; [discriminate|]. intros (_ & Hne & _). contradiction. }
  destruct (String.eqb_spec (key_E kd) EmptyString) as [He|He].
  { split; [discriminate|]. intros (_ & _ & Hne & _). contradiction. }
  destruct (parseKey kd) as [key'|e].
  - split; [intros [= <-]; by repeat split | intros (_ & _ & _ & [= <-]); reflexivity].
  - split; [discriminate | intros (_ & _ & _ & [=])].
Qed.

Lemma fold_store_grows (l : list keyData) (ks : gmap string PublicKey) (k : string) :
  is_Some (ks !! k) -> is_Some (fold_left store_record l ks !! k).
Proof.
  revert ks. induction l as [|kd l IH]; intros ks Hk; [exact Hk|].
  cbn [fold_left]. apply IH. unfold store_record. destruct (accept kd) as [key|]; [|exact Hk].
  destruct (decide (Kid kd = k)) as [<-|Hne].
  - rewrite lookup_insert_eq. by eexists.
  - by rewrite lookup_insert_ne.
Qed.

Lemma fold_store_other (l : list keyData) (ks : gmap string PublicKey) (k : string) :
  Forall (fun kd => Kid kd <> k) l ->
  fold_left store_record l ks !! k = ks !! k.
Proof.
  intros Hall. revert ks. induction Hall as [|kd l Hkd _ IH]; intros ks; [reflexivity|].
  cbn [fold_left]. rewrite IH. unfold store_record.
  destruct (accept kd); [by apply lookup_insert_ne | reflexivity].
Qed.

Lemma fold_store_last (l1 l2 : list keyData) (kd : keyData) (key : PublicKey)
    (ks : gmap string PublicKey) :
  accept kd = Some key ->
  Forall (fun kd' => Kid kd' <> Kid kd) l2 ->
  fold_left store_record (l1 ++ kd :: l2) ks !! Kid kd = Some key.
Proof.
  intros Hacc Hl2. rewrite fold_left_app. cbn [fold_left].
  rewrite (fold_store_other _ _ _ Hl2). unfold store_record. rewrite Hacc.
  apply lookup_insert_eq.
Qed.

Lemma fold_store_source (l : list keyData) (ks : gmap string PublicKey)
    (k : string) (key : PublicKey) :
  fold_left store_record l ks !! k = Some key ->
  ks !! k = Some key \/ exists kd, kd ∈ l /\ Kid kd = k /\ accept kd = Some key.
Proof.
  revert ks. induction l as [|kd l IH]; intros ks; cbn [fold_left]; [by left|].
  intros Hlook. destruct (IH _ Hlook) as [Hin|(kd' & Hin & Hk & Hacc)].
  - unfold store_record in Hin. destruct (accept kd) as [key'|] eqn:Hacc; [|by left].
    destruct (decide (Kid kd = k)) as [Heq|Hne].
    + rewrite Heq, lookup_insert_eq in Hin. injection Hin as ->.
      right. exists kd. split; [apply list_elem_of_here | by split].
    + rewrite lookup_insert_ne in Hin by exact Hne. by left.
  - right. exists kd'. split; [by apply list_elem_of_further | by split].
Qed.

(** X10. [loadKeys] stores in the key store, in this order, the accepted
    records of the keys files and then of the keys URLs of the handler
    (a source that cannot be opened, read or decoded gives no record); it
    changes nothing else in the handler, does not read the clock, and its
    events are log lines and stored keys only. *)
Theorem loadKeys_stores_records (st : St) :
  exists evs,
    loadKeys st
    = (None,
       stepped st (fold_left store_record (source_records (hnd st)) (keys (hnd st))) evs)
    /\ Forall loader_event evs.
Proof. apply loadKeys_store. Qed.

(** X11. [loadKeys] never removes a key: a key identifier that is in the
    key store before is in it after (with the same key or a key loaded
    over it). *)
Theorem loadKeys_keeps_keys (st : St) (kid : string) :
  is_Some (keys (hnd st) !! kid) ->
  is_Some (keys (hnd (snd (loadKeys st))) !! kid).
Proof.
  intros Hkid. destruct (loadKeys_store st) as (evs & -> & _).
  cbn [snd hnd stepped keys with_keys]. by apply fold_store_grows.
Qed.

(** X12. A record of a key set with an identifier, the key type RSA, an
    algorithm, and a modulus and an exponent that decode (the exponent not
    empty) is in the key store after [readKeys], under its identifier and
    with the decoded numbers, when no later record of the document has the
    same identifier; and [readKeys] returns a nil error. *)
Theorem readKeys_stores_valid_record
    (reader : Reader) (jsonData : string) (set : setData)
    (l1 l2 : list keyData) (kd : keyData) (nb eb : list Z) (st : St) :
  ReadAll reader = Ok jsonData ->
  json_Unmarshal jsonData = Ok set ->
  Keys set = l1 ++ kd :: l2 ->
  Kid kd <> EmptyString -> Kty kd = "RSA" -> Alg kd <> EmptyString ->
  key_E kd <> EmptyString ->
  DecodeString (key_N kd) = Ok nb -> DecodeString (key_E kd) = Ok eb ->
  Forall (fun kd' => Kid kd' <> Kid kd) l2 ->
  fst (readKeys reader st) = None
  /\ keys (hnd (snd (readKeys reader st))) !! Kid kd
     = Some {| N := SetBytes nb; E := Int64 (SetBytes eb) |}.
Proof.
  intros Hread Hjson Hkeys Hkid Hrsa Halg He Hn Heb Hl2. split.
  - unfold readKeys. rewrite Hread, Hjson. unfold bind, ret.
    by destruct (for_each _ _ _).
  - destruct (readKeys_store reader st) as (evs & -> & _).
    cbn [hnd stepped keys with_keys].
    unfold reader_records. rewrite Hread, Hjson, Hkeys.
    apply fold_store_last; [|exact Hl2].
    apply accept_Some. repeat split; try assumption.
    apply parseKey_Ok. split; [exact Hrsa|]. exists nb, eb. by repeat split.
Qed.

(** X13. A key that is in the key store after [readKeys] was there before,
    or is the key of a record of the document that has an identifier, the
    key type RSA, an algorithm, and an exponent that is not empty, and whose
    modulus and exponent decode: records without identifier, key type,
    algorithm or exponent, of another key type, or that do not decode, are
    never stored. *)
Theorem readKeys_stores_only_accepted
    (reader : Reader) (st : St) (kid : string) (key : PublicKey) :
  keys (hnd (snd (readKeys reader st))) !! kid = Some key ->
  keys (hnd st) !! kid = Some key
  \/ exists jsonData set kd nb eb,
       ReadAll reader = Ok jsonData /\ json_Unmarshal jsonData = Ok set
       /\ kd ∈ Keys set /\ Kid kd = kid
       /\ Kid kd <> EmptyString /\ Kty kd = "RSA" /\ Alg kd <> EmptyString
       /\ key_E kd <> EmptyString
       /\ DecodeString (key_N kd) = Ok nb /\ DecodeString (key_E kd) = Ok eb
       /\ key = {| N := SetBytes nb; E := Int64 (SetBytes eb) |}.
Proof.
  destruct (readKeys_store reader st) as (evs & -> & _).
  cbn [hnd stepped keys with_keys]. intros Hlook.
  destruct (fold_store_source _ _ _ _ Hlook) as [Hold|(kd & Hin & Hk & Hacc)]; [by left|].
  right. unfold reader_records in Hin.
  destruct (ReadAll reader) as [jsonData|e] eqn:Hread; [|by apply elem_of_nil in Hin].
  destruct (json_Unmarshal jsonData) as [set|e] eqn:Hjson; [|by apply elem_of_nil in Hin].
  apply accept_Some in Hacc as (Hkid & Halg & He & Hparse).
  apply parseKey_Ok in Hparse as (Hrsa & nb & eb & Hn & Heb & ->).
  exists jsonData, set, kd, nb, eb.
  repeat split; first [assumption | reflexivity].
Qed.

(** *** Selecting a key *)

Lemma selectKey_hit (token : Token) (kid : string) (key : PublicKey) (st : St) :
  tok_Header token !! "kid" = Some (JString kid) ->
  keys (hnd st) !! kid = Some key ->
  selectKey token st = ((Some key, None), appended st [KeysLoad kid]).
Proof.
  intros Hkid Hkey. unfold selectKey. rewrite Hkid.
  cbv [bind keys_Load gets time_Since time_Now ret set_lastKeyReload].
  rewrite Hkey. reflexivity.
Qed.

Lemma selectKey_limited (token : Token) (kid : string) (st : St) :
  tok_Header token !! "kid" = Some (JString kid) ->
  keys (hnd st) !! kid = None ->
  time_Sub (clock (ticks st)) (lastKeyReload (hnd st)) <= 1 * Minute ->
  selectKey token st
  = ((None, no_key kid),
     {| hnd := hnd st; ticks := S (ticks st); trace := trace st ++ [KeysLoad kid] |}).
Proof.
  intros Hkid Hkey Hsince. unfold selectKey. rewrite Hkid.
  cbv [bind keys_Load gets time_Since time_Now ret set_lastKeyReload].
  rewrite Hkey. cbn [hnd ticks trace].
  destruct (_ >? _) eqn:Hgt; [|reflexivity].
  apply Z.gtb_lt in Hgt. lia.
Qed.

Lemma selectKey_reload (token : Token) (kid : string) (st : St) :
  tok_Header token !! "kid" = Some (JString kid) ->
  keys (hnd st) !! kid = None ->
  time_Sub (clock (ticks st)) (lastKeyReload (hnd st)) > 1 * Minute ->
  exists evs,
    selectKey token st
    = ((loaded_keys (hnd st) !! kid,
        match loaded_keys (hnd st) !! kid with Some _ => None | None => no_key kid end),
       {| hnd := with_lastKeyReload (with_keys (hnd st) (loaded_keys (hnd st)))
                   (clock (S (ticks st)));
          ticks := S (S (ticks st));
          trace := trace st ++ [KeysLoad kid] ++ evs ++ [KeysLoad kid] |})
    /\ Forall loader_event evs.
Proof.
  intros Hkid Hkey Hsince. unfold selectKey. rewrite Hkid.
  cbv [bind keys_Load gets time_Since time_Now ret set_lastKeyReload].
  rewrite Hkey. cbn [hnd ticks trace].
  match goal with |- context [?a >? ?b] =>
    assert ((a >? b) = true) as -> by (apply Z.gtb_lt; lia)
  end.
  match goal with |- context [loadKeys ?st1] =>
    destruct (loadKeys_store st1) as (evs & -> & Hevs)
  end.
  exists evs. split; [|exact Hevs].
  cbn [hnd ticks trace stepped keys with_keys with_lastKeyReload].
  rewrite <- !app_assoc. unfold loaded_keys.
  destruct (fold_left store_record (source_records (hnd st)) (keys (hnd st)) !! kid);
    reflexivity.
Qed.

(** X14. A miss followed by a reload finds a key that one of the sources
    publishes: when the key identifier of the token is not in the key
    store, the last reload is more than one minute old, and the records of
    the sources have a valid RSA record for this identifier that no later
    record overrides, [selectKey] returns the key of this record with a nil
    error, and records the time of the reload. *)
Theorem selectKey_finds_published_key
    (token : Token) (kid : string) (st : St)
    (l1 l2 : list keyData) (kd : keyData) (nb eb : list Z) :
  tok_Header token !! "kid" = Some (JString kid) ->
  keys (hnd st) !! kid = None ->
  time_Sub (clock (ticks st)) (lastKeyReload (hnd st)) > 1 * Minute ->
  source_records (hnd st) = l1 ++ kd :: l2 ->
  Kid kd = kid -> kid <> EmptyString ->
  Kty kd = "RSA" -> Alg kd <> EmptyString -> key_E kd <> EmptyString ->
  DecodeString (key_N kd) = Ok nb -> DecodeString (key_E kd) = Ok eb ->
  Forall (fun kd' => Kid kd' <> kid) l2 ->
  fst (selectKey token st)
  = (Some {| N := SetBytes nb; E := Int64 (SetBytes eb) |}, None)
  /\ lastKeyReload (hnd (snd (selectKey token st))) = clock (S (ticks st)).
Proof.
  intros Hkid Hkey Hsince Hrecords Hkd Hne Hrsa Halg He Hn Heb Hl2.
  destruct (selectKey_reload token kid st Hkid Hkey Hsince) as (evs & -> & _).
  cbn [fst snd hnd lastKeyReload with_lastKeyReload].
  assert (loaded_keys (hnd st) !! kid
          = Some {| N := SetBytes nb; E := Int64 (SetBytes eb) |}) as ->.
  { unfold loaded_keys. rewrite Hrecords, <- Hkd. apply fold_store_last.
    - apply accept_Some. rewrite Hkd. repeat split; try assumption.
      apply parseKey_Ok. split; [exact Hrsa|]. exists nb, eb. by repeat split.
    - by rewrite Hkd. }
  split; reflexivity.
Qed.

(** X15. The reload is rate limited: after a miss that reloaded the keys, a
    second miss whose reading of the clock is not more than one minute
    after the time recorded by the first one does not reload: it looks the
    key up once, fails with the error that names the key identifier, and
    leaves the key store and the time of the last reload as they are. *)
Theorem second_miss_does_not_reload
    (token1 token2 : Token) (kid1 kid2 : string) (st : St) :
  tok_Header token1 !! "kid" = Some (JString kid1) ->
  keys (hnd st) !! kid1 = None ->
  time_Sub (clock (ticks st)) (lastKeyReload (hnd st)) > 1 * Minute ->
  tok_Header token2 !! "kid" = Some (JString kid2) ->
  let st' := snd (selectKey token1 st) in
  keys (hnd st') !! kid2 = None ->
  time_Sub (clock (S (S (ticks st)))) (clock (S (ticks st))) <= 1 * Minute ->
  selectKey token2 st'
  = ((None, no_key kid2),
     {| hnd := hnd st'; ticks := S (ticks st'); trace := trace st' ++ [KeysLoad kid2] |}).
Proof.
  intros Hkid1 Hkey1 Hsince1 Hkid2 st' Hkey2 Hsince2.
  apply selectKey_limited; [exact Hkid2 | exact Hkey2 |].
  subst st'. destruct (selectKey_reload token1 kid1 st Hkid1 Hkey1 Hsince1) as (evs & -> & _).
  cbn [snd hnd ticks lastKeyReload with_lastKeyReload]. exact Hsince2.
Qed.

(** *** What a request leaves unchanged *)

Lemma follows_refl (st : St) : follows st st.
Proof.
  repeat split; try reflexivity; [by intros kid Hk | exists []; by rewrite app_nil_r].
Qed.

Lemma follows_trans (st1 st2 st3 : St) : follows st1 st2 -> follows st2 st3 -> follows st1 st3.
Proof.
  intros ((H1 & H2 & H3 & H4 & H5 & H6 & H7 & H8) & Ht & evs & Htr)
         ((G1 & G2 & G3 & G4 & G5 & G6 & G7 & G8) & Gt & evs' & Gtr).
  repeat split; try congruence.
  - intros kid Hk. by apply G8, H8.
  - lia.
  - exists (evs ++ evs'). rewrite Gtr, Htr. by rewrite app_assoc.
Qed.

Lemma follows_appended (st : St) (evs : list Event) : follows st (appended st evs).
Proof.
  repeat split; try reflexivity; [by intros kid Hk | by exists evs].
Qed.

Lemma sendError_follows (r : Request) (format : string) (args : list string) (st : St) :
  follows st (snd (sendError r format args st)).
Proof.
  destruct (sendError_shape r format args st) as (hdr & body & -> & _).
  apply follows_appended.
Qed.

Lemma selectKey_follows (token : Token) (st : St) :
  follows st (snd (selectKey token st)).
Proof.
  destruct (tok_Header token !! "kid") as [[| | |kid| |]|] eqn:Hkid;
    try (unfold selectKey; rewrite Hkid; apply follows_refl).
  destruct (keys (hnd st) !! kid) as [key|] eqn:Hkey.
  { rewrite (selectKey_hit token kid key st Hkid Hkey). apply follows_appended. }
  destruct (Z_le_gt_dec (time_Sub (clock (ticks st)) (lastKeyReload (hnd st))) (1 * Minute))
    as [Hle|Hgt].
  - rewrite (selectKey_limited token kid st Hkid Hkey Hle). cbn [snd].
    repeat split; try reflexivity; cbn [ticks trace]; [by intros k Hk | lia | by eexists].
  - destruct (selectKey_reload token kid st Hkid Hkey Hgt) as (evs & -> & _). cbn [snd].
    repeat split; try reflexivity; cbn [ticks trace hnd]; [| lia | by eexists].
    intros k Hk. cbn [keys with_keys with_lastKeyReload]. by apply fold_store_grows.
Qed.

Lemma checkToken_follows (r : Request) (bearer : string) (st : St) :
  follows st (snd (checkToken r bearer st)).
Proof.
  unfold checkToken, ParseWithClaims, bind, ret.
  destruct (jwt_ParseUnverified bearer) as [token|err].
  - pose proof (selectKey_follows token st) as Hsel.
    destruct (selectKey token st) as [[key kerr] st1]. cbn [fst snd] in *.
    destruct kerr as [e|].
    + cbn [fst snd]. rewrite run_snd. cbn [snd].
      eapply follows_trans; [exact Hsel | apply sendError_follows].
    + destruct (_ =? 0); cbn [fst snd]; [exact Hsel|].
      rewrite run_snd. cbn [snd].
      eapply follows_trans; [exact Hsel | apply sendError_follows].
  - cbn [fst snd]. rewrite run_snd. cbn [snd]. apply sendError_follows.
Qed.

(** X16. A request changes nothing in the configuration of the handler:
    after [ServeHTTP] the logger, the public paths, the keys files and
    URLs, the client, the ACL and the next handler are the same; no key has
    left the key store; the clock has not gone back and the trace is the
    former trace followed by the events of the request. *)
Theorem ServeHTTP_keeps_configuration (r : Request) (st : St) :
  follows st (snd (ServeHTTP r st)).
Proof.
  unfold ServeHTTP, bind, gets, ret.
  destruct (existsb _ _); [apply follows_appended|].
  destruct (String.eqb _ EmptyString); [apply sendError_follows|].
  destruct (negb (_ =? 3)%nat); [apply sendError_follows|].
  destruct (negb (EqualFold _ "Bearer")); [apply sendError_follows|].
  match goal with |- context [checkToken r ?bearer st] =>
    pose proof (checkToken_follows r bearer st) as Htoken;
    destruct (checkToken r bearer st) as [[[token claims] ok] st1]
  end.
  cbn [snd] in Htoken. destruct ok; cbn [negb]; [|exact Htoken].
  destruct (checkClaims_outcome r claims st1) as [->|(format & args & ->)]; cbn [negb].
  2: { cbn [snd]. eapply follows_trans; [exact Htoken | apply sendError_follows]. }
  destruct (checkACL_outcome r claims st1) as [->| ->]; cbn [negb].
  2: { cbn [snd]. eapply follows_trans; [exact Htoken | apply sendError_follows]. }
  eapply follows_trans; [exact Htoken | apply follows_appended].
Qed.

(** *** Requests with a bearer token *)

Lemma ServeHTTP_bearer (r : Request) (bearer : string) (st : St) :
  bearer_request (hnd st) r bearer ->
  ServeHTTP r st
  = (res <- checkToken r bearer ;;
     let '(token, claims, ok) := res in
     if negb ok then ret tt
     else
       ok <- checkClaims r claims ;;
       if negb ok then ret tt
       else
         ok <- checkACL r claims ;;
         if negb ok then ret tt
         else emit (ServeNext (WithToken r token))) st.
Proof.
  intros (Hprivate & Hheader & m0 & typ & Hmatch & Hfold).
  unfold ServeHTTP at 1. unfold bind at 1. unfold gets.
  rewrite (existsb_public_false _ _ Hprivate).
  apply String.eqb_neq in Hheader. rewrite Hheader, Hmatch.
  cbn [length Nat.eqb negb nth]. rewrite Hfold. reflexivity.
Qed.

Lemma checkToken_valid (r : Request) (bearer : string) (token : Token) (kid : string)
    (key : PublicKey) (st : St) :
  jwt_ParseUnverified bearer = inl token ->
  tok_Header token !! "kid" = Some (JString kid) ->
  keys (hnd st) !! kid = Some key ->
  jwt_Validate token (Some key) = 0 ->
  checkToken r bearer st
  = ((Some token, tok_Claims token, true), appended st [KeysLoad kid]).
Proof.
  intros Hparse Hkid Hkey Hvalid. unfold checkToken, ParseWithClaims, bind, ret.
  rewrite Hparse, (selectKey_hit token kid key st Hkid Hkey). cbn [fst snd].
  rewrite Hvalid. reflexivity.
Qed.

Lemma checkClaims_accepts (r : Request) (claims : gmap string JSONValue) (st : St) :
  typ_ok claims -> time_ok claims "iat" -> time_ok claims "exp" ->
  checkClaims r claims st = (true, st).
Proof.
  intros (typ & Htyp & Hfold) (iat & Hiat) (exp & Hexp).
  rewrite checkClaims_eq, Htyp, Hfold, Hiat, Hexp. reflexivity.
Qed.

Lemma checkACL_grants (r : Request) (claims : gmap string JSONValue) (st : St) :
  ACL_grants (hnd st) claims -> checkACL r claims st = (true, st).
Proof.
  intros Hgrants. unfold checkACL, bind, gets, ret.
  destruct (size (aclItems (hnd st)) =? 0)%nat eqn:Hsize; [reflexivity|].
  destruct Hgrants as [Hempty|(claim & pattern & text & Hitem & Hclaim & Hmatch)].
  - rewrite Hempty, map_size_empty in Hsize. discriminate.
  - assert (matchACL (map_to_list (aclItems (hnd st))) claims = true) as ->; [|reflexivity].
    apply matchACL_true. exists claim, pattern, text.
    split; [by apply elem_of_map_to_list | by split].
Qed.

Lemma checkACL_denies (r : Request) (claims : gmap string JSONValue) (st : St) :
  ~ ACL_grants (hnd st) claims ->
  checkACL r claims st = (false, snd (sendError r "Access denied" [] st)).
Proof.
  intros Hdenied. destruct (checkACL_outcome r claims st) as [Hgranted|Heq]; [|exact Heq].
  destruct Hdenied. unfold ACL_grants.
  unfold checkACL, bind, gets, ret in Hgranted.
  destruct (size (aclItems (hnd st)) =? 0)%nat eqn:Hsize.
  - left. apply Nat.eqb_eq in Hsize. by apply map_size_empty_iff.
  - right. destruct (matchACL _ _) eqn:Hmatch.
    + apply matchACL_true in Hmatch as (c & p & t & Hin & Hc & Hm).
      exists c, p, t. split; [by apply elem_of_map_to_list | by split].
    + rewrite run_snd in Hgranted. discriminate.
Qed.

(** X17. A request for a path that is not public, with the header
    [Authorization: Bearer <token>] (the scheme in any letter case), whose
    token has a key identifier that is in the key store, is valid for the
    parser with this key, has the claims [typ], [iat] and [exp] of the
    right form and is granted by the ACL, reaches the next handler with the
    token attached to the request; the only other event is the lookup of
    the key, no response is sent, and the handler and the clock are
    unchanged. *)
Theorem ServeHTTP_forwards_valid_token
    (r : Request) (bearer : string) (token : Token) (kid : string) (key : PublicKey)
    (st : St) :
  bearer_request (hnd st) r bearer ->
  jwt_ParseUnverified bearer = inl token ->
  tok_Header token !! "kid" = Some (JString kid) ->
  keys (hnd st) !! kid = Some key ->
  jwt_Validate token (Some key) = 0 ->
  typ_ok (tok_Claims token) ->
  time_ok (tok_Claims token) "iat" -> time_ok (tok_Claims token) "exp" ->
  ACL_grants (hnd st) (tok_Claims token) ->
  ServeHTTP r st
  = (tt, appended st [KeysLoad kid; ServeNext (WithToken r (Some token))]).
Proof.
  intros Hreq Hparse Hkid Hkey Hvalid Htyp Hiat Hexp Hacl.
  rewrite (ServeHTTP_bearer r bearer st Hreq). unfold bind at 1.
  rewrite (checkToken_valid r bearer token kid key st Hparse Hkid Hkey Hvalid).
  cbn [negb]. unfold bind at 1. rewrite (checkClaims_accepts _ _ _ Htyp Hiat Hexp).
  cbn [negb]. unfold bind at 1. rewrite (checkACL_grants r _ (appended st [KeysLoad kid]) Hacl).
  cbn [negb]. rewrite emit_appended, appended_app. reflexivity.
Qed.

(** X18. The same request with a valid token that the ACL does not grant
    (the ACL is not empty and no entry matches a string claim of the
    token) gets, after the lookup of the key, the 401 response with the
    reason "Access denied", and the next handler is not called. *)
Theorem ServeHTTP_denies_access
    (r : Request) (bearer : string) (token : Token) (kid : string) (key : PublicKey)
    (st : St) :
  bearer_request (hnd st) r bearer ->
  jwt_ParseUnverified bearer = inl token ->
  tok_Header token !! "kid" = Some (JString kid) ->
  keys (hnd st) !! kid = Some key ->
  jwt_Validate token (Some key) = 0 ->
  typ_ok (tok_Claims token) ->
  time_ok (tok_Claims token) "iat" -> time_ok (tok_Claims token) "exp" ->
  ~ ACL_grants (hnd st) (tok_Claims token) ->
  sends_401 "Access denied" (appended st [KeysLoad kid]) (snd (ServeHTTP r st)).
Proof.
  intros Hreq Hparse Hkid Hkey Hvalid Htyp Hiat Hexp Hacl.
  rewrite (ServeHTTP_bearer r bearer st Hreq). unfold bind at 1.
  rewrite (checkToken_valid r bearer token kid key st Hparse Hkid Hkey Hvalid).
  cbn [negb]. unfold bind at 1. rewrite (checkClaims_accepts _ _ _ Htyp Hiat Hexp).
  cbn [negb]. unfold bind at 1. rewrite (checkACL_denies r _ (appended st [KeysLoad kid]) Hacl).
  cbn [negb ret snd].
  exact (proj2 (sendError_sends_401 r "Access denied" [] (appended st [KeysLoad kid]))).
Qed.

(** X19. When [selectKey] fails for the token of such a request (no key
    identifier, a key identifier that is not a string, or no key for it
    after the lookup and the possible reload), the client gets the 401
    response with the reason "Bearer token can't be verified": the error of
    [selectKey] is not sent, and the next handler is not called. *)
Theorem ServeHTTP_key_error
    (r : Request) (bearer : string) (token : Token) (e : error) (st : St) :
  bearer_request (hnd st) r bearer ->
  jwt_ParseUnverified bearer = inl token ->
  snd (fst (selectKey token st)) = Some e ->
  sends_401 "Bearer token can't be verified"
    (snd (selectKey token st)) (snd (ServeHTTP r st)).
Proof.
  intros Hreq Hparse Herr.
  rewrite (ServeHTTP_bearer r bearer st Hreq). unfold bind at 1.
  unfold checkToken, ParseWithClaims. rewrite Hparse. unfold bind, ret.
  destruct (selectKey token st) as [[key kerr] st1]. cbn [fst snd] in Herr |- *.
  subst kerr. cbn [fst snd]. rewrite run_snd. cbn [negb snd].
  exact (proj2 (sendError_sends_401 r "Bearer token can't be verified" [] st1)).
Qed.

Lemma has_flag_testbit (errors n : Z) :
  0 <= n -> has_flag errors (Z.shiftl 1 n) = Z.testbit errors n.
Proof.
  intros Hn. unfold has_flag. rewrite Z.shiftl_1_l.
  destruct (Z.testbit errors n) eqn:Hbit.
  - apply negb_true_iff, Z.eqb_neq. intros Hzero.
    assert (Z.testbit (Z.land errors (2 ^ n)) n = true) as Hland.
    { rewrite Z.land_spec, Hbit, Z.pow2_bits_true by exact Hn. reflexivity. }
    rewrite Hzero, Z.bits_0 in Hland. discriminate.
  - apply negb_false_iff, Z.eqb_eq. apply Z.bits_inj'. intros m Hm.
    rewrite Z.land_spec, Z.bits_0, Z.pow2_bits_eqb by exact Hn.
    destruct (Z.eqb_spec n m) as [<-|Hne]; [by rewrite Hbit | apply andb_false_r].
Qed.

Lemma checkToken_invalid (r : Request) (bearer : string) (token : Token) (kid : string)
    (key : PublicKey) (st : St) :
  jwt_ParseUnverified bearer = inl token ->
  tok_Header token !! "kid" = Some (JString kid) ->
  keys (hnd st) !! kid = Some key ->
  jwt_Validate token (Some key) <> 0 ->
  exists msg,
    checkToken r bearer st
    = ((Some token, tok_Claims token, false),
       snd (sendError r
              (tokenErrorReason (ValidationError (jwt_Validate token (Some key)) msg)) []
              (appended st [KeysLoad kid]))).
Proof.
  intros Hparse Hkid Hkey Hinvalid. unfold checkToken, ParseWithClaims, bind, ret.
  rewrite Hparse, (selectKey_hit token kid key st Hkid Hkey). cbn [fst snd].
  apply Z.eqb_neq in Hinvalid. rewrite Hinvalid. cbn [fst snd]. rewrite run_snd.
  eexists. reflexivity.
Qed.

(** X20. For such a request whose token has a key in the key store and is
    refused by the validation of the parser, the reason of the 401 response
    is chosen by the first flag set in the order: malformed, cannot be
    verified, signature, expired, issued in the future, not valid yet.  So
    a token with a bad signature is reported as such even when it is also
    expired, an expired token with a good signature is reported as expired
    even when other claims are also refused, and a token refused only for
    other reasons gets the general message. *)
Theorem ServeHTTP_validation_reason
    (r : Request) (bearer : string) (token : Token) (kid : string) (key : PublicKey)
    (st : St) :
  bearer_request (hnd st) r bearer ->
  jwt_ParseUnverified bearer = inl token ->
  tok_Header token !! "kid" = Some (JString kid) ->
  keys (hnd st) !! kid = Some key ->
  let flags := jwt_Validate token (Some key) in
  let bit := Z.testbit flags in
  let rejected reason :=
    sends_401 reason (appended st [KeysLoad kid]) (snd (ServeHTTP r st)) in
  flags <> 0 ->
  bit 0 = false -> bit 1 = false ->
  (bit 2 = true -> rejected "Signature of bearer token isn't valid")
  /\ (bit 2 = false -> bit 4 = true -> rejected "Bearer token is expired")
  /\ (bit 2 = false -> bit 4 = false -> bit 5 = true ->
      rejected "Bearer token was issued in the future")
  /\ (bit 2 = false -> bit 4 = false -> bit 5 = false -> bit 7 = true ->
      rejected "Bearer token isn't valid yet")
  /\ (bit 2 = false -> bit 4 = false -> bit 5 = false -> bit 7 = false ->
      rejected "Bearer token isn't valid").
Proof.
  intros Hreq Hparse Hkid Hkey flags bit rejected Hinvalid H0 H1.
  assert (Hreason : forall reason,
            Sprintf reason [] = reason ->
            (forall msg, tokenErrorReason (ValidationError flags msg) = reason) ->
            rejected reason).
  { intros reason Hplain Hreason. subst rejected. cbn beta.
    rewrite (ServeHTTP_bearer r bearer st Hreq). unfold bind at 1.
    destruct (checkToken_invalid r bearer token kid key st Hparse Hkid Hkey Hinvalid)
      as [msg ->].
    cbn [negb ret snd]. fold flags. rewrite (Hreason msg).
    pose proof (proj2 (sendError_sends_401 r reason [] (appended st [KeysLoad kid])))
      as Hsent.
    rewrite Hplain in Hsent. exact Hsent. }
  assert (Hflag : forall n, 0 <= n -> has_flag flags (Z.shiftl 1 n) = bit n).
  { intros n Hn. apply has_flag_testbit. exact Hn. }
  unfold tokenErrorReason, ValidationErrorMalformed, ValidationErrorUnverifiable,
    ValidationErrorSignatureInvalid, ValidationErrorExpired, ValidationErrorIssuedAt,
    ValidationErrorNotValidYet in Hreason.
  repeat split; intros; (apply Hreason; [reflexivity|]); intros msg;
    rewrite !Hflag by lia;
    repeat match goal with
           | Hb : bit _ = _ |- _ => rewrite Hb
           end; reflexivity.
Qed.

(** X21. When the body of the response of a keys URL cannot be closed,
    [loadKeysURL] still returns what [readKeys] returned for the body, and
    the keys are those that [readKeys] stored; the error of the close is
    only logged, after the keys are read. *)
Theorem loadKeysURL_close_error
    (addr : string) (response : Response) (e : error) (st : St) :
  http_NewRequest addr = None ->
  http_Do (keysClient (hnd st)) addr = Ok response ->
  Body_Close response = Some e ->
  loadKeysURL addr st
  = (fst (readKeys (Body response) st),
     appended (snd (readKeys (Body response) st))
       [Log LevelError
          ("Can't close response body for request to '" +:+ addr +:+ "': " +:+ e)]).
Proof.
  intros Hrequest Hdo Hclose. unfold loadKeysURL. rewrite Hrequest.
  unfold bind, gets, ret. rewrite Hdo.
  destruct (readKeys (Body response) st) as [res st1]. rewrite Hclose.
  rewrite logf_appended. cbn [fst snd]. do 3 f_equal.
  cbn. rewrite append_empty_r. reflexivity.
Qed.

(** *** The generated builder of registries *)

Lemma Registry_fold_last_pointer {A} (f : Registry.RegistryBuilder -> option A)
    (pick : Registry.Call -> option A) (calls : list Registry.Call)
    (b : Registry.RegistryBuilder) :
  (forall b c, f (Registry.call b c)
               = match pick c with Some v => Some v | None => f b end) ->
  f (fold_left Registry.call calls b)
  = match Registry.last_value pick calls with Some v => Some v | None => f b end.
Proof.
  intros Hcall. unfold Registry.last_value.
  induction calls as [|c calls IH] using rev_ind; [reflexivity|].
  rewrite fold_left_app, omap_app. cbn [fold_left]. rewrite Hcall, IH.
  change (omap pick [c]) with (match pick c with Some v => [v] | None => [] end).
  destruct (pick c) as [v|].
  - by rewrite last_snoc.
  - by rewrite app_nil_r.
Qed.

Lemma Registry_fold_last_flag (f : Registry.RegistryBuilder -> bool)
    (pick : Registry.Call -> option bool) (calls : list Registry.Call)
    (b : Registry.RegistryBuilder) :
  (forall b c, f (Registry.call b c) = default (f b) (pick c)) ->
  f (fold_left Registry.call calls b) = default (f b) (Registry.last_value pick calls).
Proof.
  intros Hcall. unfold Registry.last_value.
  induction calls as [|c calls IH] using rev_ind; [reflexivity|].
  rewrite fold_left_app, omap_app. cbn [fold_left]. rewrite Hcall, IH.
  change (omap pick [c]) with (match pick c with Some v => [v] | None => [] end).
  destruct (pick c) as [v|].
  - by rewrite last_snoc.
  - by rewrite app_nil_r.
Qed.

Lemma Registry_Build_copies (b : Registry.RegistryBuilder) :
  Registry.Build b
  = (Some {| Registry.id := Registry.b_id b; Registry.href := Registry.b_href b;
             Registry.link := Registry.b_link b; Registry.name := Registry.b_name b;
             Registry.url := Registry.b_url b;
             Registry.teamName := Registry.b_teamName b;
             Registry.orgName := Registry.b_orgName b;
             Registry.type_ := Registry.b_type_ b;
             Registry.cloudAlias := Registry.b_cloudAlias b |},
     None).
Proof.
  destruct b as [i h l [n|] [u|] [t|] [o|] [ty|] [c|]]; vm_compute; reflexivity.
Qed.

(** X22. After any sequence of calls of the setters on a new registry
    builder, [Build] returns a nil error and an object in which every
    attribute has the value of the last call of its setter, and is unset
    (false for the link flag) when its setter was never called: the calls
    for different attributes do not interfere, whatever their order. *)
Theorem Registry_Build_last_calls (calls : list Registry.Call) :
  exists object,
    Registry.Build (fold_left Registry.call calls Registry.NewRegistry) = (Some object, None)
    /\ Registry.id object
       = Registry.last_value
           (fun c => match c with Registry.CallID v => Some v | _ => None end) calls
    /\ Registry.href object
       = Registry.last_value
           (fun c => match c with Registry.CallHREF v => Some v | _ => None end) calls
    /\ Registry.link object
       = default false
           (Registry.last_value
              (fun c => match c with Registry.CallLink v => Some v | _ => None end) calls)
    /\ Registry.name object
       = Registry.last_value
           (fun c => match c with Registry.CallName v => Some v | _ => None end) calls
    /\ Registry.url object
       = Registry.last_value
           (fun c => match c with Registry.CallURL v => Some v | _ => None end) calls
    /\ Registry.teamName object
       = Registry.last_value
           (fun c => match c with Registry.CallTeamName v => Some v | _ => None end) calls
    /\ Registry.orgName object
       = Registry.last_value
           (fun c => match c with Registry.CallOrgName v => Some v | _ => None end) calls
    /\ Registry.type_ object
       = Registry.last_value
           (fun c => match c with Registry.CallType v => Some v | _ => None end) calls
    /\ Registry.cloudAlias object
       = Registry.last_value
           (fun c => match c with Registry.CallCloudAlias v => Some v | _ => None end) calls.
Proof.
  rewrite Registry_Build_copies. eexists. split; [reflexivity|].
  cbn [Registry.id Registry.href Registry.link Registry.name Registry.url
       Registry.teamName Registry.orgName Registry.type_ Registry.cloudAlias].
  repeat split.
  3: { rewrite (Registry_fold_last_flag Registry.b_link
                  (fun c => match c with Registry.CallLink v => Some v | _ => None end));
       [reflexivity | by intros b []]. }
  all: match goal with
       | |- ?f (fold_left _ _ _) = Registry.last_value ?pick _ =>
           rewrite (Registry_fold_last_pointer f pick); [|by intros b []];
           by destruct (Registry.last_value pick calls)
       end.
Qed.

(** X23. The keys are loaded with the first token: on a handler as
    [Build] returns it (empty key store, no reload recorded), when the
    clock reads more than one minute, [selectKey] for a token with a key
    identifier runs [loadKeys], and the key store afterwards holds exactly
    the accepted records of the sources; the key of the token is returned
    when it is among them, and the error naming the identifier otherwise. *)
Theorem first_token_loads_keys
    (b : HandlerBuilder) (h : Handler) (err : option error)
    (token : Token) (kid : string) (st : St) :
  Build b = (Some h, err) ->
  hnd st = h ->
  clock (ticks st) > 1 * Minute ->
  tok_Header token !! "kid" = Some (JString kid) ->
  let loaded := fold_left store_record (source_records h) ∅ in
  fst (selectKey token st)
  = (loaded !! kid, match loaded !! kid with Some _ => None | None => no_key kid end)
  /\ keys (hnd (snd (selectKey token st))) = loaded
  /\ lastKeyReload (hnd (snd (selectKey token st))) = clock (S (ticks st)).
Proof.
  intros Hbuild Hst Hclock Hkid loaded.
  destruct (Build_inv _ _ _ Hbuild)
    as (lg & nxt & err1 & err2 & public & err3 & acl & _ & _ & _ & _ & _ & _ & _ & Hh).
  assert (Hkeys : keys (hnd st) = ∅) by (rewrite Hst, Hh; reflexivity).
  assert (Hlast : lastKeyReload (hnd st) = 0) by (rewrite Hst, Hh; reflexivity).
  assert (Hmiss : keys (hnd st) !! kid = None) by (rewrite Hkeys; apply lookup_empty).
  assert (Hsince : time_Sub (clock (ticks st)) (lastKeyReload (hnd st)) > 1 * Minute).
  { rewrite Hlast. unfold time_Sub, Minute in *. lia. }
  destruct (selectKey_reload token kid st Hkid Hmiss Hsince) as (evs & -> & _).
  cbn [fst snd hnd keys lastKeyReload with_keys with_lastKeyReload].
  assert (loaded_keys (hnd st) = loaded) as ->.
  { unfold loaded_keys, loaded. by rewrite Hkeys, Hst. }
  repeat split.
Qed.

(** X24. When the parser cannot decode the token of such a request (an
    error that is not a validation error, or a validation error with the
    flag of a malformed token), the client gets the 401 response with the
    reason "Bearer token is malformed", and nothing else happens: no key is
    looked up, the keys are not reloaded, the clock is not read and the
    next handler is not called. *)
Theorem ServeHTTP_undecodable_token
    (r : Request) (bearer : string) (err : jwt_error) (st : St) :
  bearer_request (hnd st) r bearer ->
  jwt_ParseUnverified bearer = inr err ->
  (forall flags msg, err = ValidationError flags msg -> Z.testbit flags 0 = true) ->
  sends_401 "Bearer token is malformed" st (snd (ServeHTTP r st)).
Proof.
  intros Hreq Hparse Hflag.
  assert (Hreason : tokenErrorReason err = "Bearer token is malformed").
  { destruct err as [flags msg|msg]; [|reflexivity].
    unfold tokenErrorReason, ValidationErrorMalformed.
    rewrite (has_flag_testbit flags 0) by lia.
    rewrite (Hflag flags msg eq_refl). reflexivity. }
  rewrite (ServeHTTP_bearer r bearer st Hreq). unfold bind at 1.
  unfold checkToken, ParseWithClaims. rewrite Hparse. unfold bind, ret.
  cbn [fst snd]. rewrite Hreason, run_snd. cbn [negb snd].
  exact (proj2 (sendError_sends_401 r "Bearer token is malformed" [] st)).
Qed.

End Properties.

(** * The properties on the concrete environment *)

Import Fixture.

Lemma error_response_shape_witness :
  exists hdr body,
    sendError (request "/api/clusters_mgmt/v1/clusters" []) "Access denied" [] st0
      = (tt, appended st0 [SetHeader "WWW-Authenticate" hdr; SendError (Some body)])
    /\ err_id body = Some "401"
    /\ err_href body = Some "/api/clusters_mgmt/v1/errors/401"
    /\ err_code body = Some "CLUSTERS-MGMT-401"
    /\ hdr = "Bearer realm=" +:+ quoted "clusters_mgmt/v1".
Proof.
  destruct (proj1 (error_response_shape (request "/api/clusters_mgmt/v1/clusters" []) st0)
              "Access denied" [])
    as (hdr & body & Heq & Hid & _ & Hsegments & _).
  exists hdr, body. split; [exact Heq|]. split; [exact Hid|].
  apply (Hsegments EmptyString "api" "clusters_mgmt" "v1" ["clusters"]).
  reflexivity.
Defined.

Lemma ServeHTTP_public_path_witness :
  ServeHTTP (request "/public/info" ["garbage"]) st0
  = (tt, appended st0 [ServeNext (request "/public/info" ["garbage"])]).
Proof.
  apply (ServeHTTP_public_path (request "/public/info" ["garbage"]) st0).
  exists "^/public". split; [apply list_elem_of_here | reflexivity].
Defined.

Lemma ServeHTTP_rejects_bad_header_witness :
  sends_401 "Authentication type 'Basic' isn't supported" st0
    (snd (ServeHTTP (request "/api/clusters_mgmt/v1/clusters" ["Basic dXNlcg"]) st0)).
Proof.
  assert (Hprivate : forall expr, expr ∈ publicPaths (hnd st0) ->
                       MatchString expr "/api/clusters_mgmt/v1/clusters" = false).
  { intros expr Hin. apply list_elem_of_singleton in Hin. subst expr. reflexivity. }
  apply (proj2 (proj2 (ServeHTTP_rejects_bad_header
                         (request "/api/clusters_mgmt/v1/clusters" ["Basic dXNlcg"]) st0
                         Hprivate))
           "Basic dXNlcg" "Basic" "dXNlcg").
  - discriminate.
  - reflexivity.
  - reflexivity.
Defined.

Lemma checkACL_spec_witness :
  aclItems (hnd st0) <> ∅
  /\ fst (checkACL (request "/api/clusters_mgmt/v1/clusters" [])
            {[ "email" := JString "a@example.com" ]} st0) = true.
Proof.
  assert (Hne : aclItems (hnd st0) <> ∅).
  { intros Hempty. apply (f_equal (fun m => m !! "email")) in Hempty.
    vm_compute in Hempty. discriminate Hempty. }
  split; [exact Hne|].
  apply (proj1 (proj2 (checkACL_spec (request "/api/clusters_mgmt/v1/clusters" [])
                         {[ "email" := JString "a@example.com" ]} st0) Hne)).
  exists "email", "^a@example.com", "a@example.com".
  split; [reflexivity | split; reflexivity].
Defined.

Lemma checkClaims_spec_witness :
  typ_ok (tok_Claims token1)
  /\ tok_Claims token1 !! "iat" = None
  /\ fst (checkClaims (request "/api/clusters_mgmt/v1/clusters" []) (tok_Claims token1) st0)
     = false
  /\ sends_401 "Bearer token doesn't contain required claim 'iat'" st0
       (snd (checkClaims (request "/api/clusters_mgmt/v1/clusters" [])
               (tok_Claims token1) st0)).
Proof.
  assert (Htyp : typ_ok (tok_Claims token1)).
  { exists "Bearer". split; reflexivity. }
  split; [exact Htyp|]. split; [reflexivity|].
  apply (checkClaims_spec (request "/api/clusters_mgmt/v1/clusters" [])
           (tok_Claims token1) st0).
  - exact Htyp.
  - reflexivity.
Defined.

Lemma loadKeys_never_fails_witness :
  exists ks evs,
    loadKeys st0 = (None, stepped st0 ks evs)
    /\ Log LevelInfo "Loading keys from file '/etc/keys.json'" ∈ evs
    /\ Log LevelError "Can't load keys from file '/missing.json': no such file or directory"
       ∈ evs.
Proof.
  destruct (loadKeys_never_fails st0) as (ks & evs & Heq & _ & Hfiles & _).
  exists ks, evs. split; [exact Heq|]. split.
  - apply (Hfiles "/etc/keys.json"). apply list_elem_of_further, list_elem_of_here.
  - apply (Hfiles "/missing.json"); [apply list_elem_of_here | reflexivity].
Defined.

Lemma selectKey_spec_witness :
  keys (hnd st0) !! "k1" = None
  /\ time_Sub (clock (ticks st0)) (lastKeyReload (hnd st0)) > 1 * Minute
  /\ exists (ks : gmap string PublicKey) (evs : list Event),
       Forall loader_event evs
       /\ fst (selectKey token1 st0)
          = (ks !! "k1",
             match ks !! "k1" with
             | Some _ => None
             | None => Some "there is no key for key identifier 'k1'"
             end)
       /\ trace (snd (selectKey token1 st0)) = [KeysLoad "k1"] ++ evs ++ [KeysLoad "k1"].
Proof.
  assert (Hmiss : keys (hnd st0) !! "k1" = None) by reflexivity.
  assert (Hsince : time_Sub (clock (ticks st0)) (lastKeyReload (hnd st0)) > 1 * Minute)
    by reflexivity.
  split; [exact Hmiss|]. split; [exact Hsince|].
  destruct (proj2 (proj2 (proj2 (selectKey_spec token1 st0) "k1" eq_refl)) Hmiss Hsince)
    as (ks & evs & _ & Hevs & Heq).
  exists ks, evs. split; [exact Hevs|]. rewrite Heq. split; reflexivity.
Defined.

Lemma readKeys_stores_key_without_n_witness :
  exists ks evs,
    readKeys {| ReadAll := Ok "keys" |} st0 = (None, stepped st0 ks evs)
    /\ KeysStore "k2" {| N := 0; E := 65537 |} ∈ evs.
Proof.
  apply (readKeys_stores_key_without_n {| ReadAll := Ok "keys" |} "keys"
           {| Keys := [key_no_n; key1] |} key_no_n [1; 0; 1] st0).
  - reflexivity.
  - reflexivity.
  - apply list_elem_of_here.
  - discriminate.
  - reflexivity.
  - discriminate.
  - discriminate.
  - reflexivity.
  - reflexivity.
Defined.

Lemma Build_accepts_non_HTTPS_keys_URL_witness :
  Build insecure_builder
  = (Some {| logger := lg; publicPaths := ["^/public"]; keysFiles := [];
             keysURLs := ["http://example.com/keys"];
             keysClient := {| RootCAs := None; InsecureSkipVerify := false |};
             keys := ∅; lastKeyReload := 0; aclItems := ∅; next := handlerRef 0 |},
     None).
Proof.
  apply (@Build_accepts_non_HTTPS_keys_URL env insecure_builder lg (handlerRef 0)
           "http://example.com/keys" "^/public" {| Scheme := "http" |} "^/public");
    reflexivity.
Defined.

Lemma empty_value_ignored_witness :
  Build (ACLFile EmptyString (KeysURL EmptyString (KeysFile EmptyString
           (Next (Some (handlerRef 0)) (Logger (Some lg) NewHandler)))))
  = (None, Some "at least one keys file or one keys URL must be configured").
Proof.
  apply (proj2 (proj2 (proj2
           (empty_value_ignored (Next (Some (handlerRef 0)) (Logger (Some lg) NewHandler)))))).
  - discriminate.
  - discriminate.
  - reflexivity.
  - reflexivity.
Defined.

(** The key without modulus is in the key store after the keys of the
    concrete handler are loaded. *)
Example loadKeys_keeps_key_without_n :
  keys (hnd (snd (loadKeys st0))) !! "k2" = Some {| N := 0; E := 65537 |}.
Proof. vm_compute. reflexivity. Qed.

(** With a keys URL that is not HTTPS and no public path, [Build] returns
    both a handler and the error. *)
Example Build_returns_handler_and_error :
  let b := KeysURL "http://example.com/keys"
             (Next (Some (handlerRef 0)) (Logger (Some lg) NewHandler)) in
  is_Some (fst (Build b))
  /\ snd (Build b)
     = Some "keys URL 'http://example.com/keys' doesn't use the HTTPS protocol: <nil>".
Proof. split; [by eexists | reflexivity]. Qed.

(** A second keys URL that is HTTPS clears the error of the first one. *)
Example Build_error_cleared_by_next_URL :
  Build (KeysURL "https://sso.example.com/certs" (KeysURL "http://example.com/keys"
           (Next (Some (handlerRef 0)) (Logger (Some lg) NewHandler))))
  = (Some {| logger := lg; publicPaths := []; keysFiles := [];
             keysURLs := ["http://example.com/keys"; "https://sso.example.com/certs"];
             keysClient := {| RootCAs := None; InsecureSkipVerify := false |};
             keys := ∅; lastKeyReload := 0; aclItems := ∅; next := handlerRef 0 |},
     None).
Proof. reflexivity. Qed.

(** * The further properties on the two concrete environments *)

Lemma Build_refuses_bad_keys_file_witness :
  fst (@Build Service.env (KeysFile "/etc" Service.builder)) = None
  /\ is_Some (snd (@Build Service.env (KeysFile "/etc" Service.builder))).
Proof.
  apply (@Build_refuses_bad_keys_file Service.env (KeysFile "/etc" Service.builder)).
  exists "/etc". split.
  - apply list_elem_of_further, list_elem_of_here.
  - intros info Hinfo. injection Hinfo as <-. reflexivity.
Defined.

Lemma Build_refuses_unparsable_keys_URL_witness :
  fst (@Build Service.env (KeysURL "://sso.example.com" Service.builder)) = None
  /\ is_Some (snd (@Build Service.env (KeysURL "://sso.example.com" Service.builder))).
Proof.
  apply (@Build_refuses_unparsable_keys_URL Service.env
           (KeysURL "://sso.example.com" Service.builder)).
  exists "://sso.example.com", "missing protocol scheme". split.
  - apply list_elem_of_further, list_elem_of_here.
  - reflexivity.
Defined.

Lemma Build_refuses_bad_public_path_witness :
  fst (@Build Service.env (Public "(/public" Service.builder)) = None
  /\ is_Some (snd (@Build Service.env (Public "(/public" Service.builder))).
Proof.
  apply (@Build_refuses_bad_public_path Service.env (Public "(/public" Service.builder)).
  exists "(/public", "missing closing )". split.
  - apply list_elem_of_further, list_elem_of_here.
  - reflexivity.
Defined.

Lemma Build_refuses_bad_ACL_file_witness :
  fst (@Build Service.env (ACLFile "/etc/acl-bad.yml" Service.builder)) = None
  /\ is_Some (snd (@Build Service.env (ACLFile "/etc/acl-bad.yml" Service.builder))).
Proof.
  apply (@Build_refuses_bad_ACL_file Service.env
           (ACLFile "/etc/acl-bad.yml" Service.builder)).
  exists "/etc/acl-bad.yml". split.
  - apply list_elem_of_further, list_elem_of_here.
  - right. right.
    exists [ {| Claim := "email"; Pattern := "(a@example.com" |} ],
           {| Claim := "email"; Pattern := "(a@example.com" |},
           "missing closing )".
    split; [exists "acl-bad"; split; reflexivity|].
    split; [apply list_elem_of_here | reflexivity].
Defined.

Lemma Build_handler_witness :
  @Build Service.env Service.builder = (Some Service.new_handler, None)
  /\ keysFiles Service.new_handler = b_keysFiles Service.builder
  /\ Forall2 (fun expr re => @regexp_Compile Service.env expr = Ok re)
       (b_publicPaths Service.builder) (publicPaths Service.new_handler)
  /\ keys Service.new_handler = ∅.
Proof.
  assert (Hbuild : @Build Service.env Service.builder = (Some Service.new_handler, None)).
  { reflexivity. }
  split; [exact Hbuild|].
  destruct (@Build_handler Service.env _ _ _ Hbuild)
    as (_ & _ & Hfiles & _ & _ & _ & _ & Hpublic & _ & _ & Hkeys & _).
  split; [exact Hfiles|]. split; [exact Hpublic | exact Hkeys].
Defined.

Lemma Build_succeeds_witness :
  exists h, @Build Service.env Service.builder = (Some h, None).
Proof.
  apply (@Build_succeeds Service.env Service.builder).
  - discriminate.
  - discriminate.
  - left. discriminate.
  - constructor; [|constructor].
    exists {| IsRegular := true |}. split; reflexivity.
  - constructor; [|constructor].
    exists {| Scheme := "https" |}. split; reflexivity.
  - constructor; [|constructor].
    exists "^/public". reflexivity.
  - constructor; [|constructor].
    exists [ {| Claim := "email"; Pattern := "^b@example.com" |};
             {| Claim := "sub"; Pattern := "^f:" |};
             {| Claim := "email"; Pattern := "^a@example.com" |} ].
    split; [exists "acl"; split; reflexivity|].
    constructor; [exists "^b@example.com"; reflexivity|].
    constructor; [exists "^f:"; reflexivity|].
    constructor; [exists "^a@example.com"; reflexivity|].
    constructor.
Defined.

Lemma Build_ACL_witness :
  exists re,
    @regexp_Compile Service.env "^a@example.com" = Ok re
    /\ aclItems Service.new_handler !! "email" = Some re.
Proof.
  assert (Hbuild : @Build Service.env Service.builder = (Some Service.new_handler, None)).
  { reflexivity. }
  apply (proj2 (@Build_ACL Service.env _ _ _ Hbuild)
           [] "/etc/acl.yml" []
           [ {| Claim := "email"; Pattern := "^b@example.com" |};
             {| Claim := "sub"; Pattern := "^f:" |} ]
           {| Claim := "email"; Pattern := "^a@example.com" |} []).
  - reflexivity.
  - exists "acl". split; reflexivity.
  - constructor.
  - intros file listData Hin. apply elem_of_nil in Hin. destruct Hin.
Defined.

Lemma Build_without_ACL_grants_witness :
  aclItems Service.open_handler = ∅
  /\ checkACL (Service.request "granted") (tok_Claims Service.token_stranger) Service.open_st
     = (true, Service.open_st).
Proof.
  apply (@Build_without_ACL_grants Service.env Service.open_builder Service.open_handler None).
  - reflexivity.
  - reflexivity.
  - reflexivity.
Defined.

Lemma loadKeys_keeps_keys_witness :
  is_Some (keys (hnd (snd (loadKeys Service.st))) !! "k1").
Proof.
  apply (@loadKeys_keeps_keys Service.env Service.st "k1").
  exists {| N := 65537; E := 65537 |}. reflexivity.
Defined.

Lemma readKeys_stores_valid_record_witness :
  fst (readKeys {| ReadAll := Ok "keys" |} st0) = None
  /\ keys (hnd (snd (readKeys {| ReadAll := Ok "keys" |} st0))) !! "k1"
     = Some {| N := SetBytes [1; 0; 1]; E := Int64 (SetBytes [1; 0; 1]) |}.
Proof.
  apply (@readKeys_stores_valid_record env {| ReadAll := Ok "keys" |} "keys"
           {| Keys := [key_no_n; key1] |} [key_no_n] [] key1 [1; 0; 1] [1; 0; 1] st0).
  - reflexivity.
  - reflexivity.
  - reflexivity.
  - discriminate.
  - reflexivity.
  - discriminate.
  - discriminate.
  - reflexivity.
  - reflexivity.
  - constructor.
Defined.

Lemma readKeys_stores_only_accepted_witness :
  keys (hnd st0) !! "k1" = Some {| N := 65537; E := 65537 |}
  \/ exists jsonData set kd nb eb,
       ReadAll {| ReadAll := Ok "keys" |} = Ok jsonData /\ json_Unmarshal jsonData = Ok set
       /\ kd ∈ Keys set /\ Kid kd = "k1"
       /\ Kid kd <> EmptyString /\ Kty kd = "RSA" /\ Alg kd <> EmptyString
       /\ key_E kd <> EmptyString
       /\ DecodeString (key_N kd) = Ok nb /\ DecodeString (key_E kd) = Ok eb
       /\ {| N := 65537; E := 65537 |} = {| N := SetBytes nb; E := Int64 (SetBytes eb) |}.
Proof.
  apply (@readKeys_stores_only_accepted env {| ReadAll := Ok "keys" |} st0 "k1"
           {| N := 65537; E := 65537 |}).
  vm_compute. reflexivity.
Defined.

Lemma selectKey_finds_published_key_witness :
  fst (selectKey token1 st0)
  = (Some {| N := SetBytes [1; 0; 1]; E := Int64 (SetBytes [1; 0; 1]) |}, None)
  /\ lastKeyReload (hnd (snd (selectKey token1 st0))) = clock 1.
Proof.
  apply (@selectKey_finds_published_key env token1 "k1" st0 [key_no_n] [] key1
           [1; 0; 1] [1; 0; 1]).
  - reflexivity.
  - reflexivity.
  - reflexivity.
  - reflexivity.
  - reflexivity.
  - discriminate.
  - reflexivity.
  - discriminate.
  - discriminate.
  - reflexivity.
  - reflexivity.
  - constructor.
Defined.

Lemma second_miss_does_not_reload_witness :
  fst (selectKey Service.token_unknown' (snd (selectKey Service.token_unknown Service.new_st)))
  = (None, no_key "k8")
  /\ lastKeyReload
       (hnd (snd (selectKey Service.token_unknown'
                    (snd (selectKey Service.token_unknown Service.new_st)))))
     = @clock Service.env 1.
Proof.
  assert (Hlate : time_Sub (@clock Service.env 2) (@clock Service.env 1) <= 1 * Minute).
  { vm_compute. discriminate. }
  rewrite (@second_miss_does_not_reload Service.env
             Service.token_unknown Service.token_unknown' "k9" "k8" Service.new_st
             eq_refl eq_refl eq_refl eq_refl eq_refl Hlate).
  split; [reflexivity|]. vm_compute. reflexivity.
Defined.

Lemma ServeHTTP_forwards_valid_token_witness :
  ServeHTTP (Service.request "granted") Service.st
  = (tt, appended Service.st
           [KeysLoad "k1";
            ServeNext (WithToken (Service.request "granted") (Some Service.token_granted))]).
Proof.
  apply (@ServeHTTP_forwards_valid_token Service.env (Service.request "granted") "granted"
           Service.token_granted "k1" {| N := 65537; E := 65537 |} Service.st).
  - split; [|split].
    + intros expr Hin. apply list_elem_of_singleton in Hin. subst expr. reflexivity.
    + discriminate.
    + exists "Bearer granted", "Bearer". split; reflexivity.
  - reflexivity.
  - reflexivity.
  - reflexivity.
  - reflexivity.
  - exists "bearer". split; reflexivity.
  - eexists. reflexivity.
  - eexists. reflexivity.
  - right. exists "email", "^a@example.com", "a@example.com".
    split; [reflexivity | split; reflexivity].
Defined.

Lemma ServeHTTP_denies_access_witness :
  sends_401 "Access denied" (appended Service.st [KeysLoad "k1"])
    (snd (ServeHTTP (Service.request "stranger") Service.st)).
Proof.
  apply (@ServeHTTP_denies_access Service.env (Service.request "stranger") "stranger"
           Service.token_stranger "k1" {| N := 65537; E := 65537 |} Service.st).
  - split; [|split].
    + intros expr Hin. apply list_elem_of_singleton in Hin. subst expr. reflexivity.
    + discriminate.
    + exists "Bearer stranger", "Bearer". split; reflexivity.
  - reflexivity.
  - reflexivity.
  - reflexivity.
  - reflexivity.
  - exists "bearer". split; reflexivity.
  - eexists. reflexivity.
  - eexists. reflexivity.
  - intros [Hempty | (claim & pattern & text & Hacl & Hclaim & Hmatch)].
    + apply (f_equal (fun m => m !! "email")) in Hempty.
      vm_compute in Hempty. discriminate Hempty.
    + change (aclItems (hnd Service.st))
        with ({[ "email" := "^a@example.com" ]} : gmap string string) in Hacl.
      apply lookup_singleton_Some in Hacl as [<- <-].
      vm_compute in Hclaim. injection Hclaim as <-.
      vm_compute in Hmatch. discriminate Hmatch.
Defined.

Lemma ServeHTTP_key_error_witness :
  sends_401 "Bearer token can't be verified"
    (snd (selectKey Service.token_unknown Service.st))
    (snd (ServeHTTP (Service.request "unknown") Service.st)).
Proof.
  apply (@ServeHTTP_key_error Service.env (Service.request "unknown") "unknown"
           Service.token_unknown "there is no key for key identifier 'k9'" Service.st).
  - split; [|split].
    + intros expr Hin. apply list_elem_of_singleton in Hin. subst expr. reflexivity.
    + discriminate.
    + exists "Bearer unknown", "Bearer". split; reflexivity.
  - reflexivity.
  - reflexivity.
Defined.

Lemma ServeHTTP_validation_reason_witness :
  @jwt_Validate Service.env Service.token_old (Some {| N := 65537; E := 65537 |})
  = Z.lor ValidationErrorExpired ValidationErrorIssuedAt
  /\ sends_401 "Bearer token is expired" (appended Service.st [KeysLoad "k1"])
       (snd (ServeHTTP (Service.request "old") Service.st)).
Proof.
  split; [reflexivity|].
  assert (Hrequest : bearer_request (hnd Service.st) (Service.request "old") "old").
  { split; [|split].
    - intros expr Hin. apply list_elem_of_singleton in Hin. subst expr. reflexivity.
    - discriminate.
    - exists "Bearer old", "Bearer". split; reflexivity. }
  assert (Hflags : @jwt_Validate Service.env Service.token_old
                     (Some {| N := 65537; E := 65537 |}) <> 0).
  { discriminate. }
  apply (proj1 (proj2 (@ServeHTTP_validation_reason Service.env (Service.request "old") "old"
                         Service.token_old "k1" {| N := 65537; E := 65537 |} Service.st
                         Hrequest eq_refl eq_refl eq_refl Hflags eq_refl eq_refl)));
    reflexivity.
Defined.

Lemma loadKeysURL_close_error_witness :
  loadKeysURL "https://sso.example.com/certs" Service.new_st
  = (fst (readKeys {| ReadAll := Ok "keys" |} Service.new_st),
     appended (snd (readKeys {| ReadAll := Ok "keys" |} Service.new_st))
       [Log LevelError
          "Can't close response body for request to 'https://sso.example.com/certs': connection reset"]).
Proof.
  apply (@loadKeysURL_close_error Service.env "https://sso.example.com/certs"
           {| Body := {| ReadAll := Ok "keys" |}; Body_Close := Some "connection reset" |}
           "connection reset" Service.new_st); reflexivity.
Defined.

Lemma first_token_loads_keys_witness :
  fst (selectKey Service.token_granted Service.new_st)
  = (Some {| N := 65537; E := 65537 |}, None)
  /\ lastKeyReload (hnd (snd (selectKey Service.token_granted Service.new_st)))
     = @clock Service.env 1.
Proof.
  assert (Hbuild : @Build Service.env Service.builder = (Some Service.new_handler, None)).
  { reflexivity. }
  destruct (@first_token_loads_keys Service.env Service.builder Service.new_handler None
              Service.token_granted "k1" Service.new_st Hbuild eq_refl eq_refl eq_refl)
    as (Hkey & _ & Hlast).
  split; [|exact Hlast].
  rewrite Hkey. vm_compute. reflexivity.
Defined.

Lemma ServeHTTP_undecodable_token_witness :
  sends_401 "Bearer token is malformed" Service.st
    (snd (ServeHTTP (Service.request "a.b") Service.st)).
Proof.
  apply (@ServeHTTP_undecodable_token Service.env (Service.request "a.b") "a.b"
           (ValidationError ValidationErrorMalformed
              "token contains an invalid number of segments") Service.st).
  - split; [|split].
    + intros expr Hin. apply list_elem_of_singleton in Hin. subst expr. reflexivity.
    + discriminate.
    + exists "Bearer a.b", "Bearer". split; reflexivity.
  - reflexivity.
  - intros flags msg Heq. injection Heq as <- _. reflexivity.
Defined.
